(** * Group_Chat: the chat relay server and the reconnecting chat client

    A shallow embedding of [server.py] and [client.py].  Python [str] values
    are lists of code points, [bytes] values are lists of bytes, the two
    dictionaries of the server are finite maps keyed by socket identity, and
    every method is a function in a state-and-exception monad over the record
    that holds the object's attributes.  What the operating system answers
    (accept, recv, send, getpeername, connect) is supplied to each method as
    an argument or read from the part of the state that stands for the
    sockets.

    The first half of the file holds the definitions, the second half the
    lemmas and theorems about them. *)

From Stdlib Require Import ZArith NArith List String Ascii DecimalString.
From Stdlib.Strings Require Import Byte.
From stdpp Require Import gmap list.

(* ===================================================================== *)
(** * Part I.  Definitions                                                *)
(* ===================================================================== *)

(** ** Text: [str], [bytes], the string methods used, and the UTF-8 codec *)

Module Text.

(** A Python [str] is a sequence of code points. *)
Definition str := list N.

(** A Python [bytes] object. *)
Definition bytes := list byte.

(** A string literal of the source (ASCII only). *)
Definition lit (s : string) : str := map N_of_ascii (list_ascii_of_string s).

(** A bytes literal of ASCII characters, [b"..."]. *)
Definition ascii_bytes (s : string) : bytes := list_byte_of_string s.

(** [str.isspace] on one character, as [str.strip()] uses it: the code
    points CPython's [_PyUnicode_IsWhitespace] accepts. *)
Definition isspace (c : N) : bool :=
  ((0x09 <=? c) && (c <=? 0x0D) || (0x1C <=? c) && (c <=? 0x20)
   || (c =? 0x85) || (c =? 0xA0) || (c =? 0x1680)
   || (0x2000 <=? c) && (c <=? 0x200A)
   || (c =? 0x2028) || (c =? 0x2029) || (c =? 0x202F) || (c =? 0x205F)
   || (c =? 0x3000))%N.

Fixpoint lstrip (s : str) : str :=
  match s with
  | [] => []
  | c :: s' => if isspace c then lstrip s' else s
  end.

Definition rstrip (s : str) : str := rev (lstrip (rev s)).

(** [s.strip()] *)
Definition strip (s : str) : str := rstrip (lstrip s).

(** A string of whitespace only. *)
Definition blank (s : str) : Prop := forallb isspace s = true.

(** [s.startswith(p)] *)
Fixpoint startswith (p s : str) : bool :=
  match p, s with
  | [], _ => true
  | _ :: _, [] => false
  | a :: p', b :: s' => (a =? b)%N && startswith p' s'
  end.

(** [s.split(sep, 1)] for a non-empty [sep]: [Some (a, b)] stands for the
    two-element list [[a, b]] cut at the first occurrence of [sep], [None]
    for the one-element list [[s]] returned when [sep] does not occur. *)
Fixpoint split1 (sep s : str) : option (str * str) :=
  if startswith sep s then Some ([], drop (length sep) s)
  else match s with
       | [] => None
       | c :: s' =>
           match split1 sep s' with
           | Some (a, b) => Some (c :: a, b)
           | None => None
           end
       end.

(** [str(n)] for a Python [int]. *)
Definition str_of_int (n : Z) : str := lit (NilZero.string_of_int (Z.to_int n)).

(** *** UTF-8 *)

Definition is_continuation (b : N) : bool := ((0x80 <=? b) && (b <? 0xC0))%N.

(** The decoding loop of [bytes.decode("utf-8", errors="ignore")] on the
    numeric values of the bytes.  A well-formed sequence yields its code
    point.  At an invalid start byte one byte is skipped; at an invalid
    continuation byte the bytes of the sequence read so far are skipped and
    decoding resumes at the offending byte; a sequence cut off by the end of
    the data is skipped to the end.  Overlong forms, surrogates and code
    points above U+10FFFF are rejected at their second byte. *)
Fixpoint utf8_scan (s : list N) : str :=
  match s with
  | [] => []
  | ch :: s1 =>
    if (ch <? 0x80)%N then ch :: utf8_scan s1
    else if (ch <? 0xC2)%N then utf8_scan s1
    else if (ch <? 0xE0)%N then
      match s1 with
      | [] => []
      | ch2 :: s2 =>
        if is_continuation ch2
        then (ch * 64 + ch2 - (0xC0 * 64 + 0x80))%N :: utf8_scan s2
        else utf8_scan s1
      end
    else if (ch <? 0xF0)%N then
      match s1 with
      | [] => []
      | ch2 :: s2 =>
        if negb (is_continuation ch2)
           || (if (ch2 <? 0xA0)%N then (ch =? 0xE0)%N else (ch =? 0xED)%N)
        then utf8_scan s1
        else
          match s2 with
          | [] => []
          | ch3 :: s3 =>
            if is_continuation ch3
            then (ch * 4096 + ch2 * 64 + ch3
                  - (0xE0 * 4096 + 0x80 * 64 + 0x80))%N :: utf8_scan s3
            else utf8_scan s2
          end
      end
    else if (ch <? 0xF5)%N then
      match s1 with
      | [] => []
      | ch2 :: s2 =>
        if negb (is_continuation ch2)
           || (if (ch2 <? 0x90)%N then (ch =? 0xF0)%N else (ch =? 0xF4)%N)
        then utf8_scan s1
        else
          match s2 with
          | [] => []
          | ch3 :: s3 =>
            if negb (is_continuation ch3) then utf8_scan s2
            else
              match s3 with
              | [] => []
              | ch4 :: s4 =>
                if is_continuation ch4
                then (ch * 262144 + ch2 * 4096 + ch3 * 64 + ch4
                      - (0xF0 * 262144 + 0x80 * 4096 + 0x80 * 64 + 0x80))%N
                     :: utf8_scan s4
                else utf8_scan s3
              end
          end
      end
    else utf8_scan s1
  end.

(** [data.decode("utf-8", errors="ignore")] *)
Definition decode_ignore (data : bytes) : str := utf8_scan (map Byte.to_N data).

(** The byte with a given value below 256. *)
Definition byte_of_N (n : N) : byte :=
  match Byte.of_N n with
  | Some b => b
  | None => x00
  end.

(** A code point [str.encode("utf-8")] accepts: not a surrogate, and at most
    U+10FFFF. *)
Definition encodable_char (c : N) : bool :=
  ((c <? 0xD800) || (0xE000 <=? c) && (c <? 0x110000))%N.

(** The UTF-8 form of one code point, as byte values. *)
Definition utf8_char (c : N) : list N :=
  if (c <? 0x80)%N then [c]
  else if (c <? 0x800)%N then [0xC0 + c / 64; 0x80 + c mod 64]%N
  else if (c <? 0x10000)%N then
    [0xE0 + c / 4096; 0x80 + (c / 64) mod 64; 0x80 + c mod 64]%N
  else
    [0xF0 + c / 262144; 0x80 + (c / 4096) mod 64;
     0x80 + (c / 64) mod 64; 0x80 + c mod 64]%N.

(** [s.encode("utf-8")]: [None] stands for [UnicodeEncodeError], raised at a
    lone surrogate. *)
Definition encode (s : str) : option bytes :=
  if forallb encodable_char s
  then Some (map byte_of_N (concat (map utf8_char s)))
  else None.

End Text.

(** ** Python control flow: a state monad with exceptions *)

Module Py.
Import Text.

(** The exceptions the two programs can meet. *)
Inductive exn :=
| OSError (msg : str)          (* socket errors *)
| UnicodeEncodeError           (* [str.encode] at a lone surrogate *)
| ValueError (msg : str)       (* unpacking a list of the wrong length *)
| AttributeError (msg : str).  (* a method looked up on [None] *)

(** [str(e)], the text an f-string shows for [{e}].  The text CPython gives
    a [UnicodeEncodeError] names the character and its position; it is
    abbreviated to its last part here. *)
Definition exn_str (e : exn) : str :=
  match e with
  | OSError msg => msg
  | UnicodeEncodeError => lit "surrogates not allowed"
  | ValueError msg => msg
  | AttributeError msg => msg
  end.

Inductive result (A : Type) :=
| Return (a : A)
| Raise (e : exn).
Arguments Return {A} a.
Arguments Raise {A} e.

(** A method body over an object whose attributes are a value of [St]:
    it ends by returning or by raising, and the attribute writes made up to
    that point stay. *)
Definition M (St A : Type) : Type := St → result A * St.

#[global] Instance M_ret {St} : MRet (M St) := λ A a st, (Return a, st).

#[global] Instance M_bind {St} : MBind (M St) := λ A B k m st,
  match m st with
  | (Return a, st') => k a st'
  | (Raise e, st') => (Raise e, st')
  end.

Definition raise {St A} (e : exn) : M St A := λ st, (Raise e, st).
Definition get {St} : M St St := λ st, (Return st, st).
Definition modify {St} (f : St → St) : M St unit := λ st, (Return tt, f st).

(** Lift an answer of the operating system into the method body. *)
Definition answer {St A} (r : result A) : M St A := λ st, (r, st).

(** [try: body except Exception as e: handler(e)] *)
Definition try_except {St A} (body : M St A) (handler : exn → M St A) : M St A :=
  λ st,
    match body st with
    | (Return a, st') => (Return a, st')
    | (Raise e, st') => handler e st'
    end.

(** [for x in l: body(x)] *)
Fixpoint for_each {St A} (l : list A) (body : A → M St unit) : M St unit :=
  match l with
  | [] => mret tt
  | x :: l' => body x ;; for_each l' body
  end.

(** [s.encode("utf-8")] inside a method. *)
Definition encode_utf8 {St} (s : str) : M St bytes :=
  match encode s with
  | Some b => mret b
  | None => raise UnicodeEncodeError
  end.

(** [l.remove(x)] for an [x] known to be in [l]: the first occurrence goes. *)
Fixpoint list_remove_first (x : nat) (l : list nat) : list nat :=
  match l with
  | [] => []
  | y :: l' => if decide (x = y) then l' else y :: list_remove_first x l'
  end.

End Py.

(** ** server.py *)

Module Server.
Import Text Py.

(** A socket object, by identity. *)
Definition sock := nat.

(** Server configuration constants *)
Definition RECEIVE_BUFFER_SIZE : nat := 1024.

(** Message protocol constants *)
Definition MSG_PREFIX : str := lit "MSG:".
Definition NAME_PREFIX : str := lit "NAME:".
Definition FROM_PREFIX : str := lit "FROM:".
Definition SYS_PREFIX : str := lit "SYS:".

(** The attributes of a [ChatServer], followed by what the program does to
    the world outside it: the lines handed to [gui.log_message], the sockets
    closed so far, the peer address of each connected socket (as [str()]
    prints it) and the byte strings handed to [socket.send], call by call. *)
Record ChatServer := {
  server_socket : sock;
  input_sockets : list sock;
  output_sockets : list sock;
  exceptional_sockets : list sock;
  message_queues : gmap sock (list bytes);
  client_names : gmap sock str;
  gui_log : list str;
  closed_sockets : gset sock;
  peernames : gmap sock str;
  wire : list (sock * bytes)
}.

Definition set_input_sockets (v : list sock) (st : ChatServer) : ChatServer :=
  {| server_socket := server_socket st; input_sockets := v;
     output_sockets := output_sockets st;
     exceptional_sockets := exceptional_sockets st;
     message_queues := message_queues st; client_names := client_names st;
     gui_log := gui_log st; closed_sockets := closed_sockets st;
     peernames := peernames st; wire := wire st |}.

Definition set_output_sockets (v : list sock) (st : ChatServer) : ChatServer :=
  {| server_socket := server_socket st; input_sockets := input_sockets st;
     output_sockets := v;
     exceptional_sockets := exceptional_sockets st;
     message_queues := message_queues st; client_names := client_names st;
     gui_log := gui_log st; closed_sockets := closed_sockets st;
     peernames := peernames st; wire := wire st |}.

Definition set_exceptional_sockets (v : list sock) (st : ChatServer) : ChatServer :=
  {| server_socket := server_socket st; input_sockets := input_sockets st;
     output_sockets := output_sockets st;
     exceptional_sockets := v;
     message_queues := message_queues st; client_names := client_names st;
     gui_log := gui_log st; closed_sockets := closed_sockets st;
     peernames := peernames st; wire := wire st |}.

Definition set_message_queues (v : gmap sock (list bytes)) (st : ChatServer) : ChatServer :=
  {| server_socket := server_socket st; input_sockets := input_sockets st;
     output_sockets := output_sockets st;
     exceptional_sockets := exceptional_sockets st;
     message_queues := v; client_names := client_names st;
     gui_log := gui_log st; closed_sockets := closed_sockets st;
     peernames := peernames st; wire := wire st |}.

Definition set_client_names (v : gmap sock str) (st : ChatServer) : ChatServer :=
  {| server_socket := server_socket st; input_sockets := input_sockets st;
     output_sockets := output_sockets st;
     exceptional_sockets := exceptional_sockets st;
     message_queues := message_queues st; client_names := v;
     gui_log := gui_log st; closed_sockets := closed_sockets st;
     peernames := peernames st; wire := wire st |}.

Definition set_gui_log (v : list str) (st : ChatServer) : ChatServer :=
  {| server_socket := server_socket st; input_sockets := input_sockets st;
     output_sockets := output_sockets st;
     exceptional_sockets := exceptional_sockets st;
     message_queues := message_queues st; client_names := client_names st;
     gui_log := v; closed_sockets := closed_sockets st;
     peernames := peernames st; wire := wire st |}.

Definition set_closed_sockets (v : gset sock) (st : ChatServer) : ChatServer :=
  {| server_socket := server_socket st; input_sockets := input_sockets st;
     output_sockets := output_sockets st;
     exceptional_sockets := exceptional_sockets st;
     message_queues := message_queues st; client_names := client_names st;
     gui_log := gui_log st; closed_sockets := v;
     peernames := peernames st; wire := wire st |}.

Definition set_peernames (v : gmap sock str) (st : ChatServer) : ChatServer :=
  {| server_socket := server_socket st; input_sockets := input_sockets st;
     output_sockets := output_sockets st;
     exceptional_sockets := exceptional_sockets st;
     message_queues := message_queues st; client_names := client_names st;
     gui_log := gui_log st; closed_sockets := closed_sockets st;
     peernames := v; wire := wire st |}.

Definition set_wire (v : list (sock * bytes)) (st : ChatServer) : ChatServer :=
  {| server_socket := server_socket st; input_sockets := input_sockets st;
     output_sockets := output_sockets st;
     exceptional_sockets := exceptional_sockets st;
     message_queues := message_queues st; client_names := client_names st;
     gui_log := gui_log st; closed_sockets := closed_sockets st;
     peernames := peernames st; wire := v |}.

(** *** The socket calls *)

Definition EBADF : exn := OSError (lit "[Errno 9] Bad file descriptor").
Definition ENOTCONN : exn :=
  OSError (lit "[Errno 107] Transport endpoint is not connected").

(** [str(client_socket.getpeername())]: a closed socket raises, and so does
    one the system no longer has a peer for. *)
Definition getpeername (s : sock) : M ChatServer str :=
  st ← get;
  if decide (s ∈ closed_sockets st) then raise EBADF
  else match peernames st !! s with
       | Some addr => mret addr
       | None => raise ENOTCONN
       end.

(** [client_socket.close()] *)
Definition close (s : sock) : M ChatServer unit :=
  modify (λ st, set_closed_sockets ({[s]} ∪ closed_sockets st) st).

(** [client_socket.recv(RECEIVE_BUFFER_SIZE)], the system answering [r].
    The system gives at most [RECEIVE_BUFFER_SIZE] bytes in one answer: of
    bytes [b] that are waiting it gives [take RECEIVE_BUFFER_SIZE b].  The
    statements about a whole message read in one chunk say so. *)
Definition recv (s : sock) (r : result bytes) : M ChatServer bytes :=
  st ← get;
  if decide (s ∈ closed_sockets st) then raise EBADF else answer r.

(** [client_socket.send(message_bytes)], the system answering [r]
    ([None]: the call returns).  Every call is recorded on [wire]. *)
Definition send (s : sock) (message_bytes : bytes) (r : option exn) : M ChatServer unit :=
  modify (λ st, set_wire (wire st ++ [(s, message_bytes)]) st) ;;
  st ← get;
  if decide (s ∈ closed_sockets st) then raise EBADF
  else match r with
       | None => mret tt
       | Some e => raise e
       end.

(** [self.gui.log_message(message)] *)
Definition log_message (message : str) : M ChatServer unit :=
  modify (λ st, set_gui_log (gui_log st ++ [message]) st).

(** *** The methods of [ChatServer] *)

(** The keys visited by [for client_socket in list(self.message_queues.keys())]. *)
Definition queue_keys (st : ChatServer) : list sock :=
  elements (dom (message_queues st)).

Definition _broadcast_message (message : str) : M ChatServer unit :=
  message_bytes ← encode_utf8 message;
  st ← get;
  for_each (queue_keys st) (λ client_socket,
    try_except
      (modify (λ st, set_message_queues
                       (alter (λ q, q ++ [message_bytes]) client_socket
                              (message_queues st)) st))
      (λ _, mret tt)).

Definition _cleanup_client_socket (client_socket : sock) : M ChatServer unit :=
  try_except
    (st ← get;
     (if decide (client_socket ∈ input_sockets st)
      then modify (λ st, set_input_sockets
                           (list_remove_first client_socket (input_sockets st)) st)
      else mret tt) ;;
     st ← get;
     (if decide (client_socket ∈ output_sockets st)
      then modify (λ st, set_output_sockets
                           (list_remove_first client_socket (output_sockets st)) st)
      else mret tt) ;;
     close client_socket ;;
     modify (λ st, set_message_queues (delete client_socket (message_queues st)) st) ;;
     modify (λ st, set_client_names (delete client_socket (client_names st)) st))
    (λ e, log_message (lit "Error cleaning up client socket: " ++ exn_str e)).

Definition _handle_client_disconnection (client_socket : sock) : M ChatServer unit :=
  st ← get;
  let username := client_names st !! client_socket in
  modify (λ st, set_client_names (delete client_socket (client_names st)) st) ;;
  peer ← getpeername client_socket;
  log_message (lit "Client disconnected: " ++ peer) ;;
  _cleanup_client_socket client_socket ;;
  match username with
  | Some (c :: u) =>
      let leave_message := SYS_PREFIX ++ (c :: u) ++ lit " left" in
      log_message leave_message ;;
      _broadcast_message leave_message
  | _ => mret tt
  end.

Definition _handle_name_registration (client_socket : sock) (message_text : str)
  : M ChatServer unit :=
  if startswith NAME_PREFIX message_text then
    let username := strip (drop (length NAME_PREFIX) message_text) in
    username ← match username with
               | [] => getpeername client_socket
               | _ :: _ => mret username
               end;
    modify (λ st, set_client_names (<[client_socket := username]> (client_names st)) st) ;;
    let join_message := SYS_PREFIX ++ username ++ lit " joined" in
    log_message join_message ;;
    _broadcast_message join_message
  else mret tt.

(** The default of [dict.get] is an argument, so [getpeername()] is called
    before the lookup, whether or not the name is there. *)
Definition _handle_chat_message (client_socket : sock) (message_text : str)
  : M ChatServer unit :=
  if startswith MSG_PREFIX message_text then
    let message_content := strip (drop (length MSG_PREFIX) message_text) in
    fallback ← getpeername client_socket;
    st ← get;
    let username := default fallback (client_names st !! client_socket) in
    let relay_message := FROM_PREFIX ++ username ++ lit ":" ++ message_content in
    log_message (username ++ lit ": " ++ message_content) ;;
    _broadcast_message relay_message
  else mret tt.

Definition _process_client_message (client_socket : sock) (message_text : str)
  : M ChatServer unit :=
  st ← get;
  match client_names st !! client_socket with
  | None => _handle_name_registration client_socket message_text
  | Some _ => _handle_chat_message client_socket message_text
  end.

(** [received] is what [recv] answers. *)
Definition _handle_client_data (client_socket : sock) (received : result bytes)
  : M ChatServer unit :=
  try_except
    (received_data ← recv client_socket received;
     match received_data with
     | _ :: _ =>
         let message_text := strip (decode_ignore received_data) in
         _process_client_message client_socket message_text
     | [] => _handle_client_disconnection client_socket
     end)
    (λ e,
       log_message (lit "Error handling client data: " ++ exn_str e) ;;
       _handle_client_disconnection client_socket).

(** [accepted] is what [accept] answers: the new socket and its address. *)
Definition _accept_new_client (accepted : result (sock * str)) : M ChatServer unit :=
  try_except
    ('(client_socket, client_address) ← answer accepted;
     modify (λ st, set_peernames (<[client_socket := client_address]> (peernames st)) st) ;;
     modify (λ st, set_input_sockets (input_sockets st ++ [client_socket]) st) ;;
     modify (λ st, set_output_sockets (output_sockets st ++ [client_socket]) st) ;;
     modify (λ st, set_message_queues (<[client_socket := []]> (message_queues st)) st) ;;
     log_message (lit "New connection from " ++ client_address))
    (λ e, log_message (lit "Failed to accept connection: " ++ exn_str e)).

(** [sent s b] is what [send] answers for [b] on [s]. *)
Definition _handle_writable_sockets (writable_sockets : list sock)
    (sent : sock → bytes → option exn) : M ChatServer unit :=
  for_each writable_sockets (λ client_socket,
    try_except
      (st ← get;
       match message_queues st !! client_socket with
       | Some (message_bytes :: rest) =>
           modify (λ st, set_message_queues
                           (<[client_socket := rest]> (message_queues st)) st) ;;
           send client_socket message_bytes (sent client_socket message_bytes)
       | _ => mret tt
       end)
      (λ _, modify (λ st, set_exceptional_sockets
                            (exceptional_sockets st ++ [client_socket]) st))).

Definition _handle_exceptional_sockets (exceptional_sockets' : list sock)
  : M ChatServer unit :=
  for_each exceptional_sockets' (λ client_socket,
    _handle_client_disconnection client_socket ;;
    st ← get;
    if decide (client_socket ∈ exceptional_sockets st)
    then modify (λ st, set_exceptional_sockets
                         (list_remove_first client_socket (exceptional_sockets st)) st)
    else mret tt).

Definition _handle_readable_sockets (readable_sockets : list sock)
    (accepted : result (sock * str)) (received : sock → result bytes)
  : M ChatServer unit :=
  for_each readable_sockets (λ socket_fd,
    st ← get;
    if decide (socket_fd = server_socket st)
    then _accept_new_client accepted
    else _handle_client_data socket_fd (received socket_fd)).

(** One turn of the [while] loop of [_run_server]; [selected] is what
    [select.select] answers. *)
Definition _run_server_turn
    (selected : result (list sock * list sock * list sock))
    (accepted : result (sock * str)) (received : sock → result bytes)
    (sent : sock → bytes → option exn) : M ChatServer unit :=
  try_except
    ('(readable_sockets, writable_sockets, exceptional_sockets') ← answer selected;
     _handle_readable_sockets readable_sockets accepted received ;;
     _handle_writable_sockets writable_sockets sent ;;
     _handle_exceptional_sockets exceptional_sockets')
    (λ e, log_message (lit "Server error: " ++ exn_str e)).

(** *** Observations on a run *)

(** The byte strings handed to [send] on socket [s], in order. *)
Definition sent_to (s : sock) (w : list (sock * bytes)) : list bytes :=
  omap (λ p, if decide (p.1 = s) then Some p.2 else None) w.

(** The two operations that touch an outbound queue. *)
Inductive queue_op :=
| Enqueue (message : str)
| Flush (writable_sockets : list sock) (sent : sock → bytes → option exn).

Definition run_queue_op (o : queue_op) : M ChatServer unit :=
  match o with
  | Enqueue message => _broadcast_message message
  | Flush writable_sockets sent => _handle_writable_sockets writable_sockets sent
  end.

(** The byte strings a list of operations enqueues, in order. *)
Definition enqueued (ops : list queue_op) : list bytes :=
  omap (λ o, match o with
             | Enqueue message => encode message
             | Flush _ _ => None
             end) ops.

Definition can_encode (o : queue_op) : Prop :=
  match o with
  | Enqueue message => is_Some (encode message)
  | Flush _ _ => True
  end.

(** *** States the methods leave, written out *)

(** After a broadcast of the bytes [b]. *)
Definition enqueue_all (b : bytes) (st : ChatServer) : ChatServer :=
  set_message_queues ((λ q, q ++ [b]) <$> message_queues st) st.

(** After [_cleanup_client_socket]. *)
Definition cleaned (s : sock) (st : ChatServer) : ChatServer :=
  set_client_names (delete s (client_names st))
    (set_message_queues (delete s (message_queues st))
       (set_closed_sockets ({[s]} ∪ closed_sockets st)
          (set_output_sockets (list_remove_first s (output_sockets st))
             (set_input_sockets (list_remove_first s (input_sockets st)) st)))).

(** [getpeername] cannot answer for [s]. *)
Definition peer_unavailable (s : sock) (st : ChatServer) : Prop :=
  s ∈ closed_sockets st ∨ peernames st !! s = None.

End Server.

(** ** client.py *)

Module Client.
Import Text Py.

Definition sock := nat.

(** Network configuration constants *)
Definition RECONNECT_BASE_DELAY : Z := 1.
Definition RECONNECT_MAX_DELAY : Z := 16.
Definition RECEIVE_BUFFER_SIZE : nat := 1024.

(** [NETWORK_POLL_INTERVAL = 0.05] and the [0.5] of the network loop, as
    fractions of a second. *)
Definition NETWORK_POLL_INTERVAL : Z * Z := (5, 100)%Z.
Definition ERROR_PAUSE : Z * Z := (5, 10)%Z.

(** Message protocol constants *)
Definition MSG_PREFIX : str := lit "MSG:".
Definition NAME_PREFIX : str := lit "NAME:".
Definition FROM_PREFIX : str := lit "FROM:".
Definition SYS_PREFIX : str := lit "SYS:".

(** The display methods the network code schedules with [wx.CallAfter]. *)
Inductive ui_call :=
| _append_system_message (message_content : str)
| _append_own_message (message_content : str)
| _append_other_message (sender_name message_content : str).

(** The attributes of a [ChatClient] that the network code uses
    ([input_text] is the content of the text field), followed by what the
    program does to the world outside it: the calls scheduled with
    [wx.CallAfter], the lines printed, the byte strings handed to
    [socket.send], the sockets closed, and the durations
    [_sleep_interruptible] was asked for (numerator and denominator, in
    seconds). *)
Record ChatClient := {
  client_socket : option sock;
  inputs : list sock;
  outputs : list sock;
  username : str;
  stop_event : bool;
  input_text : str;
  scheduled : list ui_call;
  printed : list str;
  wire : list (sock * bytes);
  closed_sockets : gset sock;
  slept : list (Z * Z)
}.

Definition set_client_socket (v : option sock) (st : ChatClient) : ChatClient :=
  {| client_socket := v; inputs := inputs st; outputs := outputs st;
     username := username st; stop_event := stop_event st;
     input_text := input_text st; scheduled := scheduled st;
     printed := printed st; wire := wire st;
     closed_sockets := closed_sockets st; slept := slept st |}.

Definition set_inputs (v : list sock) (st : ChatClient) : ChatClient :=
  {| client_socket := client_socket st; inputs := v; outputs := outputs st;
     username := username st; stop_event := stop_event st;
     input_text := input_text st; scheduled := scheduled st;
     printed := printed st; wire := wire st;
     closed_sockets := closed_sockets st; slept := slept st |}.

Definition set_outputs (v : list sock) (st : ChatClient) : ChatClient :=
  {| client_socket := client_socket st; inputs := inputs st; outputs := v;
     username := username st; stop_event := stop_event st;
     input_text := input_text st; scheduled := scheduled st;
     printed := printed st; wire := wire st;
     closed_sockets := closed_sockets st; slept := slept st |}.

Definition set_stop_event (v : bool) (st : ChatClient) : ChatClient :=
  {| client_socket := client_socket st; inputs := inputs st;
     outputs := outputs st;
     username := username st; stop_event := v;
     input_text := input_text st; scheduled := scheduled st;
     printed := printed st; wire := wire st;
     closed_sockets := closed_sockets st; slept := slept st |}.

Definition set_input_text (v : str) (st : ChatClient) : ChatClient :=
  {| client_socket := client_socket st; inputs := inputs st;
     outputs := outputs st;
     username := username st; stop_event := stop_event st;
     input_text := v; scheduled := scheduled st;
     printed := printed st; wire := wire st;
     closed_sockets := closed_sockets st; slept := slept st |}.

Definition set_scheduled (v : list ui_call) (st : ChatClient) : ChatClient :=
  {| client_socket := client_socket st; inputs := inputs st;
     outputs := outputs st;
     username := username st; stop_event := stop_event st;
     input_text := input_text st; scheduled := v;
     printed := printed st; wire := wire st;
     closed_sockets := closed_sockets st; slept := slept st |}.

Definition set_printed (v : list str) (st : ChatClient) : ChatClient :=
  {| client_socket := client_socket st; inputs := inputs st;
     outputs := outputs st;
     username := username st; stop_event := stop_event st;
     input_text := input_text st; scheduled := scheduled st;
     printed := v; wire := wire st;
     closed_sockets := closed_sockets st; slept := slept st |}.

Definition set_wire (v : list (sock * bytes)) (st : ChatClient) : ChatClient :=
  {| client_socket := client_socket st; inputs := inputs st;
     outputs := outputs st;
     username := username st; stop_event := stop_event st;
     input_text := input_text st; scheduled := scheduled st;
     printed := printed st; wire := v;
     closed_sockets := closed_sockets st; slept := slept st |}.

Definition set_closed_sockets (v : gset sock) (st : ChatClient) : ChatClient :=
  {| client_socket := client_socket st; inputs := inputs st;
     outputs := outputs st;
     username := username st; stop_event := stop_event st;
     input_text := input_text st; scheduled := scheduled st;
     printed := printed st; wire := wire st;
     closed_sockets := v; slept := slept st |}.

Definition set_slept (v : list (Z * Z)) (st : ChatClient) : ChatClient :=
  {| client_socket := client_socket st; inputs := inputs st;
     outputs := outputs st;
     username := username st; stop_event := stop_event st;
     input_text := input_text st; scheduled := scheduled st;
     printed := printed st; wire := wire st;
     closed_sockets := closed_sockets st; slept := v |}.

(** *** Calls out of the network code *)

Definition EBADF : exn := OSError (lit "[Errno 9] Bad file descriptor").

(** [wx.CallAfter(call)] *)
Definition CallAfter (call : ui_call) : M ChatClient unit :=
  modify (λ st, set_scheduled (scheduled st ++ [call]) st).

(** [print(line)] *)
Definition print (line : str) : M ChatClient unit :=
  modify (λ st, set_printed (printed st ++ [line]) st).

(** [s.send(message_bytes)], the system answering [r] ([None]: the call
    returns).  Every call is recorded on [wire]. *)
Definition send (s : sock) (message_bytes : bytes) (r : option exn) : M ChatClient unit :=
  modify (λ st, set_wire (wire st ++ [(s, message_bytes)]) st) ;;
  st ← get;
  if decide (s ∈ closed_sockets st) then raise EBADF
  else match r with
       | None => mret tt
       | Some e => raise e
       end.

(** [s.close()] *)
Definition close (s : sock) : M ChatClient unit :=
  modify (λ st, set_closed_sockets ({[s]} ∪ closed_sockets st) st).

(** [self._sleep_interruptible(seconds)]: the request is recorded; how long
    the thread really sleeps is up to the clock and to [stop_event]. *)
Definition _sleep_interruptible (seconds : Z * Z) : M ChatClient unit :=
  modify (λ st, set_slept (slept st ++ [seconds]) st).

(** *** The methods of [ChatClient] *)

(** [sent] is what [send] answers. *)
Definition send_message (sent : option exn) : M ChatClient unit :=
  st ← get;
  let message_text := strip (input_text st) in
  match message_text with
  | [] => mret tt
  | _ :: _ =>
      modify (set_input_text []) ;;
      try_except
        (st ← get;
         match client_socket st with
         | Some s =>
             let formatted_message := MSG_PREFIX ++ message_text in
             message_bytes ← encode_utf8 formatted_message;
             send s message_bytes sent
         | None =>
             CallAfter (_append_system_message (lit "Not connected to server"))
         end)
        (λ e, CallAfter (_append_system_message
                           (lit "Failed to send message: " ++ exn_str e)))
  end.

Definition _send_username_handshake (sent : option exn) : M ChatClient unit :=
  try_except
    (st ← get;
     let username_message := NAME_PREFIX ++ username st in
     message_bytes ← encode_utf8 username_message;
     match client_socket st with
     | Some s => send s message_bytes sent
     | None => raise (AttributeError (lit "'NoneType' object has no attribute 'send'"))
     end)
    (λ e, print (lit "Failed to send username: " ++ exn_str e)).

Definition _cleanup_connection : M ChatClient unit :=
  st ← get;
  try_except
    (match client_socket st with
     | Some s => close s
     | None => mret tt
     end)
    (λ _, mret tt) ;;
  modify (set_client_socket None).

(** What the system answers during one connection attempt: the new socket
    object (or the failure of [socket.socket]), the outcome of [connect]
    and of the two calls that configure the socket, and the outcome of the
    [send] of the handshake. *)
Record attempt := {
  created : result sock;
  connected : option exn;
  handshake_sent : option exn
}.

Definition _attempt_connection (current_delay : Z) (a : attempt) : M ChatClient Z :=
  try_except
    (s ← answer (created a);
     modify (set_client_socket (Some s)) ;;
     match connected a with
     | None => mret tt
     | Some e => raise e
     end ;;
     modify (set_inputs [s]) ;;
     modify (set_outputs []) ;;
     _send_username_handshake (handshake_sent a) ;;
     CallAfter (_append_system_message (lit "Connected to chat server")) ;;
     mret RECONNECT_BASE_DELAY)
    (λ e,
       CallAfter (_append_system_message
                    (lit "Connection failed, retrying in "
                     ++ str_of_int current_delay ++ lit "s")) ;;
       _cleanup_connection ;;
       _sleep_interruptible (current_delay, 1%Z) ;;
       mret (Z.min RECONNECT_MAX_DELAY (current_delay * 2))).

Definition _handle_disconnection : M ChatClient unit :=
  _cleanup_connection ;;
  CallAfter (_append_system_message (lit "Disconnected from server; reconnecting...")).

Definition _handle_incoming_message (message_text : str) : M ChatClient unit :=
  let message_text := strip message_text in
  if startswith SYS_PREFIX message_text then
    let system_message := strip (drop (length SYS_PREFIX) message_text) in
    CallAfter (_append_system_message system_message)
  else if startswith FROM_PREFIX message_text then
    try_except
      ('(_, rest) ← match split1 FROM_PREFIX message_text with
                    | Some p => mret p
                    | None => raise (ValueError (lit "not enough values to unpack (expected 2, got 1)"))
                    end;
       '(sender_name, message_content) ←
          match split1 (lit ":") rest with
          | Some p => mret p
          | None => raise (ValueError (lit "not enough values to unpack (expected 2, got 1)"))
          end;
       let sender_name := strip sender_name in
       let message_content := strip message_content in
       st ← get;
       if decide (sender_name = username st)
       then CallAfter (_append_own_message message_content)
       else CallAfter (_append_other_message sender_name message_content))
      (λ e,
         match e with
         | ValueError _ => CallAfter (_append_system_message message_text)
         | _ => raise e
         end)
  else CallAfter (_append_system_message message_text).

(** What the system answers during one call of [_receive_messages]: the
    readable sockets [select] reports (or its failure), and what [recv]
    gives on each.  [recv] is called with [RECEIVE_BUFFER_SIZE]: of bytes
    [b] that are waiting it gives [take RECEIVE_BUFFER_SIZE b]. *)
Record reception := {
  selected : result (list sock);
  received : sock → result bytes
}.

Definition _receive_messages (r : reception) : M ChatClient unit :=
  readable_sockets ← try_except (answer (selected r)) (λ _, mret []);
  for_each readable_sockets (λ socket_fd,
    received_data ← try_except
                      (st ← get;
                       if decide (socket_fd ∈ closed_sockets st)
                       then raise EBADF
                       else answer (received r socket_fd))
                      (λ _, mret []);
    match received_data with
    | _ :: _ =>
        let message_text := decode_ignore received_data in
        _handle_incoming_message message_text
    | [] => _handle_disconnection
    end).

(** One turn of the [while] loop of [_network_loop]: what the system
    answers if the turn attempts a connection, and if it receives. *)
Record turn := {
  attempted : attempt;
  polled : reception
}.

(** [_network_loop], run for the turns given; it returns the value of
    [reconnect_delay] it ends with. *)
Fixpoint network_turns (turns : list turn) (reconnect_delay : Z) : M ChatClient Z :=
  match turns with
  | [] => mret reconnect_delay
  | t :: turns' =>
      st ← get;
      if stop_event st then mret reconnect_delay
      else
        reconnect_delay ←
          try_except
            (st ← get;
             match client_socket st with
             | None => _attempt_connection reconnect_delay (attempted t)
             | Some _ =>
                 _receive_messages (polled t) ;;
                 _sleep_interruptible NETWORK_POLL_INTERVAL ;;
                 mret reconnect_delay
             end)
            (λ e,
               print (lit "Network loop error: " ++ exn_str e) ;;
               _sleep_interruptible ERROR_PAUSE ;;
               mret reconnect_delay);
        network_turns turns' reconnect_delay
  end.

Definition _network_loop (turns : list turn) : M ChatClient Z :=
  network_turns turns RECONNECT_BASE_DELAY.

Definition on_close : M ChatClient unit :=
  modify (set_stop_event true) ;;
  st ← get;
  try_except
    (match client_socket st with
     | Some s => close s
     | None => mret tt
     end)
    (λ _, mret tt).

(** *** The notices, the delays, and the states the methods leave *)

Definition retry_notice (current_delay : Z) : ui_call :=
  _append_system_message
    (lit "Connection failed, retrying in " ++ str_of_int current_delay ++ lit "s").

Definition connected_notice : ui_call :=
  _append_system_message (lit "Connected to chat server").

Definition disconnected_notice : ui_call :=
  _append_system_message (lit "Disconnected from server; reconnecting...").

(** The delay [_attempt_connection] returns after a failure. *)
Definition next_delay (current_delay : Z) : Z :=
  Z.min RECONNECT_MAX_DELAY (current_delay * 2).

(** The delay after [n] failed attempts in a row, starting from [d]. *)
Fixpoint delay_after (n : nat) (d : Z) : Z :=
  match n with
  | O => d
  | S n' => delay_after n' (next_delay d)
  end.

(** The sequence 1, 2, 4, 8, 16, 16, 16, ... in closed form. *)
Definition backoff (i : nat) : Z :=
  Z.min RECONNECT_MAX_DELAY (RECONNECT_BASE_DELAY * 2 ^ Z.of_nat i).

(** An attempt that does not get as far as the handshake: [socket.socket]
    or [connect] raises. *)
Definition attempt_fails (a : attempt) : bool :=
  match created a, connected a with
  | Raise _, _ => true
  | Return _, Some _ => true
  | Return _, None => false
  end.

Definition failing (t : turn) : Prop := attempt_fails (attempted t) = true.

(** After a failed attempt made without a socket. *)
Definition after_failure (current_delay : Z) (a : attempt) (st : ChatClient) : ChatClient :=
  set_slept (slept st ++ [(current_delay, 1%Z)])
    (set_closed_sockets
       (match created a with
        | Return s => {[s]} ∪ closed_sockets st
        | Raise _ => closed_sockets st
        end)
       (set_scheduled (scheduled st ++ [retry_notice current_delay]) st)).

(** After a successful attempt on socket [s]; [w] and [p] are [wire] and
    [printed] as the handshake left them. *)
Definition after_success (s : sock) (w : list (sock * bytes)) (p : list str)
    (st : ChatClient) : ChatClient :=
  set_scheduled (scheduled st ++ [connected_notice])
    (set_printed p (set_wire w
       (set_outputs [] (set_inputs [s] (set_client_socket (Some s) st))))).

(** After a turn in which the server is found to have closed the
    connection. *)
Definition after_drop (st : ChatClient) : ChatClient :=
  set_slept (slept st ++ [NETWORK_POLL_INTERVAL])
    (set_scheduled (scheduled st ++ [disconnected_notice])
       (set_client_socket None
          (set_closed_sockets
             (match client_socket st with
              | Some s => {[s]} ∪ closed_sockets st
              | None => closed_sockets st
              end) st))).

End Client.

(** ** Concrete runs, used as test inputs below *)

Module Scenario.
Import Text Py.

(** A server just after [__init__]: only the listening socket (socket 0). *)
Definition fresh_server : Server.ChatServer :=
  {| Server.server_socket := 0;
     Server.input_sockets := [0];
     Server.output_sockets := [];
     Server.exceptional_sockets := [];
     Server.message_queues := ∅;
     Server.client_names := ∅;
     Server.gui_log := [];
     Server.closed_sockets := ∅;
     Server.peernames := ∅;
     Server.wire := [] |}.

(** The state a method leaves behind. *)
Definition after {St A} (m : M St A) (st : St) : St := snd (m st).

(** Two clients have connected (sockets 1 and 2); nobody has sent anything. *)
Definition two_connected : Server.ChatServer :=
  after (Server._accept_new_client (Return (1, lit "('127.0.0.1', 50001)")) ;;
         Server._accept_new_client (Return (2, lit "('127.0.0.1', 50002)")))
        fresh_server.

(** Socket 1 has announced the name alice; socket 2 has not announced any. *)
Definition alice_and_guest : Server.ChatServer :=
  after (Server._handle_client_data 1 (Return (ascii_bytes "NAME:alice")))
        two_connected.

(** Both have announced a name, and the queues have been flushed. *)
Definition alice_and_bob : Server.ChatServer :=
  after (Server._handle_client_data 2 (Return (ascii_bytes "NAME:bob")) ;;
         Server._handle_writable_sockets [1; 2] (λ _ _, None) ;;
         Server._handle_writable_sockets [1; 2] (λ _ _, None))
        alice_and_guest.

(** A client just after [__init__], the user having chosen the name alice. *)
Definition fresh_client : Client.ChatClient :=
  {| Client.client_socket := None;
     Client.inputs := [];
     Client.outputs := [];
     Client.username := lit "alice";
     Client.stop_event := false;
     Client.input_text := [];
     Client.scheduled := [];
     Client.printed := [];
     Client.wire := [];
     Client.closed_sockets := ∅;
     Client.slept := [] |}.

Definition ECONNREFUSED : exn := OSError (lit "[Errno 111] Connection refused").
Definition EPIPE : exn := OSError (lit "[Errno 32] Broken pipe").

(** The server is not listening: [connect] is refused. *)
Definition refused (s : Client.sock) : Client.attempt :=
  {| Client.created := Return s;
     Client.connected := Some ECONNREFUSED;
     Client.handshake_sent := None |}.

(** The connection is made and the handshake goes out. *)
Definition accepted (s : Client.sock) : Client.attempt :=
  {| Client.created := Return s;
     Client.connected := None;
     Client.handshake_sent := None |}.

(** The connection is made, but sending the handshake fails. *)
Definition handshake_lost (s : Client.sock) : Client.attempt :=
  {| Client.created := Return s;
     Client.connected := None;
     Client.handshake_sent := Some EPIPE |}.

(** Nothing to read within the timeout. *)
Definition quiet : Client.reception :=
  {| Client.selected := Return [];
     Client.received := λ _, Return [] |}.

(** Socket [s] is readable and [recv] gives [data] ([b""]: the server has
    closed the connection). *)
Definition incoming (s : Client.sock) (data : bytes) : Client.reception :=
  {| Client.selected := Return [s];
     Client.received := λ _, Return data |}.

(** A turn of the network loop that finds the server down. *)
Definition failing_turn (s : Client.sock) : Client.turn :=
  {| Client.attempted := refused s; Client.polled := quiet |}.

(** The client of [fresh_client], connected on socket 7. *)
Definition connected_client : Client.ChatClient :=
  after (Client._attempt_connection 1 (accepted 7)) fresh_client.

End Scenario.

(** ** More words for what the client does *)

Module ClientWords.
Import Text Py Client.

(** After [_handle_disconnection]. *)
Definition disconnected (st : ChatClient) : ChatClient :=
  set_scheduled (scheduled st ++ [disconnected_notice])
    (set_client_socket None
       (set_closed_sockets
          (match client_socket st with
           | Some s => {[s]} ∪ closed_sockets st
           | None => closed_sockets st
           end) st)).

(** A duration the network loop may ask [_sleep_interruptible] for while
    nothing unexpected is raised: the poll interval, or a reconnection delay
    between the base delay and the maximum. *)
Definition allowed_sleep (seconds : Z * Z) : Prop :=
  seconds = NETWORK_POLL_INTERVAL
  ∨ ∃ k, seconds = (k, 1%Z) ∧ (RECONNECT_BASE_DELAY ≤ k ≤ RECONNECT_MAX_DELAY)%Z.

(** The fields the receiving code leaves alone. *)
Definition keeps_pace (st st' : ChatClient) : Prop :=
  slept st' = slept st ∧ stop_event st' = stop_event st
  ∧ wire st' = wire st ∧ printed st' = printed st.

End ClientWords.

(** ** The rest of client.py: the user name and the colours *)

Module Display.
Import Text Py.

(** [_prompt_for_username]: [dialog] is what the text entry dialog gives
    ([None]: it was cancelled, [Some value]: OK was pressed with [value] in
    the field), [now] is [int(time.time())]. *)
Definition _prompt_for_username (dialog : option str) (now : Z) : str :=
  let fallback := lit "User-" ++ str_of_int (now mod 100000) in
  match dialog with
  | Some value =>
      match strip value with
      | [] => fallback
      | c :: u => c :: u
      end
  | None => fallback
  end.

(** A [wx.Colour], by the key the code compares: red, green, blue. *)
Definition colour : Type := N * N * N.

(** [_create_pastel_color_palette] *)
Definition _create_pastel_color_palette : list colour :=
  [(245, 245, 245); (255, 235, 238); (232, 245, 233); (232, 234, 246);
   (227, 242, 253); (252, 228, 236); (255, 249, 196); (240, 244, 195);
   (248, 187, 208); (200, 230, 201)]%N.

(** [self.pastel_palette] *)
Definition pastel_palette : list colour := _create_pastel_color_palette.

(** [random.choice(self.pastel_palette)] when the generator picks the
    position [i] (taken modulo the length of the palette). *)
Definition choice (i : nat) : colour :=
  nth (i mod length pastel_palette) pastel_palette (245, 245, 245)%N.

(** The [while] loop of [_get_color_for_sender]: [color] is the colour drawn
    last, [k] counts the draws made, [attempts_left] is [5 - attempts]. *)
Fixpoint redraw (used_colors : list colour)
    (draw : nat → nat) (attempts_left : nat) (k : nat) (color : colour) : colour :=
  match attempts_left with
  | O => color
  | S n =>
      if decide (color ∈ used_colors)
      then redraw used_colors draw n (S k) (choice (draw k))
      else color
  end.

(** [_get_color_for_sender]: [draw k] is the position the generator picks
    at the [k]-th call of [random.choice] made here.  It returns the colour
    and the new value of [self.name_colors]. *)
Definition _get_color_for_sender
    (name_colors : gmap str colour) (sender_name : str) (draw : nat → nat)
  : colour * gmap str colour :=
  match name_colors !! sender_name with
  | Some color => (color, name_colors)
  | None =>
      let color := choice (draw 0) in
      let used_colors := (map_to_list name_colors).*2 in
      let color := redraw used_colors draw 5 1 color in
      (color, <[sender_name := color]> name_colors)
  end.

(** The senders of a sequence of messages get their colours one after the
    other, each call with its own draws. *)
Fixpoint colour_senders
    (calls : list (str * (nat → nat))) (name_colors : gmap str colour)
  : gmap str colour :=
  match calls with
  | [] => name_colors
  | (sender_name, draw) :: calls' =>
      colour_senders calls'
        (_get_color_for_sender name_colors sender_name draw).2
  end.

End Display.

(** ** Statements about method bodies *)

Module Triple.
Import Py.

(** [triple P m Q]: started in a state of [P], the body [m] ends, by
    returning or by raising, with an outcome and a state in [Q]. *)
Definition triple {St A} (P : St → Prop) (m : M St A)
    (Q : result A → St → Prop) : Prop :=
  ∀ st, P st → Q (m st).1 (m st).2.

End Triple.

(** ** More words for what the server does *)

Module ServerWords.
Import Text Py Server.

(** [line] has been logged. *)
Definition logged (line : str) (st : ChatServer) : ChatServer :=
  set_gui_log (gui_log st ++ [line]) st.

(** The name of [s] has been taken out of [client_names]. *)
Definition forgotten (s : sock) (st : ChatServer) : ChatServer :=
  set_client_names (delete s (client_names st)) st.

(** [username] has been stored for [s]. *)
Definition named (s : sock) (username : str) (st : ChatServer) : ChatServer :=
  set_client_names (<[s := username]> (client_names st)) st.

(** After [_accept_new_client], [accept] having answered. *)
Definition with_new_client (client_socket : sock) (client_address : str)
    (st : ChatServer) : ChatServer :=
  logged (lit "New connection from " ++ client_address)
    (set_message_queues (<[client_socket := []]> (message_queues st))
       (set_output_sockets (output_sockets st ++ [client_socket])
          (set_input_sockets (input_sockets st ++ [client_socket])
             (set_peernames (<[client_socket := client_address]> (peernames st)) st)))).

(** The connection tables agree with one another: no socket is listed
    twice; the sockets read from are the listening socket and the sockets
    written to; the sockets written to are the ones with an outbound queue;
    only sockets with a queue have a name; no listed socket is closed; and
    the listening socket is not marked for cleanup. *)
Definition consistent (st : ChatServer) : Prop :=
  NoDup (input_sockets st)
  ∧ NoDup (output_sockets st)
  ∧ server_socket st ∈ input_sockets st
  ∧ (server_socket st ∉ output_sockets st)
  ∧ (server_socket st ∉ exceptional_sockets st)
  ∧ Forall (λ s, s = server_socket st ∨ s ∈ output_sockets st) (input_sockets st)
  ∧ Forall (λ s, s ∈ input_sockets st ∧ is_Some (message_queues st !! s))
           (output_sockets st)
  ∧ map_Forall (λ s _, s ∈ output_sockets st) (message_queues st)
  ∧ map_Forall (λ s _, is_Some (message_queues st !! s)) (client_names st)
  ∧ Forall (λ s, s ∉ closed_sockets st) (input_sockets st).

(** What [select.select] and [accept] can answer in state [st]: the
    readable sockets are among [input_sockets], each once, the exceptional
    ones among [exceptional_sockets], and an accepted socket is a new
    object. *)
Definition select_contract (st : ChatServer)
    (selected : result (list sock * list sock * list sock))
    (accepted : result (sock * str)) : Prop :=
  match selected with
  | Return (readable_sockets, _, exceptional_sockets') =>
      NoDup readable_sockets
      ∧ readable_sockets ⊆ input_sockets st
      ∧ exceptional_sockets' ⊆ exceptional_sockets st
  | Raise _ => True
  end
  ∧ match accepted with
    | Return (client_socket, _) =>
        (client_socket ∉ input_sockets st) ∧ (client_socket ∉ closed_sockets st)
    | Raise _ => True
    end.

(** The tables during a turn: [listening] is the listening socket, the
    tables are consistent, each socket of [waiting] is still read from or
    has been closed, and each socket of [unborn] is not yet known. *)
Definition tables_ok (listening : sock) (waiting unborn : list sock)
    (st : ChatServer) : Prop :=
  server_socket st = listening
  ∧ consistent st
  ∧ Forall (λ s, s ∈ input_sockets st ∨ s ∈ closed_sockets st) waiting
  ∧ Forall (λ s, (s ∉ input_sockets st) ∧ (s ∉ closed_sockets st)) unborn.

(** The socket [accept] is about to give, if it gives one. *)
Definition newcomer (accepted : result (sock * str)) : list sock :=
  match accepted with
  | Return (client_socket, _) => [client_socket]
  | Raise _ => []
  end.

(** The message at the head of the queue of [c], if any. *)
Definition next_message (st : ChatServer) (c : sock) : option bytes :=
  message_queues st !! c ≫= head.

(** The [send] of the head of the queue of [c] raises. *)
Definition send_fails (sent : sock → bytes → option exn) (st : ChatServer)
    (c : sock) : bool :=
  match next_message st c with
  | Some m => bool_decide (c ∈ closed_sockets st) || bool_decide (is_Some (sent c m))
  | None => false
  end.

(** After one writable socket has been served. *)
Definition flushed (sent : sock → bytes → option exn) (st : ChatServer)
    (c : sock) : ChatServer :=
  match message_queues st !! c with
  | Some (m :: rest) =>
      let st1 := set_wire (wire st ++ [(c, m)])
                   (set_message_queues (<[c := rest]> (message_queues st)) st) in
      if send_fails sent st c
      then set_exceptional_sockets (exceptional_sockets st ++ [c]) st1
      else st1
  | _ => st
  end.

(** [select.select] on the three lists of the server, the system having
    [ready] to report: a closed socket has file descriptor -1, and [select]
    refuses the call. *)
Definition select (ready : result (list sock * list sock * list sock))
  : M ChatServer (list sock * list sock * list sock) :=
  st ← get;
  if decide (Exists (λ s, s ∈ closed_sockets st)
               (input_sockets st ++ output_sockets st ++ exceptional_sockets st))
  then raise (ValueError (lit "file descriptor cannot be a negative integer (-1)"))
  else answer ready.

(** What the system answers during one turn of the loop of [_run_server]. *)
Record server_turn := {
  ready : result (list sock * list sock * list sock);
  accept_answer : result (sock * str);
  recv_answer : sock → result bytes;
  send_answer : sock → bytes → option exn
}.

(** The [while] loop of [_run_server], run for the turns given ([stop_event]
    is set by another thread, at a moment the loop does not choose);
    [select] is called on the lists as they are at the start of each turn. *)
Fixpoint _run_server_turns (turns : list server_turn) : M ChatServer unit :=
  match turns with
  | [] => mret tt
  | t :: turns' =>
      st ← get;
      _run_server_turn (select (ready t) st).1
        (accept_answer t) (recv_answer t) (send_answer t) ;;
      _run_server_turns turns'
  end.

(** A closed socket is still in one of the lists given to [select]. *)
Definition stalled (st : ChatServer) : Prop :=
  Exists (λ s, s ∈ closed_sockets st)
    (input_sockets st ++ output_sockets st ++ exceptional_sockets st).

End ServerWords.

(** ** Histories of the server loop *)

Module Histories.
Import Text Py Server ServerWords Scenario.

(** What a call on a non-blocking socket raises when it cannot go on at
    once ([BlockingIOError], an [OSError]). *)
Definition EAGAIN : exn :=
  OSError (lit "[Errno 11] Resource temporarily unavailable").

Definition ECONNRESET : exn :=
  OSError (lit "[Errno 104] Connection reset by peer").

(** Alice (socket 1) sends a chat message. *)
Definition alice_chats : server_turn :=
  {| ready := Return ([1], [], []);
     accept_answer := Raise EAGAIN;
     recv_answer := λ _, Return (ascii_bytes "MSG:hi");
     send_answer := λ _ _, None |}.

(** Both clients are writable, and the [send] to alice raises. *)
Definition send_to_alice_fails : server_turn :=
  {| ready := Return ([], [1; 2], []);
     accept_answer := Raise EAGAIN;
     recv_answer := λ _, Raise EAGAIN;
     send_answer := λ s _, if decide (s = 1) then Some EAGAIN else None |}.

(** Alice has closed the connection: socket 1 is readable and [recv] gives
    no bytes; [select] reports [exceptional_sockets'] as exceptional. *)
Definition alice_closes (exceptional_sockets' : list sock) : server_turn :=
  {| ready := Return ([1], [], exceptional_sockets');
     accept_answer := Raise EAGAIN;
     recv_answer := λ _, Return [];
     send_answer := λ _ _, None |}.

(** The connection of alice has been reset by her side: the system has no
    peer address for socket 1 any more. *)
Definition alice_reset : ChatServer :=
  set_peernames (delete 1 (peernames alice_and_bob)) alice_and_bob.

End Histories.

(* ===================================================================== *)
(** * Part II.  Lemmas and theorems                                       *)
(* ===================================================================== *)

Arguments Text.lit : simpl never.

(** ** Running method bodies *)

Section Running.
Import Py.
Context {St : Type}.

Lemma run_bind {A B} (m : M St A) (k : A → M St B) (st : St) :
  (m ≫= k) st
  = match m st with
    | (Return a, st') => k a st'
    | (Raise e, st') => (Raise e, st')
    end.
Proof. done. Qed.

Lemma run_try {A} (m : M St A) (h : exn → M St A) (st : St) :
  try_except m h st
  = match m st with
    | (Return a, st') => (Return a, st')
    | (Raise e, st') => h e st'
    end.
Proof. done. Qed.

End Running.

(** Unfold the monad all the way; for straight-line bodies. *)
Ltac py_run :=
  repeat (progress (unfold mbind, mret, Py.M_bind, Py.M_ret, Py.get, Py.modify,
                    Py.raise, Py.answer, Py.try_except, Py.encode_utf8; cbn)).

(** Turn boolean tests in the hypotheses into arithmetic. *)
Ltac bools :=
  repeat match goal with
  | H : _ && _ = true |- _ => apply andb_true_iff in H as [? ?]
  | H : _ || _ = false |- _ => apply orb_false_iff in H as [? ?]
  | H : negb _ = true |- _ => apply negb_true_iff in H
  | H : negb _ = false |- _ => apply negb_false_iff in H
  | H : (_ <? _)%N = true |- _ => apply N.ltb_lt in H
  | H : (_ <? _)%N = false |- _ => apply N.ltb_ge in H
  | H : (_ <=? _)%N = true |- _ => apply N.leb_le in H
  | H : (_ <=? _)%N = false |- _ => apply N.leb_gt in H
  | H : (_ =? _)%N = true |- _ => apply N.eqb_eq in H
  | H : (_ =? _)%N = false |- _ => apply N.eqb_neq in H
  end.

(** ** Facts about the string methods *)

Module TextFacts.
Import Text.

Lemma startswith_app p r : startswith p (p ++ r) = true.
Proof. induction p as [|a p IH]; [done|]. cbn. by rewrite N.eqb_refl. Qed.

Lemma startswith_inv p s : startswith p s = true → s = p ++ drop (length p) s.
Proof.
  revert s. induction p as [|a p IH]; intros s; [done|].
  destruct s as [|b s]; [done|]. cbn.
  intros [Hab Hp]%andb_true_iff. apply N.eqb_eq in Hab as ->.
  f_equal. by apply IH.
Qed.

Lemma split1_at_start sep s :
  startswith sep s = true → split1 sep s = Some ([], drop (length sep) s).
Proof. intros H. destruct s; cbn [split1]; by rewrite H. Qed.

Lemma split1_absent c s : c ∉ s → split1 [c] s = None.
Proof.
  induction s as [|b s IH]; [done|]. intros Hc.
  apply not_elem_of_cons in Hc as [Hne Hc].
  cbn. destruct (N.eqb_spec c b) as [->|_]; [done|].
  cbn. by rewrite IH.
Qed.

Lemma lstrip_blank w s : blank w → lstrip (w ++ s) = lstrip s.
Proof.
  unfold blank. induction w as [|c w IH]; [done|]. cbn.
  intros [Hc Hw]%andb_true_iff. rewrite Hc. by apply IH.
Qed.

Lemma lstrip_split s : ∃ w, blank w ∧ s = w ++ lstrip s.
Proof.
  induction s as [|c s (w & Hw & IH)]; [by exists []|]. cbn.
  destruct (isspace c) eqn:Hc.
  - exists (c :: w). split; [unfold blank; cbn; by rewrite Hc|]. cbn. by f_equal.
  - by exists [].
Qed.

Lemma lstrip_head s : lstrip s = [] ∨ ∃ c s', lstrip s = c :: s' ∧ isspace c = false.
Proof.
  induction s as [|c s IH]; [by left|]. cbn.
  destruct (isspace c) eqn:Hc; [done|]. right. eauto.
Qed.

Lemma lstrip_before x c y :
  isspace c = false → lstrip (x ++ c :: y) = lstrip x ++ c :: y.
Proof.
  intros Hc. induction x as [|a x IH]; cbn; [by rewrite Hc|].
  by destruct (isspace a).
Qed.

Lemma blank_rev w : blank w → blank (rev w).
Proof.
  unfold blank. rewrite !forallb_forall. intros H c Hc. apply H.
  by apply in_rev.
Qed.

Lemma blank_app w1 w2 : blank w1 → blank w2 → blank (w1 ++ w2).
Proof. unfold blank. rewrite forallb_app. by intros -> ->. Qed.

Lemma lstrip_all_blank w : blank w → lstrip w = [].
Proof. intros Hw. rewrite <- (app_nil_r w). by rewrite lstrip_blank. Qed.

Lemma rstrip_blank s w : blank w → rstrip (s ++ w) = rstrip s.
Proof.
  intros Hw. unfold rstrip. rewrite rev_app_distr.
  by rewrite lstrip_blank by by apply blank_rev.
Qed.

Lemma rstrip_split s : ∃ w, blank w ∧ s = rstrip s ++ w.
Proof.
  unfold rstrip. destruct (lstrip_split (rev s)) as (w & Hw & Hs).
  exists (rev w). split; [by apply blank_rev|].
  rewrite <- rev_app_distr, <- Hs. by rewrite rev_involutive.
Qed.

Lemma rstrip_after x c y :
  isspace c = false → rstrip (x ++ c :: y) = x ++ c :: rstrip y.
Proof.
  intros Hc. unfold rstrip. rewrite rev_app_distr. cbn [rev].
  rewrite <- app_assoc. cbn [app].
  rewrite lstrip_before by done.
  rewrite rev_app_distr. cbn [rev]. rewrite rev_involutive.
  by rewrite <- app_assoc.
Qed.

(** Whitespace around a text does not change what [strip] gives. *)
Lemma strip_surrounded w1 t w2 :
  blank w1 → blank w2 → strip (w1 ++ t ++ w2) = strip t.
Proof.
  intros H1 H2. unfold strip. rewrite lstrip_blank by done.
  destruct (lstrip_split t) as (w & Hw & Ht).
  destruct (lstrip_head t) as [Hnil|(c & t' & Hc & Hns)].
  - rewrite Hnil in *. rewrite app_nil_r in Ht. subst t.
    by rewrite lstrip_all_blank by by apply blank_app.
  - rewrite Ht at 1. rewrite <- app_assoc, lstrip_blank by done.
    rewrite Hc. cbn [app lstrip]. rewrite Hns.
    by apply (rstrip_blank (c :: t')).
Qed.

(** A text that begins with a prefix free of blanks keeps the prefix when
    stripped; only the end of the rest is trimmed. *)
Lemma strip_after_prefix c p r :
  isspace c = false → isspace (List.last (c :: p) c) = false →
  strip ((c :: p) ++ r) = (c :: p) ++ rstrip r.
Proof.
  intros Hc Hl. unfold strip. cbn [app lstrip]. rewrite Hc.
  change (c :: p ++ r) with ((c :: p) ++ r).
  change (c :: p ++ rstrip r) with ((c :: p) ++ rstrip r).
  destruct (exists_last (l := c :: p)) as (x & z & Hxz); [done|].
  rewrite Hxz in *. rewrite last_last in Hl.
  rewrite <- !app_assoc. cbn [app]. by apply rstrip_after.
Qed.

(** Stripping a text that starts with a non-blank only trims its end. *)
Lemma strip_split_from c s :
  isspace c = false → ∃ w, blank w ∧ c :: s = strip (c :: s) ++ w.
Proof.
  intros Hc. unfold strip. cbn. rewrite Hc. apply rstrip_split.
Qed.

Lemma rstrip_elem c r : c ∈ rstrip r → c ∈ r.
Proof.
  destruct (rstrip_split r) as (w & _ & Hr). intros Hc.
  rewrite Hr. apply elem_of_app. by left.
Qed.

End TextFacts.

(** ** Facts about the UTF-8 codec *)

Module Utf8Facts.
Import Text.

Ltac Zify.zify_post_hook ::= Z.to_euclidean_division_equations.

(** Split on every test and every list shape the decoding loop looks at. *)
Ltac split_scan :=
  repeat match goal with
  | |- context [match ?l with [] => _ | _ :: _ => _ end] => destruct l
  | |- context [if ?b then _ else _] => destruct b eqn:?
  end.

Lemma encodable_char_spec c :
  encodable_char c = true ↔ (c < 0xD800 ∨ 0xE000 ≤ c < 0x110000)%N.
Proof.
  unfold encodable_char.
  rewrite orb_true_iff, andb_true_iff, N.ltb_lt, N.leb_le, N.ltb_lt. done.
Qed.

Lemma is_continuation_spec b :
  is_continuation b = true ↔ (0x80 ≤ b < 0xC0)%N.
Proof. unfold is_continuation. rewrite andb_true_iff, N.leb_le, N.ltb_lt. done. Qed.

(** An invalid start byte is skipped. *)
Lemma utf8_scan_invalid_start b rest :
  (0x80 ≤ b < 0xC2 ∨ 0xF5 ≤ b)%N → utf8_scan (b :: rest) = utf8_scan rest.
Proof.
  intros Hb. cbn [utf8_scan].
  destruct (N.ltb_spec b 0x80); [lia|].
  destruct (N.ltb_spec b 0xC2); [done|].
  destruct (N.ltb_spec b 0xE0); [lia|].
  destruct (N.ltb_spec b 0xF0); [lia|].
  destruct (N.ltb_spec b 0xF5); [lia|]. done.
Qed.

(** A well-formed sequence is decoded to its code point. *)
Lemma utf8_scan_char c rest :
  encodable_char c = true → utf8_scan (utf8_char c ++ rest) = c :: utf8_scan rest.
Proof.
  intros Hc%encodable_char_spec. unfold utf8_char.
  destruct (N.ltb_spec c 0x80) as [H1|H1].
  { cbn [app utf8_scan]. destruct (N.ltb_spec c 0x80); [done|lia]. }
  destruct (N.ltb_spec c 0x800) as [H2|H2].
  { cbn [app utf8_scan].
    destruct (N.ltb_spec (0xC0 + c / 64) 0x80); [lia|].
    destruct (N.ltb_spec (0xC0 + c / 64) 0xC2); [lia|].
    destruct (N.ltb_spec (0xC0 + c / 64) 0xE0); [|lia].
    rewrite (proj2 (is_continuation_spec _)) by lia.
    f_equal. lia. }
  destruct (N.ltb_spec c 0x10000) as [H3|H3].
  { cbn [app utf8_scan].
    destruct (N.ltb_spec (0xE0 + c / 4096) 0x80); [lia|].
    destruct (N.ltb_spec (0xE0 + c / 4096) 0xC2); [lia|].
    destruct (N.ltb_spec (0xE0 + c / 4096) 0xE0); [lia|].
    destruct (N.ltb_spec (0xE0 + c / 4096) 0xF0); [|lia].
    rewrite (proj2 (is_continuation_spec (0x80 + (c / 64) mod 64))) by lia.
    rewrite (proj2 (is_continuation_spec (0x80 + c mod 64))) by lia.
    cbn [negb orb].
    destruct (N.ltb_spec (0x80 + (c / 64) mod 64) 0xA0);
      [destruct (N.eqb_spec (0xE0 + c / 4096) 0xE0); [lia|]
      |destruct (N.eqb_spec (0xE0 + c / 4096) 0xED); [lia|]];
      f_equal; lia. }
  cbn [app utf8_scan].
  destruct (N.ltb_spec (0xF0 + c / 262144) 0x80); [lia|].
  destruct (N.ltb_spec (0xF0 + c / 262144) 0xC2); [lia|].
  destruct (N.ltb_spec (0xF0 + c / 262144) 0xE0); [lia|].
  destruct (N.ltb_spec (0xF0 + c / 262144) 0xF0); [lia|].
  destruct (N.ltb_spec (0xF0 + c / 262144) 0xF5); [|lia].
  rewrite (proj2 (is_continuation_spec (0x80 + (c / 4096) mod 64))) by lia.
  rewrite (proj2 (is_continuation_spec (0x80 + (c / 64) mod 64))) by lia.
  rewrite (proj2 (is_continuation_spec (0x80 + c mod 64))) by lia.
  cbn [negb orb].
  destruct (N.ltb_spec (0x80 + (c / 4096) mod 64) 0x90);
    [destruct (N.eqb_spec (0xF0 + c / 262144) 0xF0); [lia|]
    |destruct (N.eqb_spec (0xF0 + c / 262144) 0xF4); [lia|]];
    f_equal; lia.
Qed.

Lemma utf8_scan_chars t rest :
  forallb encodable_char t = true →
  utf8_scan (concat (map utf8_char t) ++ rest) = t ++ utf8_scan rest.
Proof.
  induction t as [|c t IH]; [done|]. cbn [forallb map concat].
  intros [Hc Ht]%andb_true_iff.
  rewrite <- app_assoc, utf8_scan_char by done. cbn. f_equal. by apply IH.
Qed.

(** Whatever the bytes, decoding yields code points that can be encoded. *)
Lemma utf8_scan_encodable s : forallb encodable_char (utf8_scan s) = true.
Proof.
  remember (length s) as n eqn:Hn.
  assert (length s ≤ n) as Hlen by lia. clear Hn.
  revert s Hlen. induction n as [|n IH]; intros s Hlen.
  { destruct s; [done|cbn in Hlen; lia]. }
  destruct s as [|ch s1]; [done|]. cbn [utf8_scan].
  split_scan; cbn [forallb length] in *;
    rewrite ?andb_true_iff; repeat split;
    try (apply IH; cbn [length] in *; lia);
    try done;
    apply encodable_char_spec;
    unfold is_continuation in *; bools;
    repeat match goal with
    | H : (if ?b then _ else _) = false |- _ => destruct b eqn:?
    end; bools; lia.
Qed.

(** Decoding only drops bytes: the UTF-8 form of what it yields is what is
    left of the data, in order. *)
Lemma utf8_scan_sublist s : concat (map utf8_char (utf8_scan s)) `sublist_of` s.
Proof.
  remember (length s) as n eqn:Hn.
  assert (length s ≤ n) as Hlen by lia. clear Hn.
  revert s Hlen. induction n as [|n IH]; intros s Hlen.
  { destruct s; [done|cbn in Hlen; lia]. }
  destruct s as [|ch s1]; [done|]. cbn [utf8_scan].
  split_scan; cbn [length map concat] in *;
    try apply sublist_nil_l;
    try (apply sublist_cons; apply IH; cbn [length]; lia);
    try (do 2 apply sublist_cons; apply IH; cbn [length]; lia);
    try (do 3 apply sublist_cons; apply IH; cbn [length]; lia).
  all: unfold is_continuation in *; bools;
    repeat match goal with
    | H : (if ?b then _ else _) = false |- _ => destruct b eqn:?
    end; bools.
  all: unfold utf8_char;
    repeat match goal with
    | |- context [if (?a <? ?b)%N then _ else _] =>
        destruct (N.ltb_spec a b); try lia
    end.
  all: cbn [app];
    repeat match goal with
    | |- (?x :: _) `sublist_of` (?y :: _) =>
        replace x with y by lia; apply sublist_skip
    end;
    apply IH; cbn [length]; lia.
Qed.

Lemma byte_of_to_N b : byte_of_N (Byte.to_N b) = b.
Proof. unfold byte_of_N. by rewrite Byte.of_to_N. Qed.

Lemma byte_to_of_N n : (n < 256)%N → Byte.to_N (byte_of_N n) = n.
Proof.
  intros Hn. unfold byte_of_N. destruct (Byte.of_N n) as [b|] eqn:Hb.
  - by apply Byte.to_of_N.
  - apply Byte.of_N_None_iff in Hb. lia.
Qed.

Lemma utf8_char_bytes c :
  encodable_char c = true → Forall (λ b, (b < 256)%N) (utf8_char c).
Proof.
  intros Hc%encodable_char_spec. unfold utf8_char.
  repeat match goal with
  | |- context [if (?a <? ?b)%N then _ else _] => destruct (N.ltb_spec a b)
  end; repeat constructor; lia.
Qed.

Lemma utf8_chars_bytes t :
  forallb encodable_char t = true →
  Forall (λ b, (b < 256)%N) (concat (map utf8_char t)).
Proof.
  induction t as [|c t IH]; [constructor|]. cbn [forallb map concat].
  intros [Hc Ht]%andb_true_iff. apply Forall_app.
  split; [by apply utf8_char_bytes|by apply IH].
Qed.

Lemma to_N_byte_of_N l :
  Forall (λ b, (b < 256)%N) l → map Byte.to_N (map byte_of_N l) = l.
Proof.
  induction 1 as [|n l Hn Hl IH]; [done|]. cbn. by rewrite byte_to_of_N, IH.
Qed.

Lemma encode_Some t b :
  encode t = Some b ↔
  forallb encodable_char t = true ∧ b = map byte_of_N (concat (map utf8_char t)).
Proof.
  unfold encode. destruct (forallb encodable_char t).
  - split; [by intros [= <-]|by intros [_ ->]].
  - split; [done|by intros [? _]].
Qed.

Lemma encode_app t1 t2 b1 b2 :
  encode t1 = Some b1 → encode t2 = Some b2 → encode (t1 ++ t2) = Some (b1 ++ b2).
Proof.
  intros [H1 ->]%encode_Some [H2 ->]%encode_Some. apply encode_Some.
  rewrite forallb_app, H1, H2. split; [done|].
  by rewrite map_app, concat_app, map_app.
Qed.

Lemma encode_nonempty c t b : encode (c :: t) = Some b → b ≠ [].
Proof.
  intros [_ ->]%encode_Some. cbn. unfold utf8_char.
  repeat match goal with
  | |- context [if ?x then _ else _] => destruct x
  end; done.
Qed.

(** Decoding undoes encoding, also in front of further data. *)
Lemma decode_encode t b data :
  encode t = Some b → decode_ignore (b ++ data) = t ++ decode_ignore data.
Proof.
  intros [Ht ->]%encode_Some. unfold decode_ignore.
  rewrite map_app, to_N_byte_of_N by by apply utf8_chars_bytes.
  by apply utf8_scan_chars.
Qed.

Lemma decode_encode_all t b : encode t = Some b → decode_ignore b = t.
Proof.
  intros Hb. rewrite <- (app_nil_r b), (decode_encode t) by done.
  apply app_nil_r.
Qed.

Lemma decode_invalid_start b data :
  (0x80 ≤ Byte.to_N b < 0xC2 ∨ 0xF5 ≤ Byte.to_N b)%N →
  decode_ignore (b :: data) = decode_ignore data.
Proof. intros Hb. unfold decode_ignore. cbn [map]. by apply utf8_scan_invalid_start. Qed.

Lemma decode_encodable data : forallb encodable_char (decode_ignore data) = true.
Proof. apply utf8_scan_encodable. Qed.

Lemma decode_sublist data :
  ∃ b, encode (decode_ignore data) = Some b ∧ b `sublist_of` data.
Proof.
  eexists. split.
  - apply encode_Some. split; [apply decode_encodable|done].
  - unfold decode_ignore.
    rewrite <- (map_id data) at 2. rewrite <- (map_ext _ _ byte_of_to_N).
    rewrite <- (map_map Byte.to_N byte_of_N).
    apply (fmap_sublist byte_of_N), utf8_scan_sublist.
Qed.

End Utf8Facts.

(** ** Facts about the server *)

Module ServerFacts.
Import Text Py Server TextFacts Utf8Facts.

(** Compute a state built from setters over a record that is written out. *)
Ltac server_state :=
  cbv [cleaned enqueue_all
       set_input_sockets set_output_sockets set_exceptional_sockets
       set_message_queues set_client_names set_gui_log set_closed_sockets
       set_peernames set_wire
       server_socket input_sockets output_sockets exceptional_sockets
       message_queues client_names gui_log closed_sockets peernames wire].

Lemma set_message_queues_same st : set_message_queues (message_queues st) st = st.
Proof. by destruct st. Qed.

Lemma set_client_names_same st : set_client_names (client_names st) st = st.
Proof. by destruct st. Qed.

(** *** The sockets *)

Lemma getpeername_open st s addr :
  s ∉ closed_sockets st → peernames st !! s = Some addr →
  getpeername s st = (Return addr, st).
Proof.
  intros Hc Hp. unfold getpeername. py_run. rewrite decide_False by done.
  by rewrite Hp.
Qed.

Lemma getpeername_closed st s :
  s ∈ closed_sockets st → getpeername s st = (Raise EBADF, st).
Proof. intros Hc. unfold getpeername. py_run. by rewrite decide_True. Qed.

Lemma getpeername_unavailable s st :
  peer_unavailable s st → ∃ e, getpeername s st = (Raise e, st).
Proof.
  intros [Hc|Hp]; unfold getpeername; py_run.
  - rewrite decide_True by done. eauto.
  - case_decide; [eauto|]. rewrite Hp. eauto.
Qed.

(** *** Broadcasting *)

Section alter_all.
Context {A : Type} (f : A → A).

Lemma foldl_alter_lookup (l : list sock) (m : gmap sock A) (k : sock) :
  NoDup l →
  foldl (λ m k, alter f k m) m l !! k
  = if decide (k ∈ l) then f <$> m !! k else m !! k.
Proof.
  intros Hnd. revert m. induction Hnd as [|x l Hx Hnd IH]; intros m; cbn.
  - done.
  - rewrite IH. destruct (decide (k = x)) as [->|Hne].
    + rewrite decide_False by done. rewrite decide_True by left.
      by rewrite lookup_alter_eq.
    + rewrite lookup_alter_ne by done.
      destruct (decide (k ∈ l)) as [Hk|Hk].
      * rewrite decide_True by (by right). done.
      * rewrite decide_False; [done|]. rewrite elem_of_cons. tauto.
Qed.

(** Visiting every key once applies [f] to every value. *)
Lemma foldl_alter_keys (m : gmap sock A) :
  foldl (λ m k, alter f k m) m (elements (dom m)) = f <$> m.
Proof.
  apply map_eq. intros k.
  rewrite foldl_alter_lookup by apply NoDup_elements.
  rewrite lookup_fmap. case_decide as Hk; [done|].
  rewrite elem_of_elements, elem_of_dom in Hk.
  destruct (m !! k); [|done]. exfalso. eauto.
Qed.

End alter_all.

Lemma for_each_enqueue (l : list sock) (b : bytes) st :
  for_each l (λ client_socket,
    try_except
      (modify (λ st, set_message_queues
                       (alter (λ q, q ++ [b]) client_socket (message_queues st)) st))
      (λ _, mret tt)) st
  = (Return tt,
     set_message_queues (foldl (λ m k, alter (λ q, q ++ [b]) k m) (message_queues st) l) st).
Proof.
  revert st. induction l as [|k l IH]; intros st.
  - cbn. by rewrite set_message_queues_same.
  - cbn. py_run. rewrite IH. done.
Qed.

Lemma broadcast_message_spec message b st :
  encode message = Some b →
  _broadcast_message message st = (Return tt, enqueue_all b st).
Proof.
  intros He. unfold _broadcast_message, encode_utf8. rewrite He.
  rewrite run_bind. cbn. rewrite run_bind. cbn.
  rewrite for_each_enqueue. unfold queue_keys.
  by rewrite foldl_alter_keys.
Qed.

Lemma broadcast_message_raises message st :
  encode message = None →
  _broadcast_message message st = (Raise UnicodeEncodeError, st).
Proof. intros He. unfold _broadcast_message. py_run. by rewrite He. Qed.

Lemma handle_chat_message_spec st s text addr b :
  startswith MSG_PREFIX text = true →
  s ∉ closed_sockets st →
  peernames st !! s = Some addr →
  encode (FROM_PREFIX ++ default addr (client_names st !! s) ++ lit ":"
          ++ strip (drop (length MSG_PREFIX) text)) = Some b →
  _handle_chat_message s text st
  = (Return tt,
     enqueue_all b
       (set_gui_log
          (gui_log st ++ [default addr (client_names st !! s) ++ lit ": "
                          ++ strip (drop (length MSG_PREFIX) text)]) st)).
Proof.
  intros Hm Hc Hp He. unfold _handle_chat_message.
  rewrite Hm, run_bind, (getpeername_open _ _ _ Hc Hp).
  cbn. rewrite run_bind. cbn. unfold log_message. rewrite run_bind. cbn.
  by rewrite (broadcast_message_spec _ b).
Qed.

(** *** Dispatch on the prefix *)

Lemma msg_is_not_name text :
  startswith MSG_PREFIX text = true → startswith NAME_PREFIX text = false.
Proof.
  destruct text as [|c text]; [done|]. cbn.
  intros H. apply andb_true_iff in H as [H _]. apply N.eqb_eq in H. by subst c.
Qed.

Lemma name_is_not_msg text :
  startswith NAME_PREFIX text = true → startswith MSG_PREFIX text = false.
Proof.
  destruct text as [|c text]; [done|]. cbn.
  intros H. apply andb_true_iff in H as [H _]. apply N.eqb_eq in H. by subst c.
Qed.

Lemma process_unnamed_chat st s text :
  client_names st !! s = None →
  startswith MSG_PREFIX text = true →
  _process_client_message s text st = (Return tt, st).
Proof.
  intros Hn Hm. unfold _process_client_message. py_run. rewrite Hn.
  unfold _handle_name_registration. by rewrite (msg_is_not_name _ Hm).
Qed.

Lemma process_named_name_announce st s old text :
  client_names st !! s = Some old →
  startswith NAME_PREFIX text = true →
  _process_client_message s text st = (Return tt, st).
Proof.
  intros Hn Hp. unfold _process_client_message. py_run. rewrite Hn.
  unfold _handle_chat_message. by rewrite (name_is_not_msg _ Hp).
Qed.

Lemma process_unnamed_name_announce st s text c u b :
  client_names st !! s = None →
  startswith NAME_PREFIX text = true →
  strip (drop (length NAME_PREFIX) text) = c :: u →
  encode (SYS_PREFIX ++ (c :: u) ++ lit " joined") = Some b →
  _process_client_message s text st
  = (Return tt,
     enqueue_all b
       (set_gui_log (gui_log st ++ [SYS_PREFIX ++ (c :: u) ++ lit " joined"])
          (set_client_names (<[s := c :: u]> (client_names st)) st))).
Proof.
  intros Hn Hp Hu He. unfold _process_client_message.
  rewrite run_bind. cbn. rewrite Hn.
  unfold _handle_name_registration. rewrite Hp, Hu.
  rewrite run_bind. cbn. rewrite run_bind. cbn.
  unfold log_message. rewrite run_bind. cbn.
  by rewrite (broadcast_message_spec _ b).
Qed.

(** A chunk that is handed on to [_process_client_message]. *)
Lemma handle_client_data_ignored st s data :
  s ∉ closed_sockets st → data ≠ [] →
  _process_client_message s (strip (decode_ignore data)) st = (Return tt, st) →
  _handle_client_data s (Return data) st = (Return tt, st).
Proof.
  intros Hc Hd Hp. unfold _handle_client_data, recv.
  rewrite run_try, run_bind, run_bind. cbn. rewrite decide_False by done.
  cbn. destruct data as [|b data]; [done|]. by rewrite Hp.
Qed.

(** A non-empty chunk is dispatched on its decoded and stripped text. *)
Lemma handle_client_data_dispatch st s data :
  s ∉ closed_sockets st → data ≠ [] →
  _handle_client_data s (Return data) st
  = try_except (_process_client_message s (strip (decode_ignore data)))
      (λ e,
         log_message (lit "Error handling client data: " ++ exn_str e) ;;
         _handle_client_disconnection s) st.
Proof.
  intros Hc Hd. unfold _handle_client_data, recv.
  rewrite !run_try, run_bind, run_bind. cbn. rewrite decide_False by done.
  cbn. by destruct data.
Qed.

(** The text the server sees for a chunk that begins with the bytes of a
    prefix. *)
Lemma text_after_prefix (p : string) c l rest :
  lit p = c :: l → isspace c = false → isspace (List.last (c :: l) c) = false →
  encode (lit p) = Some (ascii_bytes p) →
  strip (decode_ignore (ascii_bytes p ++ rest))
  = lit p ++ rstrip (decode_ignore rest).
Proof.
  intros Hp Hc Hl He. rewrite (decode_encode (lit p)) by done.
  rewrite Hp. by apply strip_after_prefix.
Qed.

Lemma msg_chunk_text rest :
  startswith MSG_PREFIX (strip (decode_ignore (ascii_bytes "MSG:" ++ rest))) = true.
Proof.
  rewrite (text_after_prefix "MSG:" 77%N [83; 71; 58]%N) by done.
  apply startswith_app.
Qed.

Lemma name_chunk_text rest :
  startswith NAME_PREFIX (strip (decode_ignore (ascii_bytes "NAME:" ++ rest))) = true.
Proof.
  rewrite (text_after_prefix "NAME:" 78%N [65; 77; 69; 58]%N) by done.
  apply startswith_app.
Qed.

(** *** Disconnection *)

Lemma list_remove_first_notin x l : x ∉ l → list_remove_first x l = l.
Proof.
  induction l as [|y l IH]; [done|]. cbn.
  intros [Hxy Hx]%not_elem_of_cons.
  rewrite decide_False by done. f_equal. by apply IH.
Qed.

Lemma list_remove_first_NoDup x l : NoDup l → x ∉ list_remove_first x l.
Proof.
  induction 1 as [|y l Hy Hnd IH]; cbn; [apply not_elem_of_nil|].
  case_decide as Hxy; [by subst|].
  apply not_elem_of_cons. by split.
Qed.

Lemma cleanup_client_socket_spec s st :
  _cleanup_client_socket s st = (Return tt, cleaned s st).
Proof.
  unfold _cleanup_client_socket, cleaned, close. py_run.
  destruct (decide (s ∈ input_sockets st)) as [Hi|Hi]; py_run;
    destruct (decide (s ∈ output_sockets st)) as [Ho|Ho]; py_run;
    rewrite ?(list_remove_first_notin _ _ Hi), ?(list_remove_first_notin _ _ Ho);
    done.
Qed.

Lemma cleaned_idempotent s st :
  NoDup (input_sockets st) → NoDup (output_sockets st) →
  cleaned s (cleaned s st) = cleaned s st.
Proof.
  destruct st as [ss ins outs exs mq names log closed peers w]. cbn.
  intros Hi Ho. server_state.
  rewrite !(list_remove_first_notin s (list_remove_first s _))
    by (by apply list_remove_first_NoDup).
  rewrite !delete_delete_eq.
  f_equal. by rewrite (assoc_L (∪)), (idemp_L (∪) {[s]}).
Qed.

Lemma disconnection_without_peer s st e :
  client_names st !! s = None →
  getpeername s st = (Raise e, st) →
  _handle_client_disconnection s st = (Raise e, st).
Proof.
  intros Hn Hp. unfold _handle_client_disconnection.
  rewrite run_bind. cbn. rewrite run_bind. cbn. rewrite run_bind.
  rewrite (delete_id _ _ Hn), set_client_names_same. by rewrite Hp.
Qed.

(** What any run of [_handle_client_disconnection] leaves: no name for the
    socket, and a socket [getpeername] cannot answer for. *)
Lemma disconnection_leaves s st r st1 :
  _handle_client_disconnection s st = (r, st1) →
  client_names st1 !! s = None
  ∧ peer_unavailable s st1
  ∧ (r = Return tt → s ∈ closed_sockets st1).
Proof.
  unfold _handle_client_disconnection.
  rewrite run_bind. cbn. rewrite run_bind. cbn. rewrite run_bind.
  unfold getpeername at 1. rewrite run_bind. cbn.
  case_decide as Hc.
  { cbn. intros [= <- <-]. cbn. rewrite lookup_delete_eq.
    split; [done|]. split; [by left|done]. }
  destruct (peernames st !! s) as [addr|] eqn:Hp; cbn.
  2:{ intros [= <- <-]. cbn. rewrite lookup_delete_eq.
      split; [done|]. split; [by right|done]. }
  rewrite run_bind. cbn. rewrite run_bind.
  rewrite cleanup_client_socket_spec.
  destruct (client_names st !! s) as [[|c u]|] eqn:Hn.
  1,3: cbn; intros [= <- <-]; cbn; rewrite lookup_delete_eq;
       split; [done|]; split; [left|intros _]; set_solver.
  rewrite run_bind. cbn.
  destruct (encode (SYS_PREFIX ++ c :: u ++ lit " left")) as [b|] eqn:He.
  - rewrite (broadcast_message_spec _ b) by done.
    intros [= <- <-]. cbn. rewrite lookup_delete_eq.
    split; [done|]; split; [left|intros _]; set_solver.
  - rewrite broadcast_message_raises by done.
    intros [= <- <-]. cbn. rewrite lookup_delete_eq.
    split; [done|]; split; [left|intros _]; set_solver.
Qed.

Lemma disconnection_second_run s st :
  let st1 := (_handle_client_disconnection s st).2 in
  ∃ e, _handle_client_disconnection s st1 = (Raise e, st1)
       ∧ ((_handle_client_disconnection s st).1 = Return tt → e = EBADF).
Proof.
  intros st1.
  destruct (_handle_client_disconnection s st) as [r st1'] eqn:H1.
  subst st1. cbn.
  destruct (disconnection_leaves _ _ _ _ H1) as (Hn & Hu & Hc).
  destruct r as [[]|e1].
  - exists EBADF. split; [|done].
    apply disconnection_without_peer; [done|].
    apply getpeername_closed. by apply Hc.
  - destruct (getpeername_unavailable _ _ Hu) as [e He].
    exists e. split; [|done]. by apply disconnection_without_peer.
Qed.

(** *** The outbound queues *)

Lemma sent_to_app s w1 w2 : sent_to s (w1 ++ w2) = sent_to s w1 ++ sent_to s w2.
Proof. unfold sent_to. by rewrite omap_app. Qed.

Lemma sent_to_here s b : sent_to s [(s, b)] = [b].
Proof. unfold sent_to. cbn. by rewrite decide_True. Qed.

Lemma sent_to_other s c b : c ≠ s → sent_to s [(c, b)] = [].
Proof. intros Hne. unfold sent_to. cbn. by rewrite decide_False. Qed.

(** One pass of the loop of [_handle_writable_sockets]: it returns, and if
    the queue of [c] was not empty its head has gone to [send]. *)
Lemma flush_one (c : sock) (sent : sock → bytes → option exn) st :
  ∃ st2,
    try_except
      (st ← get;
       match message_queues st !! c with
       | Some (message_bytes :: rest) =>
           modify (λ st, set_message_queues
                           (<[c := rest]> (message_queues st)) st) ;;
           send c message_bytes (sent c message_bytes)
       | _ => mret tt
       end)
      (λ _, modify (λ st, set_exceptional_sockets
                            (exceptional_sockets st ++ [c]) st)) st
    = (Return tt, st2)
    ∧ match message_queues st !! c with
      | Some (m :: rest) =>
          message_queues st2 = <[c := rest]> (message_queues st)
          ∧ wire st2 = wire st ++ [(c, m)]
      | _ => st2 = st
      end.
Proof.
  unfold send. py_run.
  destruct (message_queues st !! c) as [[|m rest]|] eqn:Hq; py_run; [eauto| |eauto].
  case_decide; py_run; [eauto|].
  destruct (sent c m); py_run; eauto.
Qed.

Lemma flush_spec ws sent st s q :
  message_queues st !! s = Some q →
  ∃ st' d q',
    _handle_writable_sockets ws sent st = (Return tt, st')
    ∧ message_queues st' !! s = Some q'
    ∧ q = d ++ q'
    ∧ sent_to s (wire st') = sent_to s (wire st) ++ d.
Proof.
  unfold _handle_writable_sockets.
  revert st q. induction ws as [|c ws IH]; intros st q Hq.
  - exists st, [], q. cbn. by rewrite app_nil_r.
  - cbn [for_each]. rewrite run_bind.
    destruct (flush_one c sent st) as (st2 & -> & Hst2).
    destruct (message_queues st !! c) as [[|m rest]|] eqn:Hc.
    1,3: subst st2; by apply IH.
    destruct Hst2 as [Hq2 Hw2].
    destruct (decide (c = s)) as [->|Hne].
    + assert (q = m :: rest) as -> by congruence.
      destruct (IH st2 rest) as (st' & d & q' & Hrun & Hq' & Hd & Hw).
      { by rewrite Hq2, lookup_insert_eq. }
      exists st', (m :: d), q'. split; [done|]. split; [done|].
      split; [by rewrite Hd|].
      rewrite Hw, Hw2, sent_to_app, sent_to_here. by rewrite <- app_assoc.
    + destruct (IH st2 q) as (st' & d & q' & Hrun & Hq' & Hd & Hw).
      { by rewrite Hq2, lookup_insert_ne. }
      exists st', d, q'. split; [done|]. split; [done|]. split; [done|].
      by rewrite Hw, Hw2, sent_to_app, sent_to_other, app_nil_r.
Qed.

Lemma queue_ops_fifo ops st s q :
  message_queues st !! s = Some q →
  Forall can_encode ops →
  ∃ st' written q',
    for_each ops run_queue_op st = (Return tt, st')
    ∧ message_queues st' !! s = Some q'
    ∧ sent_to s (wire st') = sent_to s (wire st) ++ written
    ∧ written ++ q' = q ++ enqueued ops.
Proof.
  intros Hq Hops. revert st q Hq.
  induction Hops as [|o ops Ho Hops IH]; intros st q Hq.
  - exists st, [], q. cbn. by rewrite !app_nil_r.
  - cbn [for_each]. rewrite run_bind. destruct o as [message|ws sent]; cbn [run_queue_op].
    + destruct Ho as [b Hb].
      rewrite (broadcast_message_spec _ b) by done.
      destruct (IH (enqueue_all b st) (q ++ [b])) as (st' & w & q' & Hrun & Hq' & Hw & Heq).
      { cbn. by rewrite lookup_fmap, Hq. }
      exists st', w, q'. split; [done|]. split; [done|]. split; [done|].
      rewrite Heq. cbn. rewrite Hb. cbn. by rewrite <- app_assoc.
    + destruct (flush_spec ws sent st s q Hq) as (st2 & d & q2 & -> & Hq2 & -> & Hw).
      destruct (IH st2 q2 Hq2) as (st' & w & q' & Hrun & Hq' & Hw' & Heq).
      exists st', (d ++ w), q'. split; [done|]. split; [done|].
      split; [by rewrite Hw', Hw, <- app_assoc|].
      by rewrite <- !app_assoc, Heq.
Qed.

Lemma prefix_keeps_order {A} (written rest all : list A) i j x y :
  written ++ rest = all →
  i < j → all !! i = Some x → all !! j = Some y →
  written !! j = Some y → written !! i = Some x.
Proof.
  intros <- Hij Hi Hj Hw.
  apply lookup_lt_Some in Hw.
  rewrite lookup_app_l in Hi by lia. done.
Qed.

(** *** Two runs, evaluated *)

Import Scenario.

(** Two clients connect; the first announces the name alice and sends a
    chat message; the queues are flushed.  Both sockets are sent the join
    notice and then the relayed message, the sender included. *)
Example join_then_chat_reaches_both :
  wire (after (_handle_client_data 1 (Return (ascii_bytes "NAME:alice")) ;;
               _handle_client_data 1 (Return (ascii_bytes "MSG:hi")) ;;
               _handle_writable_sockets [1; 2] (λ _ _, None) ;;
               _handle_writable_sockets [1; 2] (λ _ _, None)) two_connected)
  = [(1, ascii_bytes "SYS:alice joined"); (2, ascii_bytes "SYS:alice joined");
     (1, ascii_bytes "FROM:alice:hi"); (2, ascii_bytes "FROM:alice:hi")].
Proof. by vm_compute. Qed.

(** alice disconnects ([recv] gives no data): her record goes, bob is
    told, and a later broadcast reaches bob only. *)
Example leave_notice_reaches_the_remaining_client :
  let st := after (_handle_client_data 1 (Return []) ;;
                   _broadcast_message (lit "SYS:test")) alice_and_bob in
  message_queues st !! 1 = None
  ∧ client_names st !! 1 = None
  ∧ message_queues st !! 2 = Some [ascii_bytes "SYS:alice left"; ascii_bytes "SYS:test"].
Proof. by vm_compute. Qed.

(** *** The claims about the server *)

(** C1, as stated, fails: a connected client that has not announced a name
    is not left out of a relay.  Socket 2 has no name, its queue holds the
    join notice of alice, and the relay of alice's chat message is appended
    to it. *)
Lemma relay_reaches_unnamed_client :
  client_names alice_and_guest !! 2 = None
  ∧ message_queues alice_and_guest !! 2 = Some [ascii_bytes "SYS:alice joined"]
  ∧ ∃ st', _handle_chat_message 1 (lit "MSG:hi") alice_and_guest = (Return tt, st')
           ∧ message_queues st' !! 2
             = Some [ascii_bytes "SYS:alice joined"; ascii_bytes "FROM:alice:hi"].
Proof.
  split; [by vm_compute|]. split; [by vm_compute|].
  exists (after (_handle_chat_message 1 (lit "MSG:hi")) alice_and_guest).
  split; by vm_compute.
Qed.

(** C1, amended.  When a chat message [text] of a client [s] is relayed
    (the socket is open, its peer address is known, and the relay message
    [FROM:<name>:<content>] can be encoded to the bytes [b]), the call
    returns and [b] is appended to the outbound queue of every connection
    in [message_queues], with or without a display name, the sender's own
    included; no queue is added or removed and no name changes. *)
Theorem relay_is_enqueued_for_every_connection st s text addr b :
  startswith MSG_PREFIX text = true →
  s ∉ closed_sockets st →
  peernames st !! s = Some addr →
  encode (FROM_PREFIX ++ default addr (client_names st !! s) ++ lit ":"
          ++ strip (drop (length MSG_PREFIX) text)) = Some b →
  ∃ st',
    _handle_chat_message s text st = (Return tt, st')
    ∧ (∀ c q, message_queues st !! c = Some q →
              message_queues st' !! c = Some (q ++ [b]))
    ∧ (∀ c, message_queues st !! c = None → message_queues st' !! c = None)
    ∧ client_names st' = client_names st.
Proof.
  intros Hm Hc Hp He. eexists. split.
  { by apply (handle_chat_message_spec st s text addr b). }
  cbn. split; [|split; [|done]].
  - intros c q Hq. by rewrite lookup_fmap, Hq.
  - intros c Hq. by rewrite lookup_fmap, Hq.
Qed.

(** The theorem on a run: alice and bob are connected with queues flushed,
    alice chats, and both queues hold the relay. *)
Lemma relay_is_enqueued_for_every_connection_witness :
  ∃ st',
    _handle_chat_message 1 (lit "MSG:hi") alice_and_bob = (Return tt, st')
    ∧ message_queues st' !! 1 = Some [ascii_bytes "FROM:alice:hi"]
    ∧ message_queues st' !! 2 = Some [ascii_bytes "FROM:alice:hi"].
Proof.
  destruct (relay_is_enqueued_for_every_connection alice_and_bob 1 (lit "MSG:hi")
              (lit "('127.0.0.1', 50001)") (ascii_bytes "FROM:alice:hi"))
    as (st' & Hrun & Hq & _ & _).
  - vm_compute. reflexivity.
  - vm_compute. intros H. discriminate H.
  - vm_compute. reflexivity.
  - vm_compute. reflexivity.
  - exists st'. split; [exact Hrun|]. split.
    + apply (Hq 1 []). vm_compute. reflexivity.
    + apply (Hq 2 []). vm_compute. reflexivity.
Defined.

(** C2, as stated, fails: a second name announcement does not replace the
    name.  Socket 1 is alice; after it sends [NAME:bob] it is still alice. *)
Lemma second_name_announce_keeps_first_name :
  client_names alice_and_guest !! 1 = Some (lit "alice")
  ∧ ∃ st', _handle_client_data 1 (Return (ascii_bytes "NAME:bob")) alice_and_guest
           = (Return tt, st')
           ∧ client_names st' !! 1 = Some (lit "alice")
           ∧ client_names st' !! 1 ≠ Some (lit "bob").
Proof.
  split; [by vm_compute|].
  exists (after (_handle_client_data 1 (Return (ascii_bytes "NAME:bob"))) alice_and_guest).
  split; [by vm_compute|].
  split; [by vm_compute|]. vm_compute. discriminate.
Qed.

(** C2, amended.  A [NAME:] message from a connection that already has a
    display name is ignored: the call returns and the state, the name
    included, is unchanged (the first name stays).  A connection without a
    name that announces a non-empty name gets it whether or not another
    connection bears the same name: the name is stored under the socket,
    every other connection keeps its name, and the call returns once the
    join notice is enqueued. *)
Theorem name_is_set_once_and_may_repeat st s :
  (∀ old text,
     client_names st !! s = Some old →
     startswith NAME_PREFIX text = true →
     _process_client_message s text st = (Return tt, st))
  ∧ (∀ old rest,
       client_names st !! s = Some old →
       s ∉ closed_sockets st →
       _handle_client_data s (Return (ascii_bytes "NAME:" ++ rest)) st = (Return tt, st))
  ∧ (∀ text c u b,
       client_names st !! s = None →
       startswith NAME_PREFIX text = true →
       strip (drop (length NAME_PREFIX) text) = c :: u →
       encode (SYS_PREFIX ++ (c :: u) ++ lit " joined") = Some b →
       ∃ st',
         _process_client_message s text st = (Return tt, st')
         ∧ client_names st' !! s = Some (c :: u)
         ∧ (∀ s1, s1 ≠ s → client_names st' !! s1 = client_names st !! s1)).
Proof.
  split; [|split].
  - intros old text Hn Hp. by apply (process_named_name_announce st s old).
  - intros old rest Hn Hc. apply handle_client_data_ignored; [done|done|].
    apply (process_named_name_announce st s old); [done|]. apply name_chunk_text.
  - intros text c u b Hn Hp Hu He. eexists. split.
    { by apply (process_unnamed_name_announce st s text c u b). }
    cbn. split; [by rewrite lookup_insert_eq|].
    intros s1 Hne. by rewrite lookup_insert_ne.
Qed.

(** The theorem on a run: alice announces bob and nothing changes; the
    unnamed second connection announces alice and two connections bear the
    name. *)
Lemma name_is_set_once_and_may_repeat_witness :
  _handle_client_data 1 (Return (ascii_bytes "NAME:bob")) alice_and_guest
  = (Return tt, alice_and_guest)
  ∧ ∃ st',
      _process_client_message 2 (lit "NAME:alice") alice_and_guest = (Return tt, st')
      ∧ client_names st' !! 2 = Some (lit "alice")
      ∧ client_names st' !! 1 = Some (lit "alice").
Proof.
  destruct (name_is_set_once_and_may_repeat alice_and_guest 1) as (_ & Hnamed & _).
  destruct (name_is_set_once_and_may_repeat alice_and_guest 2) as (_ & _ & Hfresh).
  split.
  - apply (Hnamed (lit "alice") (ascii_bytes "bob")).
    + vm_compute. reflexivity.
    + vm_compute. intros H. discriminate H.
  - destruct (Hfresh (lit "NAME:alice") 97%N (lit "lice")
                (ascii_bytes "SYS:alice joined")) as (st' & Hrun & H2 & Hothers).
    + vm_compute. reflexivity.
    + vm_compute. reflexivity.
    + vm_compute. reflexivity.
    + vm_compute. reflexivity.
    + exists st'. split; [exact Hrun|]. split; [exact H2|].
      transitivity (client_names alice_and_guest !! 1).
      * apply Hothers. lia.
      * vm_compute. reflexivity.
Defined.

(** C4.  The code does not do what the claim describes: the second run
    of the disconnection cleanup is not a silent no-op.  Socket 1 (alice)
    is disconnected once, which returns; the second run changes nothing
    but does not return: it raises [OSError] from the [getpeername()] in
    the log statement of [_handle_client_disconnection], called on the
    socket the first run closed.  Every other step of the method is
    written for a repeated run ([pop] with a default, removal only of what
    is listed).
    The server loop runs into this: alice chats, the [send] of the relay to
    her raises, which puts socket 1 in [exceptional_sockets]; then she
    closes the connection and [select] reports socket 1 readable, with
    nothing to read, and exceptional.  Each answer of [select] is one it
    can give in the state it is asked in.  The cleanup runs twice in that
    turn, the second run raises out of the turn, and the log ends with the
    line "Server error: [Errno 9] Bad file descriptor", one line more than
    in the turn in which the cleanup runs once; the leave notice is logged
    and enqueued once in both, and the socket is not taken out of
    [exceptional_sockets]. *)
Lemma second_disconnection_raises :
  (∃ st1,
     _handle_client_disconnection 1 alice_and_bob = (Return tt, st1)
     ∧ _handle_client_disconnection 1 st1 = (Raise EBADF, st1)
     ∧ _handle_client_disconnection 1 st1 ≠ (Return tt, st1))
  ∧ (let st1 := after (ServerWords._run_server_turns [Histories.alice_chats])
                  alice_and_bob in
     let st2 := after (ServerWords._run_server_turns [Histories.send_to_alice_fails])
                  st1 in
     let twice := after (ServerWords._run_server_turns [Histories.alice_closes [1]])
                    st2 in
     let once := after (ServerWords._run_server_turns [Histories.alice_closes []])
                   st2 in
     ServerWords.select_contract alice_and_bob
       (ServerWords.ready Histories.alice_chats)
       (ServerWords.accept_answer Histories.alice_chats)
     ∧ ServerWords.select_contract st1
         (ServerWords.ready Histories.send_to_alice_fails)
         (ServerWords.accept_answer Histories.send_to_alice_fails)
     ∧ exceptional_sockets st2 = [1]
     ∧ ServerWords.select_contract st2
         (ServerWords.ready (Histories.alice_closes [1]))
         (ServerWords.accept_answer (Histories.alice_closes [1]))
     ∧ gui_log once
       = gui_log st2 ++ [lit "Client disconnected: ('127.0.0.1', 50001)";
                         lit "SYS:alice left"]
     ∧ gui_log twice
       = gui_log once ++ [lit "Server error: [Errno 9] Bad file descriptor"]
     ∧ message_queues twice = message_queues once
     ∧ exceptional_sockets twice = [1]).
Proof.
  split.
  { exists (after (_handle_client_disconnection 1) alice_and_bob).
    split; [by vm_compute|]. split; [by vm_compute|].
    vm_compute. discriminate. }
  cbv zeta. unfold ServerWords.select_contract.
  split; [apply (bool_decide_unpack _); vm_compute; exact I|].
  split; [apply (bool_decide_unpack _); vm_compute; exact I|].
  split; [vm_compute; reflexivity|].
  split; [apply (bool_decide_unpack _); vm_compute; exact I|].
  split; [vm_compute; reflexivity|].
  split; [vm_compute; reflexivity|].
  split; vm_compute; reflexivity.
Qed.

(** C4, the defect in general.  After a run of
    [_handle_client_disconnection] for a socket, however that run ended, a
    second run for the same socket changes no state: the socket lists, the
    queues and the names are as the first run left them, so the leave
    notice is enqueued at most once.  But the second run always raises: it
    gets as far as the log statement of the method, where [getpeername()]
    raises, with [OSError] (bad file descriptor) when the first run had
    completed.  The registry removal of [_cleanup_client_socket] by itself
    is idempotent on socket lists without duplicates: run again on its own
    result, it returns and leaves that result unchanged. *)
Theorem second_disconnection_changes_nothing st s :
  (let st1 := (_handle_client_disconnection s st).2 in
   ∃ e, _handle_client_disconnection s st1 = (Raise e, st1)
        ∧ ((_handle_client_disconnection s st).1 = Return tt → e = EBADF))
  ∧ (NoDup (input_sockets st) → NoDup (output_sockets st) →
     ∃ st1, _cleanup_client_socket s st = (Return tt, st1)
            ∧ _cleanup_client_socket s st1 = (Return tt, st1)).
Proof.
  split; [apply disconnection_second_run|].
  intros Hi Ho. exists (cleaned s st).
  rewrite !cleanup_client_socket_spec, cleaned_idempotent; done.
Qed.

(** The theorem on a run: alice is disconnected twice. *)
Lemma second_disconnection_changes_nothing_witness :
  (∃ st1, (_handle_client_disconnection 1 alice_and_bob).2 = st1
          ∧ _handle_client_disconnection 1 st1 = (Raise EBADF, st1))
  ∧ (∃ st1, _cleanup_client_socket 1 alice_and_bob = (Return tt, st1)
            ∧ _cleanup_client_socket 1 st1 = (Return tt, st1)).
Proof.
  destruct (second_disconnection_changes_nothing alice_and_bob 1) as [Hd Hc].
  split.
  - destruct Hd as (e & Hrun & He).
    eexists. split; [reflexivity|].
    rewrite <- (He eq_refl). exact Hrun.
  - apply Hc.
    + apply (bool_decide_unpack _). vm_compute. exact I.
    + apply (bool_decide_unpack _). vm_compute. exact I.
Defined.

(** C6.  A connection whose display name is unset cannot chat: a message
    that starts with [MSG:] is ignored by [_process_client_message], and a
    received chunk whose text starts with [MSG:] (in particular a chunk
    that begins with the bytes [MSG:]) is ignored by [_handle_client_data].
    The call returns and the whole state is as before: nothing is enqueued
    for anyone, no name is stored, nothing is logged. *)
Theorem chat_before_registration_is_ignored st s :
  client_names st !! s = None →
  (∀ text,
     startswith MSG_PREFIX text = true →
     _process_client_message s text st = (Return tt, st))
  ∧ (∀ data,
       s ∉ closed_sockets st → data ≠ [] →
       startswith MSG_PREFIX (strip (decode_ignore data)) = true →
       _handle_client_data s (Return data) st = (Return tt, st))
  ∧ (∀ rest,
       s ∉ closed_sockets st →
       _handle_client_data s (Return (ascii_bytes "MSG:" ++ rest)) st = (Return tt, st)).
Proof.
  intros Hn. split; [|split].
  - intros text Hm. by apply process_unnamed_chat.
  - intros data Hc Hd Hm. apply handle_client_data_ignored; [done|done|].
    by apply process_unnamed_chat.
  - intros rest Hc. apply handle_client_data_ignored; [done|done|].
    apply process_unnamed_chat; [done|]. apply msg_chunk_text.
Qed.

(** The theorem on a run: the unnamed second connection sends a chat
    message. *)
Lemma chat_before_registration_is_ignored_witness :
  client_names alice_and_guest !! 2 = None
  ∧ _handle_client_data 2 (Return (ascii_bytes "MSG:hi")) alice_and_guest
    = (Return tt, alice_and_guest).
Proof.
  assert (client_names alice_and_guest !! 2 = None) as Hn
    by (vm_compute; reflexivity).
  split; [exact Hn|].
  destruct (chat_before_registration_is_ignored alice_and_guest 2 Hn) as (_ & _ & H).
  apply (H (ascii_bytes "hi")).
  vm_compute. intros Hin. discriminate Hin.
Defined.

(** C8.  The outbound queue of a connection is first-in first-out across
    any interleaving of broadcasts and writable-socket passes.  Let [q] be
    the queue of [s] before, and let the operations run (every broadcast
    message being one that can be encoded).  They return; the byte strings
    handed to [send] on [s] during the run, followed by the queue of [s]
    afterwards, are [q] followed by the byte strings enqueued, in the order
    they were enqueued.  So of two queued byte strings the earlier one is
    handed to [send] first: if the later one has been written, the earlier
    one was written before it. *)
Theorem outbound_queue_is_fifo ops st s q :
  message_queues st !! s = Some q →
  Forall can_encode ops →
  ∃ st' written q',
    for_each ops run_queue_op st = (Return tt, st')
    ∧ message_queues st' !! s = Some q'
    ∧ sent_to s (wire st') = sent_to s (wire st) ++ written
    ∧ written ++ q' = q ++ enqueued ops
    ∧ (∀ i j E1 E2,
         i < j →
         (q ++ enqueued ops) !! i = Some E1 →
         (q ++ enqueued ops) !! j = Some E2 →
         written !! j = Some E2 →
         written !! i = Some E1).
Proof.
  intros Hq Hops.
  destruct (queue_ops_fifo ops st s q Hq Hops) as (st' & w & q' & Hrun & Hq' & Hw & Heq).
  exists st', w, q'. repeat (split; [done|]).
  intros i j E1 E2. by apply (prefix_keeps_order w q').
Qed.

(** The theorem on a run: three notices are enqueued, with passes over the
    writable sockets in between. *)
Lemma outbound_queue_is_fifo_witness :
  ∃ st' written q',
    for_each [Enqueue (lit "SYS:one"); Enqueue (lit "SYS:two");
              Flush [1; 2] (λ _ _, None); Enqueue (lit "SYS:three");
              Flush [1] (λ _ _, None)] run_queue_op alice_and_bob
    = (Return tt, st')
    ∧ message_queues st' !! 1 = Some q'
    ∧ written ++ q'
      = [ascii_bytes "SYS:one"; ascii_bytes "SYS:two"; ascii_bytes "SYS:three"].
Proof.
  destruct (outbound_queue_is_fifo
              [Enqueue (lit "SYS:one"); Enqueue (lit "SYS:two");
               Flush [1; 2] (λ _ _, None); Enqueue (lit "SYS:three");
               Flush [1] (λ _ _, None)] alice_and_bob 1 [])
    as (st' & written & q' & Hrun & Hq' & _ & Heq & _).
  - vm_compute. reflexivity.
  - repeat constructor; vm_compute; eexists; reflexivity.
  - exists st', written, q'. split; [exact Hrun|]. split; [exact Hq'|].
    rewrite Heq. vm_compute. reflexivity.
Defined.

(** C10.  Whatever bytes [recv] gives, handling them does not fail in the
    decoding: a non-empty chunk is dispatched on [strip] of its lenient
    decoding.  That decoding is defined on every byte string; what it
    yields is always a well-formed string (it can be encoded again), and
    its UTF-8 form is what is left of the chunk when the bytes that are not
    part of well-formed UTF-8 are dropped, in order: well-formed text comes
    through unchanged, and a byte that cannot start a sequence disappears
    without a trace.  Since the text is stripped before [startswith] is
    asked, a message surrounded by whitespace is handled exactly like the
    bare message. *)
Theorem received_bytes_are_decoded_leniently_and_stripped st s :
  s ∉ closed_sockets st →
  (∀ data, data ≠ [] →
     _handle_client_data s (Return data) st
     = try_except (_process_client_message s (strip (decode_ignore data)))
         (λ e,
            log_message (lit "Error handling client data: " ++ exn_str e) ;;
            _handle_client_disconnection s) st)
  ∧ (∀ data, ∃ b, encode (decode_ignore data) = Some b ∧ b `sublist_of` data)
  ∧ (∀ t b data,
       encode t = Some b → decode_ignore (b ++ data) = t ++ decode_ignore data)
  ∧ (∀ x data,
       (0x80 ≤ Byte.to_N x < 0xC2 ∨ 0xF5 ≤ Byte.to_N x)%N →
       decode_ignore (x :: data) = decode_ignore data)
  ∧ (∀ w1 t w2 b1 b2,
       blank w1 → blank w2 → t ≠ [] →
       encode (w1 ++ t ++ w2) = Some b1 → encode t = Some b2 →
       _handle_client_data s (Return b1) st = _handle_client_data s (Return b2) st).
Proof.
  intros Hc. split; [|split; [|split; [|split]]].
  - intros data Hd. by apply handle_client_data_dispatch.
  - apply decode_sublist.
  - apply decode_encode.
  - apply decode_invalid_start.
  - intros w1 t w2 b1 b2 Hw1 Hw2 Ht H1 H2.
    destruct t as [|c t]; [done|].
    assert (b2 ≠ []) as Hb2 by by apply (encode_nonempty c t).
    assert (b1 ≠ []) as Hb1.
    { destruct w1 as [|a w1]; by apply encode_nonempty in H1. }
    rewrite !handle_client_data_dispatch by done.
    rewrite (decode_encode_all _ _ H1), (decode_encode_all _ _ H2).
    by rewrite strip_surrounded.
Qed.

(** The theorem on a run: a stray byte inside a message disappears, and a
    message between blanks is handled like the bare message. *)
Lemma received_bytes_are_decoded_leniently_and_stripped_witness :
  decode_ignore (ascii_bytes "NA" ++ xff :: ascii_bytes "ME:bob") = lit "NAME:bob"
  ∧ _handle_client_data 2 (Return (ascii_bytes "  NAME:bob ")) alice_and_guest
    = _handle_client_data 2 (Return (ascii_bytes "NAME:bob")) alice_and_guest.
Proof.
  destruct (received_bytes_are_decoded_leniently_and_stripped alice_and_guest 2)
    as (_ & _ & Hkeep & Hdrop & Hstrip).
  - vm_compute. intros Hin. discriminate Hin.
  - split.
    + rewrite (Hkeep (lit "NA") (ascii_bytes "NA")) by (vm_compute; reflexivity).
      rewrite Hdrop by (right; vm_compute; discriminate).
      vm_compute. reflexivity.
    + apply (Hstrip (lit "  ") (lit "NAME:bob") (lit " ")).
      * vm_compute. reflexivity.
      * vm_compute. reflexivity.
      * vm_compute. discriminate.
      * vm_compute. reflexivity.
      * vm_compute. reflexivity.
Defined.

End ServerFacts.

(** ** Facts about the client *)

Module ClientFacts.
Import Text Py Client ClientWords TextFacts Utf8Facts.

(** Compute a state built from setters over a record that is written out. *)
Ltac client_state :=
  cbv [after_failure after_success after_drop
       set_client_socket set_inputs set_outputs set_stop_event set_input_text
       set_scheduled set_printed set_wire set_closed_sockets set_slept
       client_socket inputs outputs username stop_event input_text scheduled
       printed wire closed_sockets slept].

(** *** Sending *)

Lemma send_message_empty sent st :
  strip (input_text st) = [] → send_message sent st = (Return tt, st).
Proof. intros H. unfold send_message. py_run. by rewrite H. Qed.

Lemma send_message_not_connected sent st :
  strip (input_text st) ≠ [] →
  client_socket st = None →
  send_message sent st
  = (Return tt,
     set_scheduled (scheduled st ++ [_append_system_message (lit "Not connected to server")])
       (set_input_text [] st)).
Proof.
  intros Ht Hs. unfold send_message, CallAfter. py_run.
  destruct (strip (input_text st)); [done|]. py_run. by rewrite Hs.
Qed.

Lemma send_message_connected sent st s b :
  strip (input_text st) ≠ [] →
  client_socket st = Some s →
  s ∉ closed_sockets st →
  encode (MSG_PREFIX ++ strip (input_text st)) = Some b →
  send_message sent st
  = (Return tt,
     match sent with
     | None => set_wire (wire st ++ [(s, b)]) (set_input_text [] st)
     | Some e =>
         set_scheduled
           (scheduled st ++ [_append_system_message (lit "Failed to send message: " ++ exn_str e)])
           (set_wire (wire st ++ [(s, b)]) (set_input_text [] st))
     end).
Proof.
  intros Ht Hs Hc He. unfold send_message, CallAfter, send. py_run.
  destruct (strip (input_text st)) as [|c t] eqn:Hstrip; [done|]. py_run.
  rewrite Hs. py_run. rewrite He. py_run.
  rewrite decide_False by done. by destruct sent.
Qed.

(** *** Connecting *)

Lemma attempt_connection_fails current_delay a st :
  client_socket st = None →
  attempt_fails a = true →
  _attempt_connection current_delay a st
  = (Return (next_delay current_delay), after_failure current_delay a st).
Proof.
  destruct st as [cs i o u se it sc pr w cl sl]. cbn. intros -> Hf.
  unfold attempt_fails in Hf.
  unfold _attempt_connection, _cleanup_connection, _sleep_interruptible,
    CallAfter, close, retry_notice, next_delay.
  destruct a as [cr co hs]; cbn in *.
  destruct cr as [s|e]; [destruct co as [e|]; [|done]|]; py_run; done.
Qed.

Lemma send_username_handshake_returns sent st :
  ∃ w p, _send_username_handshake sent st
         = (Return tt, set_printed p (set_wire w st)).
Proof.
  destruct st as [cs i o u se it sc pr w cl sl].
  unfold _send_username_handshake, send, print. py_run.
  destruct (encode (NAME_PREFIX ++ u)) as [b|]; py_run;
    [|client_state; by eexists _, _].
  destruct cs as [s|]; py_run; [|client_state; by eexists _, _].
  case_decide; py_run; [client_state; by eexists _, _|].
  destruct sent; py_run; client_state; by eexists _, _.
Qed.

Lemma send_username_handshake_fails e st s b :
  client_socket st = Some s →
  s ∉ closed_sockets st →
  encode (NAME_PREFIX ++ username st) = Some b →
  _send_username_handshake (Some e) st
  = (Return tt,
     set_printed (printed st ++ [lit "Failed to send username: " ++ exn_str e])
       (set_wire (wire st ++ [(s, b)]) st)).
Proof.
  intros Hs Hc He. unfold _send_username_handshake, send, print. py_run.
  rewrite He. py_run. rewrite Hs. py_run. by rewrite decide_False.
Qed.

Lemma attempt_connection_succeeds current_delay a s st :
  created a = Return s →
  connected a = None →
  ∃ w p, _attempt_connection current_delay a st
         = (Return RECONNECT_BASE_DELAY, after_success s w p st).
Proof.
  intros Hcr Hco. unfold _attempt_connection.
  rewrite run_try, run_bind, Hcr. cbn. rewrite run_bind. cbn.
  rewrite run_bind, Hco. cbn. rewrite run_bind. cbn. rewrite run_bind. cbn.
  rewrite run_bind.
  destruct (send_username_handshake_returns (handshake_sent a)
              (set_outputs [] (set_inputs [s] (set_client_socket (Some s) st))))
    as (w & p & ->).
  exists w, p. done.
Qed.

Lemma attempt_connection_handshake_lost current_delay a s e b st :
  created a = Return s →
  connected a = None →
  handshake_sent a = Some e →
  s ∉ closed_sockets st →
  encode (NAME_PREFIX ++ username st) = Some b →
  _attempt_connection current_delay a st
  = (Return RECONNECT_BASE_DELAY,
     after_success s (wire st ++ [(s, b)])
       (printed st ++ [lit "Failed to send username: " ++ exn_str e]) st).
Proof.
  intros Hcr Hco Hhs Hc He. unfold _attempt_connection.
  rewrite run_try, run_bind, Hcr. cbn. rewrite run_bind. cbn.
  rewrite run_bind, Hco. cbn. rewrite run_bind. cbn. rewrite run_bind. cbn.
  rewrite run_bind, Hhs.
  rewrite (send_username_handshake_fails e _ s b) by done.
  done.
Qed.

(** *** The delays *)

Lemma delay_after_closed n d :
  (0 < d ≤ RECONNECT_MAX_DELAY)%Z →
  delay_after n d = Z.min RECONNECT_MAX_DELAY (d * 2 ^ Z.of_nat n).
Proof.
  unfold RECONNECT_MAX_DELAY.
  revert d. induction n as [|n IH]; intros d Hd.
  { cbn. lia. }
  cbn [delay_after].
  assert (0 < 2 ^ Z.of_nat n)%Z as Hp by (apply Z.pow_pos_nonneg; lia).
  rewrite Nat2Z.inj_succ, Z.pow_succ_r by lia.
  rewrite IH by (unfold next_delay, RECONNECT_MAX_DELAY; lia).
  unfold next_delay, RECONNECT_MAX_DELAY. nia.
Qed.

Lemma delay_after_base i : delay_after i RECONNECT_BASE_DELAY = backoff i.
Proof. by apply delay_after_closed. Qed.

Lemma backoff_bounds i : (1 ≤ backoff i ≤ RECONNECT_MAX_DELAY)%Z.
Proof.
  unfold backoff, RECONNECT_BASE_DELAY, RECONNECT_MAX_DELAY.
  assert (0 < 2 ^ Z.of_nat i)%Z by (apply Z.pow_pos_nonneg; lia).
  lia.
Qed.

Lemma backoff_capped i : 4 ≤ i → backoff i = RECONNECT_MAX_DELAY.
Proof.
  intros Hi. unfold backoff, RECONNECT_BASE_DELAY, RECONNECT_MAX_DELAY.
  assert (2 ^ 4 ≤ 2 ^ Z.of_nat i)%Z by (apply Z.pow_le_mono_r; lia).
  lia.
Qed.

(** *** The network loop *)

Lemma network_turns_app l1 l2 d st :
  network_turns (l1 ++ l2) d st
  = (network_turns l1 d ≫= network_turns l2) st.
Proof.
  revert d st. induction l1 as [|t l1 IH]; intros d st.
  - done.
  - cbn [app network_turns]. rewrite !run_bind. cbn.
    destruct (stop_event st) eqn:Hstop.
    + cbn. destruct l2; cbn; [done|]. rewrite run_bind. cbn. by rewrite Hstop.
    + rewrite !run_bind.
      match goal with |- context [try_except ?b ?h st] =>
        destruct (try_except b h st) as [[d'|e] st'] end; [|done].
      apply IH.
Qed.

Lemma network_turns_failure t turns d st :
  stop_event st = false → client_socket st = None → failing t →
  network_turns (t :: turns) d st
  = network_turns turns (next_delay d) (after_failure d (attempted t) st).
Proof.
  intros Hstop Hs Hf. cbn [network_turns]. rewrite run_bind. cbn.
  rewrite Hstop. rewrite run_bind, run_try, run_bind. cbn. rewrite Hs.
  by rewrite attempt_connection_fails.
Qed.

Lemma failing_run turns d st :
  Forall failing turns →
  stop_event st = false → client_socket st = None →
  ∃ st',
    network_turns turns d st = (Return (delay_after (length turns) d), st')
    ∧ client_socket st' = None ∧ stop_event st' = false
    ∧ slept st' = slept st
        ++ map (λ i, (delay_after i d, 1%Z)) (seq 0 (length turns))
    ∧ scheduled st' = scheduled st
        ++ map (λ i, retry_notice (delay_after i d)) (seq 0 (length turns)).
Proof.
  intros Hf. revert d st. induction Hf as [|t turns Ht Hf IH]; intros d st Hstop Hs.
  - exists st. cbn. by rewrite !app_nil_r.
  - rewrite network_turns_failure by done.
    destruct (IH (next_delay d) (after_failure d (attempted t) st)) as
      (st' & Hrun & Hs' & Hstop' & Hsl & Hsc); [done..|].
    exists st'. rewrite Hrun, Hsl, Hsc. cbn [length seq map after_failure].
    rewrite <- !seq_shift, !map_map. cbn.
    rewrite <- !app_assoc. cbn.
    repeat split; done.
Qed.

Lemma failing_run_base turns st :
  Forall failing turns →
  stop_event st = false → client_socket st = None →
  ∃ st',
    network_turns turns RECONNECT_BASE_DELAY st = (Return (backoff (length turns)), st')
    ∧ client_socket st' = None ∧ stop_event st' = false
    ∧ slept st' = slept st ++ map (λ i, (backoff i, 1%Z)) (seq 0 (length turns))
    ∧ scheduled st' = scheduled st
        ++ map (λ i, retry_notice (backoff i)) (seq 0 (length turns)).
Proof.
  intros Hf Hstop Hs.
  destruct (failing_run turns RECONNECT_BASE_DELAY st Hf Hstop Hs)
    as (st' & Hrun & Hs' & Hstop' & Hsl & Hsc).
  exists st'. rewrite Hrun, Hsl, Hsc, delay_after_base.
  repeat split; try done.
  - f_equal. apply map_ext. intros i. by rewrite delay_after_base.
  - f_equal. apply map_ext. intros i. by rewrite delay_after_base.
Qed.

Lemma network_turns_success t turns d st s :
  stop_event st = false → client_socket st = None →
  created (attempted t) = Return s → connected (attempted t) = None →
  ∃ w p,
    network_turns (t :: turns) d st
    = network_turns turns RECONNECT_BASE_DELAY (after_success s w p st).
Proof.
  intros Hstop Hs Hcr Hco. cbn [network_turns]. rewrite run_bind. cbn.
  rewrite Hstop. rewrite run_bind, run_try, run_bind. cbn. rewrite Hs.
  destruct (attempt_connection_succeeds d _ s st Hcr Hco) as (w & p & ->).
  by exists w, p.
Qed.

Lemma network_turns_drop t turns d st s s0 :
  stop_event st = false → client_socket st = Some s →
  selected (polled t) = Return [s0] → received (polled t) s0 = Return [] →
  network_turns (t :: turns) d st = network_turns turns d (after_drop st).
Proof.
  intros Hstop Hs Hsel Hrecv. cbn [network_turns]. rewrite run_bind. cbn.
  rewrite Hstop. rewrite run_bind, run_try, run_bind. cbn. rewrite Hs.
  unfold _receive_messages, _handle_disconnection, _cleanup_connection,
    _sleep_interruptible, CallAfter, close.
  py_run. rewrite Hsel. py_run.
  case_decide; py_run; rewrite ?Hrecv, Hs; py_run;
    unfold after_drop; by rewrite Hs.
Qed.

(** *** Incoming messages *)

Lemma from_is_not_sys text :
  startswith FROM_PREFIX text = true → startswith SYS_PREFIX text = false.
Proof.
  destruct text as [|c text]; [done|]. cbn.
  intros H. apply andb_true_iff in H as [H _]. apply N.eqb_eq in H. by subst c.
Qed.

Lemma strip_from payload :
  startswith FROM_PREFIX payload = true →
  strip payload = FROM_PREFIX ++ rstrip (drop (length FROM_PREFIX) payload).
Proof.
  intros Hp. rewrite (startswith_inv _ _ Hp) at 1.
  by apply (strip_after_prefix 70%N [82; 79; 77; 58]%N).
Qed.

(** Whatever arrives, the method returns and schedules one display call,
    a system message unless the stripped text begins with [FROM:]. *)
Lemma incoming_returns_call st payload :
  ∃ call,
    _handle_incoming_message payload st
    = (Return tt, set_scheduled (scheduled st ++ [call]) st)
    ∧ (startswith FROM_PREFIX (strip payload) = false →
       ∃ text, call = _append_system_message text).
Proof.
  unfold _handle_incoming_message, CallAfter. cbn zeta.
  destruct (startswith SYS_PREFIX (strip payload)) eqn:Hsys.
  { eexists. split; [done|]. eauto. }
  destruct (startswith FROM_PREFIX (strip payload)).
  2:{ eexists. split; [done|]. eauto. }
  rewrite run_try, run_bind.
  destruct (split1 FROM_PREFIX (strip payload)) as [[x rest]|]; cbn; [|by eexists].
  rewrite run_bind.
  destruct (split1 (lit ":") rest) as [[sender content]|]; cbn; [|by eexists].
  rewrite run_bind. cbn. case_decide; by eexists.
Qed.

Lemma incoming_returns st payload :
  ∃ call,
    _handle_incoming_message payload st
    = (Return tt, set_scheduled (scheduled st ++ [call]) st).
Proof. destruct (incoming_returns_call st payload) as (call & H & _). eauto. Qed.

(** *** Receiving *)

Lemma handle_disconnection_spec st :
  _handle_disconnection st = (Return tt, disconnected st).
Proof.
  unfold _handle_disconnection, _cleanup_connection, CallAfter, close, disconnected.
  py_run. by destruct (client_socket st).
Qed.

(** What one pass of the loop of [_receive_messages] does. *)
Lemma receive_one (r : reception) (socket_fd : sock) st :
  (received_data ← try_except
                     (st ← get;
                      if decide (socket_fd ∈ closed_sockets st)
                      then raise EBADF
                      else answer (received r socket_fd))
                     (λ _, mret []);
   match received_data with
   | _ :: _ =>
       let message_text := decode_ignore received_data in
       _handle_incoming_message message_text
   | [] => _handle_disconnection
   end) st
  = match received r socket_fd with
    | Return (b :: data) =>
        if decide (socket_fd ∈ closed_sockets st) then _handle_disconnection st
        else _handle_incoming_message (decode_ignore (b :: data)) st
    | _ => _handle_disconnection st
    end.
Proof.
  py_run. case_decide; py_run.
  - by destruct (received r socket_fd) as [[|b data]|e].
  - by destruct (received r socket_fd) as [[|b data]|e].
Qed.

Lemma receive_loop_returns (r : reception) (l : list sock) st :
  ∃ st',
    for_each l (λ socket_fd,
      received_data ← try_except
                        (st ← get;
                         if decide (socket_fd ∈ closed_sockets st)
                         then raise EBADF
                         else answer (received r socket_fd))
                        (λ _, mret []);
      match received_data with
      | _ :: _ =>
          let message_text := decode_ignore received_data in
          _handle_incoming_message message_text
      | [] => _handle_disconnection
      end) st = (Return tt, st')
    ∧ keeps_pace st st'.
Proof.
  revert st. induction l as [|s l IH]; intros st.
  { exists st. by cbn. }
  cbn [for_each]. rewrite run_bind, receive_one.
  assert (∃ st1, match received r s with
                 | Return (b :: data) =>
                     if decide (s ∈ closed_sockets st) then _handle_disconnection st
                     else _handle_incoming_message (decode_ignore (b :: data)) st
                 | _ => _handle_disconnection st
                 end = (Return tt, st1) ∧ keeps_pace st st1) as (st1 & -> & Hp1).
  { destruct (received r s) as [[|b data]|e].
    1,3: rewrite handle_disconnection_spec; by eexists.
    case_decide.
    - rewrite handle_disconnection_spec; by eexists.
    - destruct (incoming_returns st (decode_ignore (b :: data))) as (call & ->).
      by eexists. }
  destruct (IH st1) as (st' & Hrun & Hp).
  exists st'. split; [exact Hrun|].
  destruct Hp1 as (? & ? & ? & ?), Hp as (? & ? & ? & ?).
  repeat split; congruence.
Qed.

Lemma receive_messages_returns r st :
  ∃ st', _receive_messages r st = (Return tt, st') ∧ keeps_pace st st'.
Proof.
  unfold _receive_messages. rewrite run_bind, run_try.
  unfold answer at 1.
  destruct (selected r) as [l|e]; cbn.
  - apply receive_loop_returns.
  - exists st. by cbn.
Qed.

(** *** The loop, whatever the turns bring *)

Lemma attempt_not_failing a :
  attempt_fails a = false → ∃ s, created a = Return s ∧ connected a = None.
Proof.
  unfold attempt_fails. destruct (created a) as [s|e]; [|done].
  destruct (connected a); [done|]. eauto.
Qed.

Lemma network_turns_lost t turns d st s s0 :
  stop_event st = false → client_socket st = Some s →
  selected (polled t) = Return [s0] →
  (received (polled t) s0 = Return [] ∨ ∃ e, received (polled t) s0 = Raise e) →
  network_turns (t :: turns) d st = network_turns turns d (after_drop st).
Proof.
  intros Hstop Hs Hsel Hrecv. cbn [network_turns]. rewrite run_bind. cbn.
  rewrite Hstop. rewrite run_bind, run_try, run_bind. cbn. rewrite Hs.
  unfold _receive_messages, _handle_disconnection, _cleanup_connection,
    _sleep_interruptible, CallAfter, close.
  py_run. rewrite Hsel. py_run.
  destruct Hrecv as [Hrecv|[e Hrecv]];
    case_decide; py_run; rewrite ?Hrecv, Hs; py_run;
    unfold after_drop; by rewrite Hs.
Qed.

(** Whatever the turns bring, the loop returns, leaves [stop_event] alone,
    and holds the base delay whenever it has a connection: a successful
    attempt returns the base delay, and a turn spent on a connection does
    not touch the delay. *)
Lemma network_turns_connected turns d st :
  (is_Some (client_socket st) → d = RECONNECT_BASE_DELAY) →
  ∃ d' st',
    network_turns turns d st = (Return d', st')
    ∧ stop_event st' = stop_event st
    ∧ (is_Some (client_socket st') → d' = RECONNECT_BASE_DELAY).
Proof.
  revert d st. induction turns as [|t turns IH]; intros d st Hd.
  { by exists d, st. }
  cbn [network_turns]. rewrite run_bind. cbn.
  destruct (stop_event st) eqn:Hstop.
  { exists d, st. by rewrite Hstop. }
  rewrite run_bind, run_try, run_bind. cbn.
  destruct (client_socket st) as [s|] eqn:Hs.
  - rewrite run_bind.
    destruct (receive_messages_returns (polled t) st) as (st1 & -> & _ & Hst & _).
    unfold _sleep_interruptible. rewrite run_bind. cbn.
    destruct (IH d (set_slept (slept st1 ++ [NETWORK_POLL_INTERVAL]) st1))
      as (d' & st' & -> & Hst' & Hd').
    { intros _. by apply Hd. }
    exists d', st'. split; [done|]. split; [|done]. cbn in Hst'. congruence.
  - destruct (attempt_fails (attempted t)) eqn:Hf.
    + rewrite attempt_connection_fails by done.
      destruct (IH (next_delay d) (after_failure d (attempted t) st))
        as (d' & st' & -> & Hst' & Hd').
      { cbn. rewrite Hs. by intros [? [=]]. }
      exists d', st'. split; [done|]. split; [|done]. cbn in Hst'. congruence.
    + destruct (attempt_not_failing _ Hf) as (s & Hcr & Hco).
      destruct (attempt_connection_succeeds d _ s st Hcr Hco) as (w & p & ->).
      destruct (IH RECONNECT_BASE_DELAY (after_success s w p st))
        as (d' & st' & -> & Hst' & Hd'); [done|].
      exists d', st'. split; [done|]. split; [|done]. cbn in Hst'. congruence.
Qed.

(** *** The claims about the client *)

Import Scenario.

(** C3, as stated, fails for a failed handshake: the client is left
    connected.  The attempt is made with a current delay of 4; the
    connection is established and the send of the handshake raises.  The
    client keeps socket 7, schedules the notice of a successful connection,
    does not sleep, and returns the base delay 1, where the claim has it
    drop the socket, announce a retry in 4s, sleep 4 and return 8. *)
Lemma handshake_failure_leaves_client_connected :
  ∃ st',
    _attempt_connection 4 (handshake_lost 7) fresh_client
    = (Return RECONNECT_BASE_DELAY, st')
    ∧ client_socket st' = Some 7
    ∧ scheduled st' = [connected_notice]
    ∧ slept st' = []
    ∧ printed st' = [lit "Failed to send username: [Errno 32] Broken pipe"].
Proof.
  exists (after (_attempt_connection 4 (handshake_lost 7)) fresh_client).
  repeat split; by vm_compute.
Qed.

(** C3, amended.  An attempt made without a socket in which [socket.socket]
    or [connect] raises leaves the client disconnected: the notice
    "Connection failed, retrying in <N>s" is scheduled with the current
    delay [N], the new socket (if one was made) is closed, the client sleeps
    for the current delay, and the delay returned is the current one
    doubled, capped at the maximum.  An attempt whose connection is
    established leaves the client connected on the new socket, whatever
    becomes of the send of the handshake: the notice of the connection is
    scheduled, there is no sleep, and the delay returned is the base delay;
    a failed send is only printed. *)
Theorem connect_failure_backs_off_handshake_failure_does_not current_delay a st :
  (client_socket st = None → attempt_fails a = true →
   ∃ st',
     _attempt_connection current_delay a st
     = (Return (Z.min RECONNECT_MAX_DELAY (current_delay * 2)), st')
     ∧ client_socket st' = None
     ∧ scheduled st' = scheduled st ++ [retry_notice current_delay]
     ∧ slept st' = slept st ++ [(current_delay, 1%Z)])
  ∧ (∀ s, created a = Return s → connected a = None →
     ∃ st',
       _attempt_connection current_delay a st = (Return RECONNECT_BASE_DELAY, st')
       ∧ client_socket st' = Some s
       ∧ scheduled st' = scheduled st ++ [connected_notice]
       ∧ slept st' = slept st
       ∧ closed_sockets st' = closed_sockets st)
  ∧ (∀ s e b, created a = Return s → connected a = None →
     handshake_sent a = Some e →
     s ∉ closed_sockets st → encode (NAME_PREFIX ++ username st) = Some b →
     ∃ st',
       _attempt_connection current_delay a st = (Return RECONNECT_BASE_DELAY, st')
       ∧ client_socket st' = Some s
       ∧ printed st' = printed st ++ [lit "Failed to send username: " ++ exn_str e]).
Proof.
  split; [|split].
  - intros Hs Hf. exists (after_failure current_delay a st).
    split; [by apply attempt_connection_fails|]. by rewrite <- Hs.
  - intros s Hcr Hco.
    destruct (attempt_connection_succeeds current_delay a s st Hcr Hco) as (w & p & ->).
    by eexists.
  - intros s e b Hcr Hco Hhs Hc He.
    rewrite (attempt_connection_handshake_lost current_delay a s e b) by done.
    by eexists.
Qed.

(** The theorem on two attempts made with a current delay of 4: one
    refused, one whose handshake is lost. *)
Lemma connect_failure_backs_off_handshake_failure_does_not_witness :
  (∃ st',
     _attempt_connection 4 (refused 7) fresh_client = (Return 8%Z, st')
     ∧ client_socket st' = None
     ∧ scheduled st'
       = [_append_system_message (lit "Connection failed, retrying in 4s")]
     ∧ slept st' = [(4, 1)%Z])
  ∧ (∃ st',
       _attempt_connection 4 (handshake_lost 7) fresh_client = (Return 1%Z, st')
       ∧ client_socket st' = Some 7).
Proof.
  destruct (connect_failure_backs_off_handshake_failure_does_not 4 (refused 7) fresh_client)
    as (Hfail & _ & _).
  destruct (connect_failure_backs_off_handshake_failure_does_not 4 (handshake_lost 7)
              fresh_client) as (_ & _ & Hlost).
  split.
  - destruct Hfail as (st' & Hrun & Hs & Hsc & Hsl).
    + vm_compute. reflexivity.
    + vm_compute. reflexivity.
    + exists st'. split; [exact Hrun|]. split; [exact Hs|].
      split; [rewrite Hsc; vm_compute; reflexivity|].
      rewrite Hsl. vm_compute. reflexivity.
  - destruct (Hlost 7 EPIPE (ascii_bytes "NAME:alice")) as (st' & Hrun & Hs & _).
    + vm_compute. reflexivity.
    + vm_compute. reflexivity.
    + vm_compute. reflexivity.
    + vm_compute. intros H. discriminate H.
    + vm_compute. reflexivity.
    + exists st'. split; [exact Hrun|]. exact Hs.
Defined.

(** C5.  With the base delay 1 and the maximum 16, a network loop that
    starts disconnected and meets only failing attempts reports and sleeps
    the delays 1, 2, 4, 8, 16, 16, 16, ...: the [i]-th failure uses
    [min 16 (2^i)], which never exceeds the maximum and stays at it from the
    fifth failure on.
    Any successful connect resets the delay, and the reset lasts as long as
    the connection: after any history of turns, whatever the system
    answered in them (failures, connections, polls with or without data,
    losses), if the loop has a connection then it holds the delay 1.  So
    when that connection is found lost, by a [recv] that gives no bytes or
    raises, the failures that follow sleep 1, 2, 4, ... once more, after
    the one poll interval of the turn that found the loss.
    In particular, after any number of failures, one established connection
    followed at once by its loss starts the sequence again at 1. *)
Theorem backoff_sequence st :
  client_socket st = None → stop_event st = false →
  (∀ turns, Forall failing turns →
     ∃ st',
       _network_loop turns st = (Return (backoff (length turns)), st')
       ∧ slept st' = slept st ++ map (λ i, (backoff i, 1%Z)) (seq 0 (length turns))
       ∧ scheduled st' = scheduled st
           ++ map (λ i, retry_notice (backoff i)) (seq 0 (length turns)))
  ∧ (∀ history,
       let st1 := after (_network_loop history) st in
       is_Some (client_socket st1) →
       _network_loop history st = (Return RECONNECT_BASE_DELAY, st1)
       ∧ ∀ t_drop later s0,
           selected (polled t_drop) = Return [s0] →
           (received (polled t_drop) s0 = Return []
            ∨ ∃ e, received (polled t_drop) s0 = Raise e) →
           Forall failing later →
           ∃ st',
             _network_loop (history ++ t_drop :: later) st
             = (Return (backoff (length later)), st')
             ∧ slept st' = slept st1 ++ [NETWORK_POLL_INTERVAL]
                 ++ map (λ i, (backoff i, 1%Z)) (seq 0 (length later))
             ∧ scheduled st' = scheduled st1 ++ [disconnected_notice]
                 ++ map (λ i, retry_notice (backoff i)) (seq 0 (length later)))
  ∧ (∀ before t_ok t_drop later s s0,
       Forall failing before → Forall failing later →
       created (attempted t_ok) = Return s → connected (attempted t_ok) = None →
       selected (polled t_drop) = Return [s0] →
       received (polled t_drop) s0 = Return [] →
       ∃ st',
         _network_loop (before ++ t_ok :: t_drop :: later) st
         = (Return (backoff (length later)), st')
         ∧ slept st' = slept st
             ++ map (λ i, (backoff i, 1%Z)) (seq 0 (length before))
             ++ [NETWORK_POLL_INTERVAL]
             ++ map (λ i, (backoff i, 1%Z)) (seq 0 (length later))
         ∧ scheduled st' = scheduled st
             ++ map (λ i, retry_notice (backoff i)) (seq 0 (length before))
             ++ [connected_notice; disconnected_notice]
             ++ map (λ i, retry_notice (backoff i)) (seq 0 (length later)))
  ∧ map backoff (seq 0 7) = [1; 2; 4; 8; 16; 16; 16]%Z
  ∧ (∀ i, (1 ≤ backoff i ≤ RECONNECT_MAX_DELAY)%Z)
  ∧ (∀ i, 4 ≤ i → backoff i = RECONNECT_MAX_DELAY).
Proof.
  intros Hs Hstop. split; [|split; [|split; [|split; [|split]]]].
  - intros turns Hf. unfold _network_loop.
    destruct (failing_run_base turns st Hf Hstop Hs) as (st' & Hrun & _ & _ & Hsl & Hsc).
    by exists st'.
  - intros history st1 Hconn. unfold _network_loop in *.
    destruct (network_turns_connected history RECONNECT_BASE_DELAY st)
      as (d1 & st1' & Hrun & Hstop1 & Hd1); [done|].
    assert (st1 = st1') as <-.
    { subst st1. unfold after. by rewrite Hrun. }
    rewrite (Hd1 Hconn) in Hrun. split; [exact Hrun|].
    intros t_drop later s0 Hsel Hrecv Hl.
    rewrite network_turns_app, run_bind, Hrun. cbv beta iota.
    destruct Hconn as [s Hs1].
    rewrite (network_turns_lost t_drop later _ _ s s0) by congruence.
    destruct (failing_run_base later (after_drop st1) Hl)
      as (st' & -> & _ & _ & Hsl & Hsc); [cbn; congruence|done|].
    exists st'. split; [done|].
    rewrite Hsl, Hsc. cbn. by rewrite <- !app_assoc.
  - intros before t_ok t_drop later s s0 Hb Hl Hcr Hco Hsel Hrecv.
    unfold _network_loop. rewrite network_turns_app, run_bind.
    destruct (failing_run_base before st Hb Hstop Hs)
      as (st1 & -> & Hs1 & Hstop1 & Hsl1 & Hsc1).
    destruct (network_turns_success t_ok (t_drop :: later) (backoff (length before))
                st1 s Hstop1 Hs1 Hcr Hco) as (w & p & ->).
    rewrite (network_turns_drop t_drop later _ _ s s0) by done.
    destruct (failing_run_base later (after_drop (after_success s w p st1)) Hl)
      as (st' & -> & _ & _ & Hsl & Hsc); [done..|].
    exists st'. split; [done|].
    rewrite Hsl, Hsc. cbn [after_drop after_success slept scheduled set_slept
      set_scheduled set_client_socket set_closed_sockets set_printed set_wire
      set_outputs set_inputs].
    rewrite Hsl1, Hsc1, <- !app_assoc. done.
  - done.
  - apply backoff_bounds.
  - apply backoff_capped.
Qed.

(** The theorem on a run: three failures, a connection that lives through
    a poll with nothing to read and a poll with a message, its loss, two
    failures. *)
Lemma backoff_sequence_witness :
  ∃ st',
    _network_loop
      ([failing_turn 3; failing_turn 4; failing_turn 5;
        {| attempted := accepted 6; polled := quiet |};
        {| attempted := refused 0; polled := quiet |};
        {| attempted := refused 0;
           polled := incoming 6 (ascii_bytes "SYS:bob joined") |}]
       ++ {| attempted := refused 0; polled := incoming 6 [] |}
       :: [failing_turn 7; failing_turn 8]) fresh_client
    = (Return 4%Z, st')
    ∧ slept st' = [(1, 1); (2, 1); (4, 1); NETWORK_POLL_INTERVAL;
                   NETWORK_POLL_INTERVAL; NETWORK_POLL_INTERVAL; (1, 1); (2, 1)]%Z.
Proof.
  destruct (backoff_sequence fresh_client) as (_ & Hreset & _).
  - vm_compute. reflexivity.
  - vm_compute. reflexivity.
  - destruct (Hreset [failing_turn 3; failing_turn 4; failing_turn 5;
                      {| attempted := accepted 6; polled := quiet |};
                      {| attempted := refused 0; polled := quiet |};
                      {| attempted := refused 0;
                         polled := incoming 6 (ascii_bytes "SYS:bob joined") |}])
      as (_ & Hnext).
    + vm_compute. eexists. reflexivity.
    + destruct (Hnext {| attempted := refused 0; polled := incoming 6 [] |}
                  [failing_turn 7; failing_turn 8] 6)
        as (st' & Hrun & Hsl & _).
      * vm_compute. reflexivity.
      * left. vm_compute. reflexivity.
      * repeat constructor.
      * exists st'. split; [exact Hrun|]. rewrite Hsl. vm_compute. reflexivity.
Defined.

(** C7.  A payload that starts with [FROM:] and has no colon after that
    prefix does not make [_handle_incoming_message] raise: the call returns
    and schedules exactly one display call, a system message with the whole
    message text, not parsed into sender and content (no own-message or
    other-message call).  The text shown is the payload as the method trims
    every message: the payload up to whitespace at its end. *)
Theorem from_without_second_colon_is_system_notice st payload :
  startswith FROM_PREFIX payload = true →
  58%N ∉ drop (length FROM_PREFIX) payload →
  _handle_incoming_message payload st
  = (Return tt,
     set_scheduled (scheduled st ++ [_append_system_message (strip payload)]) st)
  ∧ ∃ w, blank w ∧ payload = strip payload ++ w.
Proof.
  intros Hp Hcolon. split.
  - unfold _handle_incoming_message. cbn zeta.
    assert (startswith FROM_PREFIX (strip payload) = true) as Hfrom.
    { rewrite strip_from by done. apply startswith_app. }
    rewrite (from_is_not_sys _ Hfrom), Hfrom.
    rewrite run_try, run_bind, (split1_at_start _ _ Hfrom). cbn.
    rewrite run_bind. change (lit ":") with [58%N].
    rewrite split1_absent; [done|].
    rewrite strip_from, drop_app_length by done.
    intros Hin. by apply Hcolon, rstrip_elem.
  - destruct payload as [|c payload]; [done|].
    apply strip_split_from.
    cbn in Hp. apply andb_true_iff in Hp as [Hc _].
    apply N.eqb_eq in Hc. by subst c.
Qed.

(** The theorem on the payload [FROM:alice]. *)
Lemma from_without_second_colon_is_system_notice_witness :
  _handle_incoming_message (lit "FROM:alice") connected_client
  = (Return tt,
     set_scheduled
       (scheduled connected_client ++ [_append_system_message (lit "FROM:alice")])
       connected_client).
Proof.
  destruct (from_without_second_colon_is_system_notice connected_client (lit "FROM:alice"))
    as [Hrun _].
  - vm_compute. reflexivity.
  - apply (bool_decide_unpack _). vm_compute. exact I.
  - exact Hrun.
Defined.

(** C9.  [send_message] on the text of the input field.  If the text is
    empty after trimming nothing happens at all.  Otherwise the field is
    cleared and: without a socket nothing is sent and the system message
    "Not connected to server" is scheduled; with an open socket [s] the
    bytes of [MSG:<text>], with the trimmed text, are handed to [send] on
    [s] exactly once; if that [send] returns nothing else happens, and if
    it raises the system message "Failed to send message: ..." is scheduled
    and the socket stays in place, so the connection state is unchanged. *)
Theorem send_message_cases sent st :
  (strip (input_text st) = [] → send_message sent st = (Return tt, st))
  ∧ (strip (input_text st) ≠ [] → client_socket st = None →
     send_message sent st
     = (Return tt,
        set_scheduled
          (scheduled st ++ [_append_system_message (lit "Not connected to server")])
          (set_input_text [] st)))
  ∧ (∀ s b,
       strip (input_text st) ≠ [] → client_socket st = Some s →
       s ∉ closed_sockets st →
       encode (MSG_PREFIX ++ strip (input_text st)) = Some b →
       ∃ st',
         send_message sent st = (Return tt, st')
         ∧ wire st' = wire st ++ [(s, b)]
         ∧ client_socket st' = Some s
         ∧ closed_sockets st' = closed_sockets st
         ∧ scheduled st'
           = match sent with
             | None => scheduled st
             | Some e =>
                 scheduled st
                 ++ [_append_system_message (lit "Failed to send message: " ++ exn_str e)]
             end).
Proof.
  split; [|split].
  - apply send_message_empty.
  - apply send_message_not_connected.
  - intros s b Ht Hs Hc He.
    rewrite (send_message_connected sent st s b) by done.
    eexists. split; [done|]. by destruct sent.
Qed.

(** The theorem on three calls: an empty field, a send that returns, a
    send that raises. *)
Lemma send_message_cases_witness :
  (send_message None fresh_client = (Return tt, fresh_client))
  ∧ (∃ st',
       send_message None (set_input_text (lit "  hello ") connected_client)
       = (Return tt, st')
       ∧ wire st' = wire connected_client ++ [(7, ascii_bytes "MSG:hello")])
  ∧ (∃ st',
       send_message (Some EPIPE) (set_input_text (lit "  hello ") connected_client)
       = (Return tt, st')
       ∧ client_socket st' = Some 7).
Proof.
  split; [|split].
  - apply (send_message_cases None fresh_client). vm_compute. reflexivity.
  - destruct (send_message_cases None (set_input_text (lit "  hello ") connected_client))
      as (_ & _ & H).
    destruct (H 7 (ascii_bytes "MSG:hello")) as (st' & Hrun & Hw & _).
    + vm_compute. discriminate.
    + vm_compute. reflexivity.
    + vm_compute. intros Hin. discriminate Hin.
    + vm_compute. reflexivity.
    + exists st'. split; [exact Hrun|]. exact Hw.
  - destruct (send_message_cases (Some EPIPE)
                (set_input_text (lit "  hello ") connected_client)) as (_ & _ & H).
    destruct (H 7 (ascii_bytes "MSG:hello")) as (st' & Hrun & _ & Hs & _).
    + vm_compute. discriminate.
    + vm_compute. reflexivity.
    + vm_compute. intros Hin. discriminate Hin.
    + vm_compute. reflexivity.
    + exists st'. split; [exact Hrun|]. exact Hs.
Defined.

End ClientFacts.

(** ** More about the string methods *)

Module TextMore.
Import Text TextFacts.

Lemma lstrip_idemp s : lstrip (lstrip s) = lstrip s.
Proof.
  destruct (lstrip_head s) as [->|(c & s' & -> & Hc)]; [done|].
  cbn. by rewrite Hc.
Qed.

Lemma rstrip_idemp s : rstrip (rstrip s) = rstrip s.
Proof. unfold rstrip. by rewrite rev_involutive, lstrip_idemp. Qed.

(** Stripping the end first or last makes no difference. *)
Lemma strip_rstrip s : strip (rstrip s) = strip s.
Proof.
  destruct (rstrip_split s) as (w & Hw & Hs).
  rewrite Hs at 2.
  by rewrite <- (strip_surrounded [] (rstrip s) w).
Qed.

Lemma strip_lstrip s : strip (lstrip s) = strip s.
Proof. unfold strip. by rewrite lstrip_idemp. Qed.

Lemma strip_idemp s : strip (strip s) = strip s.
Proof. unfold strip at 2. by rewrite strip_rstrip, strip_lstrip. Qed.

(** A text with no blank at either end is left alone. *)
Lemma strip_fixed c s :
  isspace c = false → isspace (List.last (c :: s) c) = false →
  strip (c :: s) = c :: s.
Proof.
  intros Hc Hl.
  rewrite <- (app_nil_r (c :: s)) at 1.
  rewrite strip_after_prefix by done. apply app_nil_r.
Qed.

Lemma split1_first c a b : c ∉ a → split1 [c] (a ++ c :: b) = Some (a, b).
Proof.
  induction a as [|x a IH]; intros Hc.
  - cbn. rewrite N.eqb_refl. cbn. by rewrite drop_0.
  - apply not_elem_of_cons in Hc as [Hne Hc].
    cbn. destruct (N.eqb_spec c x) as [->|_]; [done|].
    cbn. by rewrite IH.
Qed.

End TextMore.

(** ** More about the client *)

Module ClientMore.
Import Text Py Client ClientWords TextFacts TextMore Utf8Facts ClientFacts Scenario.

(** *** Incoming messages *)

(** What a message that begins with [FROM:] and has a colon after the
    sender becomes, once stripped. *)
Lemma strip_relay name content :
  strip (FROM_PREFIX ++ name ++ lit ":" ++ content)
  = FROM_PREFIX ++ name ++ lit ":" ++ rstrip content.
Proof.
  rewrite (strip_after_prefix 70%N [82; 79; 77; 58]%N) by done.
  f_equal. change (lit ":") with [58%N]. cbn [app].
  by apply rstrip_after.
Qed.

Lemma incoming_relay st name content :
  58%N ∉ name →
  _handle_incoming_message (FROM_PREFIX ++ name ++ lit ":" ++ content) st
  = (Return tt,
     set_scheduled
       (scheduled st
        ++ [if decide (strip name = username st)
            then _append_own_message (strip content)
            else _append_other_message (strip name) (strip content)]) st).
Proof.
  intros Hname. unfold _handle_incoming_message. cbn zeta.
  rewrite strip_relay.
  assert (startswith FROM_PREFIX
            (FROM_PREFIX ++ name ++ lit ":" ++ rstrip content) = true) as Hfrom
    by apply startswith_app.
  rewrite (from_is_not_sys _ Hfrom), Hfrom.
  rewrite run_try, run_bind, (split1_at_start _ _ Hfrom). cbn.
  rewrite run_bind, drop_app_length.
  change (lit ":") with [58%N]. cbn [app].
  rewrite split1_first by done. cbn.
  rewrite run_bind. cbn. rewrite strip_rstrip.
  unfold CallAfter. by case_decide.
Qed.

Lemma incoming_system st text :
  _handle_incoming_message (SYS_PREFIX ++ text) st
  = (Return tt,
     set_scheduled (scheduled st ++ [_append_system_message (strip text)]) st).
Proof.
  unfold _handle_incoming_message. cbn zeta.
  rewrite (strip_after_prefix 83%N [89; 83; 58]%N) by done.
  rewrite startswith_app, drop_app_length, strip_rstrip. done.
Qed.

(** Blanks around a message are not seen. *)
Lemma incoming_surrounded st w1 t w2 :
  blank w1 → blank w2 →
  _handle_incoming_message (w1 ++ t ++ w2) st = _handle_incoming_message t st.
Proof.
  intros H1 H2. unfold _handle_incoming_message. cbn zeta.
  by rewrite strip_surrounded.
Qed.

(** *** The network loop, whatever happens *)

Lemma allowed_delay d :
  (RECONNECT_BASE_DELAY ≤ d ≤ RECONNECT_MAX_DELAY)%Z → allowed_sleep (d, 1%Z).
Proof. intros Hd. right. eauto. Qed.

Lemma next_delay_range d :
  (RECONNECT_BASE_DELAY ≤ d ≤ RECONNECT_MAX_DELAY)%Z →
  (RECONNECT_BASE_DELAY ≤ next_delay d ≤ RECONNECT_MAX_DELAY)%Z.
Proof. unfold next_delay, RECONNECT_BASE_DELAY, RECONNECT_MAX_DELAY. lia. Qed.

Lemma network_turns_safe turns d st :
  (RECONNECT_BASE_DELAY ≤ d ≤ RECONNECT_MAX_DELAY)%Z →
  ∃ d' st' new,
    network_turns turns d st = (Return d', st')
    ∧ (RECONNECT_BASE_DELAY ≤ d' ≤ RECONNECT_MAX_DELAY)%Z
    ∧ slept st' = slept st ++ new
    ∧ Forall allowed_sleep new
    ∧ stop_event st' = stop_event st.
Proof.
  revert d st. induction turns as [|t turns IH]; intros d st Hd.
  { exists d, st, []. cbn. by rewrite app_nil_r. }
  cbn [network_turns]. rewrite run_bind. cbn.
  destruct (stop_event st) eqn:Hstop.
  { exists d, st, []. cbn. by rewrite app_nil_r. }
  rewrite run_bind, run_try, run_bind. cbn.
  destruct (client_socket st) as [s|] eqn:Hs.
  - (* connected: receive, then pause *)
    rewrite run_bind.
    destruct (receive_messages_returns (polled t) st) as (st1 & -> & Hsl & Hst & _).
    unfold _sleep_interruptible. rewrite run_bind. cbn.
    destruct (IH d (set_slept (slept st1 ++ [NETWORK_POLL_INTERVAL]) st1) Hd)
      as (d' & st' & new & -> & Hd' & Hsl' & Hnew & Hst').
    exists d', st', (NETWORK_POLL_INTERVAL :: new).
    split; [done|]. split; [done|]. cbn in Hsl', Hst'.
    split; [by rewrite Hsl', Hsl, <- app_assoc|].
    split; [constructor; [by left|done]|]. congruence.
  - (* not connected: attempt *)
    destruct (attempt_fails (attempted t)) eqn:Hf.
    + rewrite attempt_connection_fails by done.
      destruct (IH (next_delay d) (after_failure d (attempted t) st))
        as (d' & st' & new & -> & Hd' & Hsl' & Hnew & Hst');
        [by apply next_delay_range|].
      exists d', st', ((d, 1%Z) :: new).
      split; [done|]. split; [done|]. cbn in Hsl', Hst'.
      split; [by rewrite Hsl', <- app_assoc|].
      split; [constructor; [by apply allowed_delay|done]|]. congruence.
    + destruct (attempt_not_failing _ Hf) as (s & Hcr & Hco).
      destruct (attempt_connection_succeeds d _ s st Hcr Hco) as (w & p & ->).
      destruct (IH RECONNECT_BASE_DELAY (after_success s w p st))
        as (d' & st' & new & -> & Hd' & Hsl' & Hnew & Hst'); [done|].
      exists d', st', new. split; [done|]. split; [done|].
      split; [exact Hsl'|]. split; [done|].
      etrans; [exact Hst'|exact Hstop].
Qed.

(** *** Further properties of the client *)

(** X1.  Whatever text arrives, [_handle_incoming_message] returns and
    schedules exactly one display call; nothing else of the client changes
    (the connection stays as it is).  The call is a system message unless
    the stripped text begins with [FROM:]: nothing else is ever displayed
    as a chat message. *)
Theorem every_incoming_message_is_shown_once st payload :
  ∃ call,
    _handle_incoming_message payload st
    = (Return tt, set_scheduled (scheduled st ++ [call]) st)
    ∧ (startswith FROM_PREFIX (strip payload) = false →
       ∃ text, call = _append_system_message text).
Proof. apply incoming_returns_call. Qed.

(** The theorem on a text the protocol does not know. *)
Lemma every_incoming_message_is_shown_once_witness :
  ∃ call,
    _handle_incoming_message (lit "HELLO") connected_client
    = (Return tt, set_scheduled (scheduled connected_client ++ [call]) connected_client)
    ∧ ∃ text, call = _append_system_message text.
Proof.
  destruct (every_incoming_message_is_shown_once connected_client (lit "HELLO"))
    as (call & Hrun & Hsys).
  exists call. split; [exact Hrun|]. apply Hsys. vm_compute. reflexivity.
Defined.

(** X2.  A relayed message [FROM:<sender>:<content>], with or without
    blanks around it, is cut at the first colon after the prefix: for a
    sender part without a colon, the stripped sender is compared with the
    client's own name; if they are equal the stripped content is shown as
    an own message, otherwise as a message of that sender.  The content may
    hold colons of its own. *)
Theorem relayed_message_is_cut_at_first_colon st w1 name content w2 :
  blank w1 → blank w2 → 58%N ∉ name →
  _handle_incoming_message
    (w1 ++ (FROM_PREFIX ++ name ++ lit ":" ++ content) ++ w2) st
  = (Return tt,
     set_scheduled
       (scheduled st
        ++ [if decide (strip name = username st)
            then _append_own_message (strip content)
            else _append_other_message (strip name) (strip content)]) st).
Proof.
  intros H1 H2 Hname. rewrite incoming_surrounded by done.
  by apply incoming_relay.
Qed.

(** The theorem on a message of bob, whose content has a colon, as alice's
    client receives it. *)
Lemma relayed_message_is_cut_at_first_colon_witness :
  _handle_incoming_message (lit "FROM:bob: see you at 5:30 ") connected_client
  = (Return tt,
     set_scheduled
       (scheduled connected_client
        ++ [_append_other_message (lit "bob") (lit "see you at 5:30")])
       connected_client).
Proof.
  apply (relayed_message_is_cut_at_first_colon connected_client []
           (lit "bob") (lit " see you at 5:30 ") []).
  - vm_compute. reflexivity.
  - vm_compute. reflexivity.
  - apply (bool_decide_unpack _). vm_compute. exact I.
Defined.

(** X3.  A message that begins with [SYS:], with or without blanks around
    it, is shown as a system message with the stripped rest of the text. *)
Theorem system_message_is_shown_stripped st w1 text w2 :
  blank w1 → blank w2 →
  _handle_incoming_message (w1 ++ (SYS_PREFIX ++ text) ++ w2) st
  = (Return tt,
     set_scheduled (scheduled st ++ [_append_system_message (strip text)]) st).
Proof.
  intros H1 H2. rewrite incoming_surrounded by done. apply incoming_system.
Qed.

(** The theorem on a join notice followed by a line break. *)
Lemma system_message_is_shown_stripped_witness :
  _handle_incoming_message (lit "SYS: bob joined" ++ [10%N]) connected_client
  = (Return tt,
     set_scheduled
       (scheduled connected_client ++ [_append_system_message (lit "bob joined")])
       connected_client).
Proof.
  apply (system_message_is_shown_stripped connected_client []
           (lit " bob joined") [10%N]).
  - vm_compute. reflexivity.
  - vm_compute. reflexivity.
Defined.

(** X4.  [_receive_messages] with one readable socket.  If [select] fails
    or reports nothing, nothing happens.  If [recv] gives data on the open
    socket, one display call is scheduled and the connection is kept.  If
    [recv] gives no data, or raises, or the socket is closed, the client
    disconnects: its socket is closed, [client_socket] becomes [None] and
    the notice of the disconnection is scheduled; a read error is handled
    exactly like an orderly close. *)
Theorem receive_messages_outcomes r st :
  ((selected r = Return [] ∨ ∃ e, selected r = Raise e) →
   _receive_messages r st = (Return tt, st))
  ∧ (∀ s b data,
       selected r = Return [s] → s ∉ closed_sockets st →
       received r s = Return (b :: data) →
       ∃ call,
         _receive_messages r st
         = (Return tt, set_scheduled (scheduled st ++ [call]) st))
  ∧ (∀ s,
       selected r = Return [s] →
       (s ∈ closed_sockets st ∨ received r s = Return []
        ∨ ∃ e, received r s = Raise e) →
       _receive_messages r st = (Return tt, disconnected st)).
Proof.
  split; [|split].
  - intros [Hsel|[e Hsel]]; unfold _receive_messages;
      rewrite run_bind, run_try; unfold answer at 1; by rewrite Hsel.
  - intros s b data Hsel Hc Hrecv. unfold _receive_messages.
    rewrite run_bind, run_try. unfold answer at 1. rewrite Hsel.
    cbn [for_each]. rewrite run_bind, receive_one, Hrecv.
    rewrite decide_False by done.
    destruct (incoming_returns st (decode_ignore (b :: data))) as (call & ->).
    by exists call.
  - intros s Hsel Hbad. unfold _receive_messages.
    rewrite run_bind, run_try. unfold answer at 1. rewrite Hsel.
    cbn [for_each]. rewrite run_bind, receive_one.
    destruct Hbad as [Hc|[Hrecv|[e Hrecv]]].
    + destruct (received r s) as [[|b data]|e];
        rewrite ?decide_True by done; by rewrite handle_disconnection_spec.
    + rewrite Hrecv. by rewrite handle_disconnection_spec.
    + rewrite Hrecv. by rewrite handle_disconnection_spec.
Qed.

(** The theorem on the connected client: the server closes the connection. *)
Lemma receive_messages_outcomes_witness :
  ∃ st',
    _receive_messages (incoming 7 []) connected_client = (Return tt, st')
    ∧ client_socket st' = None
    ∧ scheduled st' = scheduled connected_client ++ [disconnected_notice].
Proof.
  destruct (receive_messages_outcomes (incoming 7 []) connected_client)
    as (_ & _ & Hdrop).
  exists (disconnected connected_client). split.
  - apply (Hdrop 7).
    + vm_compute. reflexivity.
    + right. left. vm_compute. reflexivity.
  - split; vm_compute; reflexivity.
Defined.

(** X5.  The network loop cannot be brought down and cannot sleep longer
    than the maximum: for any turns, whatever the system answers in them,
    [_network_loop] returns; the delay it holds at the end lies between the
    base delay and the maximum; and every sleep it asked for is the poll
    interval or a reconnection delay between the base delay and the
    maximum.  The loop itself never changes [stop_event]. *)
Theorem network_loop_is_safe turns st :
  ∃ d' st' new,
    _network_loop turns st = (Return d', st')
    ∧ (RECONNECT_BASE_DELAY ≤ d' ≤ RECONNECT_MAX_DELAY)%Z
    ∧ slept st' = slept st ++ new
    ∧ Forall allowed_sleep new
    ∧ stop_event st' = stop_event st.
Proof. by apply network_turns_safe. Qed.

Lemma stopped_loop_returns turns d st :
  stop_event st = true → network_turns turns d st = (Return d, st).
Proof.
  intros Hstop. destruct turns as [|t turns]; [done|].
  cbn [network_turns]. rewrite run_bind. cbn. by rewrite Hstop.
Qed.

(** X23.  Closing the window ends the network loop and closes the
    connection: [on_close] always returns, sets [stop_event] and closes the
    socket if there is one, without forgetting it; it schedules nothing and
    sends nothing.  From the state it leaves, the network loop returns at
    once, with the delay it had, whatever turns it is offered. *)
Theorem on_close_ends_the_network_loop st :
  ∃ st',
    on_close st = (Return tt, st')
    ∧ stop_event st' = true
    ∧ client_socket st' = client_socket st
    ∧ (∀ s, client_socket st = Some s → s ∈ closed_sockets st')
    ∧ wire st' = wire st ∧ scheduled st' = scheduled st
    ∧ ∀ turns d, network_turns turns d st' = (Return d, st').
Proof.
  unfold on_close, close. py_run.
  destruct (client_socket st) as [s|] eqn:Hs; py_run.
  - eexists. split; [done|]. split; [done|]. split; [done|].
    split.
    { intros s' [= <-]. apply elem_of_union. left. by apply elem_of_singleton. }
    split; [done|]. split; [done|].
    intros turns d. by apply stopped_loop_returns.
  - eexists. split; [done|]. split; [done|]. split; [done|].
    split; [done|]. split; [done|]. split; [done|].
    intros turns d. by apply stopped_loop_returns.
Qed.

End ClientMore.

(** ** The user name and the colours *)

Module DisplayFacts.
Import Text Py Display TextFacts TextMore Utf8Facts.

(** *** Decimal numerals *)

Lemma lit_String a s : lit (String a s) = N_of_ascii a :: lit s.
Proof. done. Qed.

Lemma digits_of_uint d :
  Forall (λ c, (48 ≤ c ≤ 57)%N) (lit (NilEmpty.string_of_uint d)).
Proof.
  induction d; cbn [NilEmpty.string_of_uint]; rewrite ?lit_String;
    constructor; try done; cbn; lia.
Qed.

Lemma digits_of_uint_zero d :
  lit (NilZero.string_of_uint d) ≠ []
  ∧ Forall (λ c, (48 ≤ c ≤ 57)%N) (lit (NilZero.string_of_uint d)).
Proof.
  destruct d; (split; [done|]);
    first [by repeat constructor | apply digits_of_uint].
Qed.

Lemma str_of_int_digits n :
  (0 ≤ n)%Z →
  str_of_int n ≠ [] ∧ Forall (λ c, (48 ≤ c ≤ 57)%N) (str_of_int n).
Proof.
  intros Hn. unfold str_of_int.
  destruct n as [|p|p]; [by repeat constructor| |lia].
  apply digits_of_uint_zero.
Qed.

Lemma digit_is_no_blank c : (48 ≤ c ≤ 57)%N → isspace c = false.
Proof.
  intros Hc. unfold isspace.
  repeat match goal with
  | |- context [(?a <=? ?b)%N] => destruct (N.leb_spec a b); try lia
  | |- context [(?a =? ?b)%N] => destruct (N.eqb_spec a b); try lia
  end; done.
Qed.

Lemma last_app_nonempty {A} (l1 l2 : list A) d :
  l2 ≠ [] → List.last (l1 ++ l2) d = List.last l2 d.
Proof.
  intros H. destruct (exists_last H) as (l' & x & ->).
  by rewrite app_assoc, !last_last.
Qed.

Lemma last_Forall {A} (P : A → Prop) (l : list A) d :
  l ≠ [] → Forall P l → P (List.last l d).
Proof.
  intros Hl HP. destruct (exists_last Hl) as (l' & x & ->).
  rewrite last_last. apply Forall_app in HP as [_ HP]. by inversion HP.
Qed.

(** The name made up when the dialog gives none. *)
Lemma made_up_name now :
  let u := lit "User-" ++ str_of_int (now mod 100000) in
  strip u = u ∧ (58%N ∉ u) ∧ forallb encodable_char u = true.
Proof.
  intros u. subst u.
  destruct (str_of_int_digits (now mod 100000)) as [Hne Hd].
  { apply Z.mod_pos_bound. lia. }
  split; [|split].
  - change (lit "User-") with (85 :: [115; 101; 114; 45])%N.
    apply strip_fixed; [done|].
    change (isspace (List.last ([85; 115; 101; 114; 45]%N
                                ++ str_of_int (now mod 100000)) 85%N) = false).
    rewrite last_app_nonempty by done.
    apply digit_is_no_blank.
    by apply (last_Forall (λ c, (48 ≤ c ≤ 57)%N)).
  - rewrite elem_of_app. intros [Hin|Hin].
    + revert Hin. apply (bool_decide_unpack _). vm_compute. exact I.
    + rewrite Forall_forall in Hd. apply Hd in Hin. lia.
  - rewrite forallb_app. apply andb_true_iff. split; [done|].
    apply forallb_forall. intros c Hc%list_elem_of_In.
    rewrite Forall_forall in Hd. apply Hd in Hc.
    apply encodable_char_spec. lia.
Qed.

(** *** Colours *)

Lemma choice_in_palette i : choice i ∈ pastel_palette.
Proof.
  unfold choice. apply list_elem_of_In, nth_In.
  apply Nat.mod_upper_bound. done.
Qed.

Lemma redraw_in_palette used draw n k color :
  color ∈ pastel_palette → redraw used draw n k color ∈ pastel_palette.
Proof.
  revert k color. induction n as [|n IH]; intros k color Hc; [done|].
  cbn. case_decide; [|done]. apply IH, choice_in_palette.
Qed.

(** If the loop ends on a colour in use, every colour it looked at was in
    use. *)
Lemma redraw_used used draw n k color :
  redraw used draw n k color ∈ used →
  color ∈ used ∧ ∀ j, k ≤ j < k + n → choice (draw j) ∈ used.
Proof.
  revert k color. induction n as [|n IH]; intros k color Hr.
  { cbn in Hr. split; [done|]. intros j Hj. lia. }
  cbn in Hr. case_decide as Hc.
  - apply IH in Hr as [Hk Hrest]. split; [done|].
    intros j Hj. destruct (decide (j = k)) as [->|Hne]; [done|].
    apply Hrest. lia.
  - done.
Qed.

Lemma used_colour (name_colors : gmap str colour) (c : colour) :
  c ∈ (map_to_list name_colors).*2 ↔ ∃ m, name_colors !! m = Some c.
Proof.
  rewrite list_elem_of_fmap. split.
  - intros ([m c'] & -> & Hin). exists m. by apply elem_of_map_to_list.
  - intros [m Hm]. exists (m, c). split; [done|]. by apply elem_of_map_to_list.
Qed.

Lemma get_color_keeps (name_colors : gmap str colour) (m : str)
    (draw : nat → nat) (n : str) (c : colour) :
  name_colors !! n = Some c →
  (_get_color_for_sender name_colors m draw).2 !! n = Some c.
Proof.
  intros Hn. unfold _get_color_for_sender.
  destruct (name_colors !! m) eqn:Hm; [done|]. cbn [fst snd].
  rewrite lookup_insert_ne; [done|]. intros ->. congruence.
Qed.

Lemma colour_senders_keeps (calls : list (str * (nat → nat)))
    (name_colors : gmap str colour) (n : str) (c : colour) :
  name_colors !! n = Some c → colour_senders calls name_colors !! n = Some c.
Proof.
  revert name_colors. induction calls as [|[m draw] calls IH]; intros nc Hn; [done|].
  cbn. apply IH. by apply get_color_keeps.
Qed.

Lemma get_color_stored (name_colors : gmap str colour) (n : str)
    (draw : nat → nat) :
  (_get_color_for_sender name_colors n draw).2 !! n
  = Some (_get_color_for_sender name_colors n draw).1.
Proof.
  unfold _get_color_for_sender.
  destruct (name_colors !! n) eqn:Hn; [done|]. cbn [fst snd].
  apply lookup_insert_eq.
Qed.

(** The chosen name is not empty and has no blanks around it. *)
Lemma chosen_name_stripped dialog now :
  _prompt_for_username dialog now ≠ []
  ∧ strip (_prompt_for_username dialog now) = _prompt_for_username dialog now.
Proof.
  unfold _prompt_for_username.
  destruct (made_up_name now) as (Hfix & _ & _).
  assert (lit "User-" ++ str_of_int (now mod 100000) ≠ []) as Hne.
  { by change (lit "User-") with (85 :: [115; 101; 114; 45])%N. }
  destruct dialog as [value|]; [|done].
  destruct (strip value) as [|c v] eqn:Hv; [done|].
  split; [done|]. by rewrite <- Hv, strip_idemp.
Qed.

(** *** Properties of the user name and of the colours *)

(** X6.  The user name is never empty and never has blanks around it:
    [_prompt_for_username] gives the stripped text of the dialog when that
    is not empty, and otherwise (the dialog was cancelled, or left empty or
    blank) the made-up name [User-<n>] with [n] the time modulo 100000,
    which has no blank, no colon and can be encoded. *)
Theorem username_is_never_blank dialog now :
  let u := _prompt_for_username dialog now in
  u ≠ [] ∧ strip u = u
  ∧ (∀ value, dialog = Some value → strip value ≠ [] → u = strip value)
  ∧ ((dialog = None ∨ ∃ value, dialog = Some value ∧ strip value = []) →
     u = lit "User-" ++ str_of_int (now mod 100000)
     ∧ (58%N ∉ u) ∧ forallb encodable_char u = true).
Proof.
  intros u. subst u. unfold _prompt_for_username.
  destruct (made_up_name now) as (Hfix & Hcolon & Henc).
  assert (lit "User-" ++ str_of_int (now mod 100000) ≠ []) as Hne.
  { by change (lit "User-") with (85 :: [115; 101; 114; 45])%N. }
  destruct dialog as [value|].
  - destruct (strip value) as [|c v] eqn:Hv.
    + split; [exact Hne|]. split; [exact Hfix|]. split.
      * intros value' [= <-] Hv'. congruence.
      * intros _. done.
    + split; [done|]. split; [by rewrite <- Hv, strip_idemp|]. split.
      * intros value' [= <-] _. done.
      * intros [Hnone|(v' & [= <-] & Hv')]; [done|congruence].
  - split; [exact Hne|]. split; [exact Hfix|]. split.
    + intros value' Hsome. done.
    + intros _. done.
Qed.

(** The theorem on a cancelled dialog and on a name typed with blanks. *)
Lemma username_is_never_blank_witness :
  _prompt_for_username None 1730642400 = lit "User-42400"
  ∧ _prompt_for_username (Some (lit "  alice ")) 1730642400 = lit "alice".
Proof.
  destruct (username_is_never_blank None 1730642400) as (_ & _ & _ & Hnone).
  destruct (username_is_never_blank (Some (lit "  alice ")) 1730642400)
    as (_ & _ & Hsome & _).
  split.
  - destruct Hnone as (Hu & _); [by left|]. rewrite Hu. vm_compute. reflexivity.
  - rewrite (Hsome (lit "  alice ")).
    + vm_compute. reflexivity.
    + reflexivity.
    + vm_compute. discriminate.
Defined.

(** X7.  A sender keeps its colour: once [_get_color_for_sender] has given
    a sender a colour, that colour stays stored under the sender however
    many other senders are coloured afterwards, and a later call for the
    sender gives the same colour again without storing anything. *)
Theorem sender_keeps_its_colour (name_colors : gmap str colour) (n : str)
    (draw : nat → nat) (calls : list (str * (nat → nat))) (draw' : nat → nat) :
  let c := (_get_color_for_sender name_colors n draw).1 in
  let later := colour_senders calls (_get_color_for_sender name_colors n draw).2 in
  later !! n = Some c
  ∧ _get_color_for_sender later n draw' = (c, later).
Proof.
  intros c later.
  assert (later !! n = Some c) as Hl.
  { apply colour_senders_keeps, get_color_stored. }
  split; [done|]. unfold _get_color_for_sender. by rewrite Hl.
Qed.

(** X8.  A colour for a sender without one is taken from the palette, and
    it is a colour no other sender has unless all six draws made for it
    (the first and five more) fell on colours in use. *)
Theorem new_colour_is_unused_unless_six_draws_fail
    (name_colors : gmap str colour) (n : str) (draw : nat → nat) :
  name_colors !! n = None →
  let c := (_get_color_for_sender name_colors n draw).1 in
  c ∈ pastel_palette
  ∧ ((∃ m, name_colors !! m = Some c) →
     ∀ j, j ≤ 5 → ∃ m, name_colors !! m = Some (choice (draw j))).
Proof.
  intros Hn c. subst c. unfold _get_color_for_sender. rewrite Hn. cbn [fst].
  split; [apply redraw_in_palette, choice_in_palette|].
  intros Hused%used_colour j Hj.
  apply redraw_used in Hused as [H0 Hrest].
  apply used_colour.
  destruct (decide (j = 0)) as [->|Hne]; [done|]. apply Hrest. lia.
Qed.

(** The theorem for a second sender whose first draw falls on the colour
    of the first sender and whose second draw does not. *)
Lemma new_colour_is_unused_unless_six_draws_fail_witness :
  let name_colors : gmap str colour := {[ lit "alice" := (255, 235, 238)%N ]} in
  let c := (_get_color_for_sender name_colors (lit "bob")
              (λ k, match k with 0 => 1 | _ => 4 end)).1 in
  c = (227, 242, 253)%N ∧ c ∈ pastel_palette.
Proof.
  intros name_colors c.
  destruct (new_colour_is_unused_unless_six_draws_fail name_colors (lit "bob")
              (λ k, match k with 0 => 1 | _ => 4 end)) as [Hin _].
  - vm_compute. reflexivity.
  - split; [vm_compute; reflexivity|exact Hin].
Defined.

End DisplayFacts.

(** ** Rules for statements about method bodies *)

Module TripleRules.
Import Py Triple.

Section rules.
Context {St : Type}.
Implicit Types P I : St → Prop.

Lemma triple_conseq {A} P P' (m : M St A) (Q Q' : result A → St → Prop) :
  (∀ st, P st → P' st) → triple P' m Q' → (∀ r st, Q' r st → Q r st) →
  triple P m Q.
Proof. intros HP Hm HQ st Hst. apply HQ, Hm, HP, Hst. Qed.

Lemma triple_bind {A B} P (R : A → St → Prop) (m : M St A) (k : A → M St B)
    (Q : result B → St → Prop) :
  triple P m (λ r st, match r with
                      | Return a => R a st
                      | Raise e => Q (Raise e) st
                      end) →
  (∀ a, triple (R a) (k a) Q) →
  triple P (m ≫= k) Q.
Proof.
  intros Hm Hk st Hst. rewrite run_bind. specialize (Hm st Hst).
  destruct (m st) as [[a|e] st']; cbn in Hm; [by apply Hk|done].
Qed.

Lemma triple_get {A} P (k : St → M St A) (Q : result A → St → Prop) :
  (∀ st0, triple (λ st, P st ∧ st = st0) (k st0) Q) →
  triple P (get ≫= k) Q.
Proof. intros Hk st Hst. rewrite run_bind. cbn. by apply (Hk st). Qed.

Lemma triple_try {A} P (R : exn → St → Prop) (m : M St A) (h : exn → M St A)
    (Q : result A → St → Prop) :
  triple P m (λ r st, match r with
                      | Return a => Q (Return a) st
                      | Raise e => R e st
                      end) →
  (∀ e, triple (R e) (h e) Q) →
  triple P (try_except m h) Q.
Proof.
  intros Hm Hh st Hst. rewrite run_try. specialize (Hm st Hst).
  destruct (m st) as [[a|e] st']; cbn in Hm; [done|by apply Hh].
Qed.

(** *** Bodies that keep a property of the state, however they end *)

Lemma keeps_bind {A B} I (m : M St A) (k : A → M St B) :
  triple I m (λ _, I) → (∀ a, triple I (k a) (λ _, I)) →
  triple I (m ≫= k) (λ _, I).
Proof.
  intros Hm Hk. apply (triple_bind I (λ _, I)); [|done].
  intros st Hst. specialize (Hm st Hst). by destruct (m st) as [[a|e] st'].
Qed.

Lemma keeps_try {A} I (m : M St A) (h : exn → M St A) :
  triple I m (λ _, I) → (∀ e, triple I (h e) (λ _, I)) →
  triple I (try_except m h) (λ _, I).
Proof.
  intros Hm Hh. apply (triple_try I (λ _, I)); [|done].
  intros st Hst. specialize (Hm st Hst). by destruct (m st) as [[a|e] st'].
Qed.

Lemma keeps_ret {A} I (a : A) : triple I (mret a) (λ _, I).
Proof. by intros st Hst. Qed.

Lemma keeps_get {A} I (k : St → M St A) :
  (∀ st0, triple (λ st, I st ∧ st = st0) (k st0) (λ _, I)) →
  triple I (get ≫= k) (λ _, I).
Proof. apply triple_get. Qed.

Lemma keeps_modify I (f : St → St) :
  (∀ st, I st → I (f st)) → triple I (modify f) (λ _, I).
Proof. intros Hf st Hst. by apply Hf. Qed.

Lemma keeps_for_each {A} I (l : list A) (body : A → M St unit) :
  (∀ x, x ∈ l → triple I (body x) (λ _, I)) →
  triple I (for_each l body) (λ _, I).
Proof.
  induction l as [|x l IH]; intros Hbody; [by intros st Hst|].
  cbn [for_each]. apply keeps_bind.
  - apply Hbody. by left.
  - intros _. apply IH. intros y Hy. apply Hbody. by right.
Qed.

(** A loop whose property changes as the list is used up. *)
Lemma triple_for_each {A} (I : list A → St → Prop) (E : St → Prop)
    (l : list A) (body : A → M St unit) :
  (∀ x l', triple (I (x :: l')) (body x)
             (λ r st, match r with Return _ => I l' st | Raise _ => E st end)) →
  triple (I l) (for_each l body)
    (λ r st, match r with Return _ => I [] st | Raise _ => E st end).
Proof.
  intros Hbody. induction l as [|x l IH]; [by intros st Hst|].
  cbn [for_each]. apply (triple_bind _ (λ _, I l)); [apply Hbody|].
  intros _. apply IH.
Qed.

End rules.
End TripleRules.

(** ** More about the server *)

Module ServerMore.
Import Text Py Server ServerWords Triple TripleRules.
Import TextFacts TextMore Utf8Facts ServerFacts Scenario.

(** *** What each method leaves, case by case *)

Lemma getpeername_state s st : (getpeername s st).2 = st.
Proof.
  unfold getpeername. rewrite run_bind. cbn.
  case_decide; [done|]. by destruct (peernames st !! s).
Qed.

Lemma cleaned_forgotten s line st :
  cleaned s (set_gui_log line (set_client_names (delete s (client_names st)) st))
  = cleaned s (set_gui_log line st).
Proof. destruct st. server_state. by rewrite delete_delete_eq. Qed.

Lemma disconnection_spec s st addr :
  s ∉ closed_sockets st → peernames st !! s = Some addr →
  _handle_client_disconnection s st
  = let gone := cleaned s (logged (lit "Client disconnected: " ++ addr) st) in
    match client_names st !! s with
    | Some (c :: u) =>
        let leave_message := SYS_PREFIX ++ (c :: u) ++ lit " left" in
        match encode leave_message with
        | Some b => (Return tt, enqueue_all b (logged leave_message gone))
        | None => (Raise UnicodeEncodeError, logged leave_message gone)
        end
    | _ => (Return tt, gone)
    end.
Proof.
  intros Hc Hp. unfold _handle_client_disconnection, logged.
  rewrite run_bind. cbn. rewrite run_bind. cbn. rewrite run_bind.
  rewrite (getpeername_open _ s addr); [|exact Hc|exact Hp].
  rewrite run_bind. cbn. rewrite run_bind.
  rewrite cleanup_client_socket_spec, cleaned_forgotten.
  destruct (client_names st !! s) as [[|c u]|] eqn:Hn; [done| |done].
  rewrite run_bind. cbn.
  destruct (encode (SYS_PREFIX ++ c :: u ++ lit " left")) as [b|] eqn:He.
  - by rewrite (broadcast_message_spec _ b).
  - by rewrite broadcast_message_raises.
Qed.

Lemma disconnection_unavailable s st :
  peer_unavailable s st →
  ∃ e, _handle_client_disconnection s st = (Raise e, forgotten s st)
       ∧ getpeername s st = (Raise e, st).
Proof.
  intros Hu. unfold _handle_client_disconnection.
  destruct (getpeername_unavailable s (forgotten s st)) as [e He]; [exact Hu|].
  exists e. rewrite run_bind. cbn. rewrite run_bind. cbn. rewrite run_bind.
  fold (forgotten s st). rewrite He. split; [done|].
  revert He. unfold getpeername. rewrite !run_bind. cbn.
  case_decide; [by intros [= <-]|].
  destruct (peernames st !! s); [done|by intros [= <-]].
Qed.

Lemma registration_spec s st text username :
  startswith NAME_PREFIX text = true →
  match strip (drop (length NAME_PREFIX) text) with
  | [] => getpeername s st = (Return username, st)
  | c :: u => username = c :: u
  end →
  _handle_name_registration s text st
  = let join_message := SYS_PREFIX ++ username ++ lit " joined" in
    match encode join_message with
    | Some b => (Return tt, enqueue_all b (logged join_message (named s username st)))
    | None => (Raise UnicodeEncodeError, logged join_message (named s username st))
    end.
Proof.
  intros Hs Hu. unfold _handle_name_registration, logged, named.
  rewrite Hs, run_bind.
  destruct (strip (drop (length NAME_PREFIX) text)) as [|c u];
    [rewrite Hu|subst username];
    (cbn; rewrite run_bind; cbn; rewrite run_bind; cbn;
     match goal with
     | |- context [encode ?m] => destruct (encode m) as [b|] eqn:He
     end;
     [by rewrite (broadcast_message_spec _ b)|by rewrite broadcast_message_raises]).
Qed.

Lemma registration_without_peer s st text e :
  startswith NAME_PREFIX text = true →
  strip (drop (length NAME_PREFIX) text) = [] →
  getpeername s st = (Raise e, st) →
  _handle_name_registration s text st = (Raise e, st).
Proof.
  intros Hs Hu He. unfold _handle_name_registration.
  by rewrite Hs, run_bind, Hu, He.
Qed.

Lemma accept_new_client_spec c addr st :
  _accept_new_client (Return (c, addr)) st = (Return tt, with_new_client c addr st).
Proof. done. Qed.

Lemma accept_new_client_fails e st :
  _accept_new_client (Raise e) st
  = (Return tt, logged (lit "Failed to accept connection: " ++ exn_str e) st).
Proof. done. Qed.

Lemma flush_one_spec (c : sock) (sent : sock → bytes → option exn) st :
  try_except
    (st ← get;
     match message_queues st !! c with
     | Some (message_bytes :: rest) =>
         modify (λ st, set_message_queues
                         (<[c := rest]> (message_queues st)) st) ;;
         send c message_bytes (sent c message_bytes)
     | _ => mret tt
     end)
    (λ _, modify (λ st, set_exceptional_sockets
                          (exceptional_sockets st ++ [c]) st)) st
  = (Return tt, flushed sent st c).
Proof.
  unfold flushed, send_fails, next_message, send. py_run.
  destruct (message_queues st !! c) as [[|m rest]|] eqn:Hq; py_run; [done| |done].
  case_decide as Hc; py_run.
  { case_bool_decide; [done|contradiction]. }
  destruct (sent c m) as [e|]; py_run; repeat case_bool_decide; cbn; done.
Qed.

Lemma handle_writable_spec ws sent st :
  _handle_writable_sockets ws sent st = (Return tt, foldl (flushed sent) st ws).
Proof.
  unfold _handle_writable_sockets. revert st.
  induction ws as [|c ws IH]; intros st; [done|].
  cbn [for_each foldl]. by rewrite run_bind, flush_one_spec, IH.
Qed.

(** *** The tables stay consistent *)

Lemma consistent_spec st :
  consistent st ↔
  NoDup (input_sockets st) ∧ NoDup (output_sockets st)
  ∧ server_socket st ∈ input_sockets st
  ∧ (server_socket st ∉ output_sockets st)
  ∧ (server_socket st ∉ exceptional_sockets st)
  ∧ (∀ t, t ∈ input_sockets st → t = server_socket st ∨ t ∈ output_sockets st)
  ∧ (∀ t, t ∈ output_sockets st →
          t ∈ input_sockets st ∧ is_Some (message_queues st !! t))
  ∧ (∀ t, is_Some (message_queues st !! t) → t ∈ output_sockets st)
  ∧ (∀ t, is_Some (client_names st !! t) → is_Some (message_queues st !! t))
  ∧ (∀ t, t ∈ input_sockets st → t ∉ closed_sockets st).
Proof.
  unfold consistent. rewrite !Forall_forall. unfold map_Forall, is_Some.
  repeat (apply and_iff_compat_l || apply and_iff_compat_r).
  split.
  - intros (H3 & H4 & H5).
    split; [by intros t [q Hq]; eapply H3|].
    split; [by intros t [q Hq]; eapply H4|done].
  - intros (H3 & H4 & H5).
    split; [by intros t q Hq; eapply H3; eexists|].
    split; [by intros t q Hq; eapply H4; eexists|done].
Qed.

Lemma tracked_has_queue ss W U st s :
  tables_ok ss W U st → s ≠ ss → s ∈ input_sockets st →
  is_Some (message_queues st !! s).
Proof.
  intros (Hss & Hc & _) Hne Hs. apply consistent_spec in Hc.
  destruct Hc as (_ & _ & _ & _ & _ & H6 & H7 & _).
  destruct (H6 s Hs) as [->|Ho]; [by subst|]. by apply H7.
Qed.

(** A state that differs only in what is queued, named or logged, or in the
    sockets marked for cleanup. *)
Lemma tables_ok_fields ss W U st st' :
  server_socket st' = server_socket st →
  input_sockets st' = input_sockets st →
  output_sockets st' = output_sockets st →
  closed_sockets st' = closed_sockets st →
  (server_socket st ∈ exceptional_sockets st' →
   server_socket st ∈ exceptional_sockets st) →
  (∀ t, is_Some (message_queues st' !! t) ↔ is_Some (message_queues st !! t)) →
  (∀ t, is_Some (client_names st' !! t) →
        is_Some (client_names st !! t) ∨ is_Some (message_queues st !! t)) →
  tables_ok ss W U st → tables_ok ss W U st'.
Proof.
  intros Hss Hi Ho Hcl Hex Hq Hn. unfold tables_ok.
  rewrite !consistent_spec, Hss, Hi, Ho, Hcl.
  intros (? & (H1 & H2 & H3 & H4 & H5 & H6 & H7 & H8 & H9 & H10) & HW & HU).
  split; [done|]. split; [|done].
  split; [done|]. split; [done|]. split; [done|]. split; [done|].
  split; [by intros ?%Hex|]. split; [done|].
  split; [by intros t Ht; split; [|apply Hq]; apply H7|].
  split; [by intros t Ht%Hq; apply H8|].
  split; [|done].
  intros t Ht. apply Hq. destruct (Hn t Ht) as [?|?]; [by apply H9|done].
Qed.

Lemma elem_of_list_remove_first_1 s t l : t ∈ list_remove_first s l → t ∈ l.
Proof.
  induction l as [|y l IH]; cbn; [done|].
  case_decide; [by right|]. rewrite !elem_of_cons. intros [?|?]; auto.
Qed.

Lemma elem_of_list_remove_first s t l :
  NoDup l → t ∈ list_remove_first s l ↔ t ∈ l ∧ t ≠ s.
Proof.
  induction 1 as [|y l Hy Hl IH]; cbn.
  - rewrite elem_of_nil. tauto.
  - case_decide as Hs; rewrite !elem_of_cons.
    + subst y. split.
      * intros Ht. split; [by right|]. by intros ->.
      * intros [[->|Ht] Hne]; done.
    + rewrite IH. split.
      * intros [->|[? ?]]; [split; [by left|done]|split; [by right|done]].
      * intros [[->|?] ?]; [by left|by right].
Qed.

Lemma NoDup_list_remove_first s l : NoDup l → NoDup (list_remove_first s l).
Proof.
  induction 1 as [|y l Hy Hl IH]; cbn; [constructor|].
  case_decide; [done|]. constructor; [|done].
  by intros ?%elem_of_list_remove_first_1.
Qed.

Lemma tables_ok_cleaned ss W U st s :
  s ≠ ss → (s ∈ W ∨ s ∉ U) →
  tables_ok ss W U st → tables_ok ss W U (cleaned s st).
Proof.
  intros Hne HsU. unfold tables_ok. rewrite !consistent_spec.
  change (server_socket (cleaned s st)) with (server_socket st).
  change (input_sockets (cleaned s st))
    with (list_remove_first s (input_sockets st)).
  change (output_sockets (cleaned s st))
    with (list_remove_first s (output_sockets st)).
  change (exceptional_sockets (cleaned s st)) with (exceptional_sockets st).
  change (closed_sockets (cleaned s st)) with ({[s]} ∪ closed_sockets st).
  change (message_queues (cleaned s st)) with (delete s (message_queues st)).
  change (client_names (cleaned s st)) with (delete s (client_names st)).
  rewrite !Forall_forall.
  intros (Hss & (H1 & H2 & H3 & H4 & H5 & H6 & H7 & H8 & H9 & H10) & HW & HU).
  assert (∀ t, t ∈ list_remove_first s (input_sockets st)
               ↔ t ∈ input_sockets st ∧ t ≠ s) as Hin.
  { intros t. by apply elem_of_list_remove_first. }
  assert (∀ t, t ∈ list_remove_first s (output_sockets st)
               ↔ t ∈ output_sockets st ∧ t ≠ s) as Hout.
  { intros t. by apply elem_of_list_remove_first. }
  assert (∀ t, t ∈ U → t ≠ s) as HUs.
  { intros t Ht ->. destruct HsU as [Hs|Hs]; [|done].
    destruct (HU s Ht) as [? ?]. by destruct (HW s Hs). }
  split; [done|]. split; [|split].
  - split; [by apply NoDup_list_remove_first|].
    split; [by apply NoDup_list_remove_first|].
    split; [apply Hin; split; [done|congruence]|].
    split; [by intros [? _]%Hout|]. split; [done|].
    split.
    { intros t [Ht Hts]%Hin. destruct (H6 t Ht) as [?|?]; [by left|].
      right. by apply Hout. }
    split.
    { intros t [Ht Hts]%Hout. destruct (H7 t Ht) as [? ?].
      split; [by apply Hin|]. apply lookup_delete_is_Some. by split. }
    split.
    { intros t [Hts Ht]%lookup_delete_is_Some. apply Hout.
      split; [by apply H8|done]. }
    split.
    { intros t [Hts Ht]%lookup_delete_is_Some. apply lookup_delete_is_Some.
      split; [done|by apply H9]. }
    intros t [Ht Hts]%Hin [?%elem_of_singleton|?]%elem_of_union; [done|].
    by apply (H10 t).
  - intros t Ht. destruct (decide (t = s)) as [->|Hts].
    + right. apply elem_of_union. left. by apply elem_of_singleton.
    + destruct (HW t Ht) as [?|?]; [left; by apply Hin|].
      right. apply elem_of_union. by right.
  - intros t Ht. destruct (HU t Ht) as [? ?]. split.
    + by intros [? _]%Hin.
    + intros [?%elem_of_singleton|?]%elem_of_union; [|done]. by apply (HUs t).
Qed.

Lemma tables_ok_new_client ss W c addr st :
  tables_ok ss W [c] st → tables_ok ss W [] (with_new_client c addr st).
Proof.
  unfold tables_ok. rewrite !consistent_spec.
  change (server_socket (with_new_client c addr st)) with (server_socket st).
  change (input_sockets (with_new_client c addr st)) with (input_sockets st ++ [c]).
  change (output_sockets (with_new_client c addr st)) with (output_sockets st ++ [c]).
  change (exceptional_sockets (with_new_client c addr st)) with (exceptional_sockets st).
  change (closed_sockets (with_new_client c addr st)) with (closed_sockets st).
  change (message_queues (with_new_client c addr st))
    with (<[c := []]> (message_queues st)).
  change (client_names (with_new_client c addr st)) with (client_names st).
  rewrite !Forall_forall.
  intros (Hss & (H1 & H2 & H3 & H4 & H5 & H6 & H7 & H8 & H9 & H10) & HW & HU).
  destruct (HU c) as [Hci Hcc]; [by left|].
  assert (c ∉ output_sockets st) as Hco by (by intros [? _]%H7).
  assert (c ≠ server_socket st) as Hcs by congruence.
  split; [done|]. split; [|split].
  - split.
    { apply NoDup_app. split; [done|]. split; [|apply NoDup_singleton].
      by intros t Ht ->%list_elem_of_singleton. }
    split.
    { apply NoDup_app. split; [done|]. split; [|apply NoDup_singleton].
      by intros t Ht ->%list_elem_of_singleton. }
    split; [apply elem_of_app; by left|].
    split.
    { intros [?|?%list_elem_of_singleton]%elem_of_app; [done|congruence]. }
    split; [done|].
    split.
    { intros t [Ht|Ht]%elem_of_app; rewrite elem_of_app.
      - destruct (H6 t Ht); auto.
      - by right; right. }
    split.
    { intros t [Ht|Ht%list_elem_of_singleton]%elem_of_app;
        rewrite elem_of_app, lookup_insert_is_Some.
      - destruct (H7 t Ht) as [? ?]. split; [by left|].
        destruct (decide (c = t)); [by left|by right].
      - subst t. split; [right; by apply list_elem_of_singleton|by left]. }
    split.
    { intros t [->|[? Ht]]%lookup_insert_is_Some; apply elem_of_app.
      - right. by apply list_elem_of_singleton.
      - left. by apply H8. }
    split.
    { intros t Ht%H9. apply lookup_insert_is_Some.
      destruct (decide (c = t)); [by left|by right]. }
    intros t [Ht|Ht%list_elem_of_singleton]%elem_of_app; [by apply H10|by subst t].
  - intros t Ht. rewrite elem_of_app. destruct (HW t Ht); auto.
  - by intros t ?%elem_of_nil.
Qed.

Lemma tables_ok_unborn ss W U st : tables_ok ss W U st → tables_ok ss W [] st.
Proof.
  intros (? & ? & ? & ?). split; [done|]. split; [done|]. split; [done|constructor].
Qed.

Lemma tables_ok_waiting ss W U st : tables_ok ss W U st → tables_ok ss [] U st.
Proof.
  intros (? & ? & ? & ?). split; [done|]. split; [done|]. split; [constructor|done].
Qed.

Lemma tables_ok_logged ss W U line st :
  tables_ok ss W U st → tables_ok ss W U (logged line st).
Proof. apply tables_ok_fields; try done. by left. Qed.

Lemma tables_ok_forgotten ss W U s st :
  tables_ok ss W U st → tables_ok ss W U (forgotten s st).
Proof.
  apply tables_ok_fields; try done.
  intros t Ht.
  change (client_names (forgotten s st)) with (delete s (client_names st)) in Ht.
  apply lookup_delete_is_Some in Ht as [_ ?]. by left.
Qed.

Lemma tables_ok_named ss W U s username st :
  is_Some (message_queues st !! s) →
  tables_ok ss W U st → tables_ok ss W U (named s username st).
Proof.
  intros Hq. apply tables_ok_fields; try done.
  intros t Ht.
  change (client_names (named s username st))
    with (<[s := username]> (client_names st)) in Ht.
  apply lookup_insert_is_Some in Ht as [->|[_ ?]]; [by right|by left].
Qed.

Lemma tables_ok_enqueue_all ss W U b st :
  tables_ok ss W U st → tables_ok ss W U (enqueue_all b st).
Proof.
  apply tables_ok_fields; try done.
  - intros t. change (message_queues (enqueue_all b st))
      with ((λ q, q ++ [b]) <$> message_queues st).
    by rewrite lookup_fmap, fmap_is_Some.
  - by left.
Qed.

Lemma tables_ok_flushed ss W U sent c st :
  tables_ok ss W U st → tables_ok ss W U (flushed sent st c).
Proof.
  intros Hst. unfold flushed.
  destruct (message_queues st !! c) as [[|m rest]|] eqn:Hq; [done| |done].
  assert (c ≠ server_socket st) as Hne.
  { destruct Hst as (_ & Hc%consistent_spec & _).
    destruct Hc as (_ & _ & _ & H4 & _ & _ & _ & H8 & _).
    intros ->. apply H4, H8. by rewrite Hq. }
  assert (∀ t, is_Some (<[c := rest]> (message_queues st) !! t)
               ↔ is_Some (message_queues st !! t)) as Hdom.
  { intros t. rewrite lookup_insert_is_Some.
    destruct (decide (c = t)) as [->|?]; [rewrite Hq|].
    - split; [by eexists|by left].
    - split; [by intros [?|[_ ?]]|by right]. }
  destruct (send_fails sent st c); revert Hst;
    apply tables_ok_fields; try done; try (by left).
  intros [?|?%list_elem_of_singleton]%elem_of_app; [done|congruence].
Qed.

Lemma tables_ok_unmarked ss W U s st :
  tables_ok ss W U st →
  tables_ok ss W U
    (set_exceptional_sockets (list_remove_first s (exceptional_sockets st)) st).
Proof.
  apply tables_ok_fields; try done; [|by left].
  apply elem_of_list_remove_first_1.
Qed.

(** *** Each method keeps the tables consistent, however it ends *)

Section keeping.
Variables (ss : sock) (W U : list sock).

Lemma keeps_log line : triple (tables_ok ss W U) (log_message line) (λ _, (tables_ok ss W U)).
Proof. apply keeps_modify. intros st. apply tables_ok_logged. Qed.

Lemma keeps_getpeername s : triple (tables_ok ss W U) (getpeername s) (λ _, (tables_ok ss W U)).
Proof. intros st Hst. by rewrite getpeername_state. Qed.

Lemma keeps_broadcast message : triple (tables_ok ss W U) (_broadcast_message message) (λ _, (tables_ok ss W U)).
Proof.
  intros st Hst. destruct (encode message) as [b|] eqn:He.
  - rewrite (broadcast_message_spec _ b) by done. by apply tables_ok_enqueue_all.
  - by rewrite broadcast_message_raises.
Qed.

Lemma keeps_cleanup s :
  s ≠ ss → (s ∈ W ∨ s ∉ U) → triple (tables_ok ss W U) (_cleanup_client_socket s) (λ _, (tables_ok ss W U)).
Proof.
  intros Hne HsU st Hst. rewrite cleanup_client_socket_spec.
  by apply tables_ok_cleaned.
Qed.

Lemma keeps_disconnection s :
  s ≠ ss → (s ∈ W ∨ s ∉ U) →
  triple (tables_ok ss W U) (_handle_client_disconnection s) (λ _, (tables_ok ss W U)).
Proof.
  intros Hne HsU. unfold _handle_client_disconnection.
  apply keeps_get. intros st0.
  apply (triple_conseq _ (tables_ok ss W U) _ _ (λ _, (tables_ok ss W U))); [by intros st [? _]| |done].
  apply keeps_bind.
  { apply keeps_modify. intros st. apply tables_ok_forgotten. }
  intros _. apply keeps_bind; [apply keeps_getpeername|]. intros peer.
  apply keeps_bind; [apply keeps_log|]. intros _.
  apply keeps_bind; [by apply keeps_cleanup|]. intros _.
  destruct (client_names st0 !! s) as [[|c u]|]; try apply keeps_ret.
  apply keeps_bind; [apply keeps_log|]. intros _. apply keeps_broadcast.
Qed.

Lemma keeps_chat s text : triple (tables_ok ss W U) (_handle_chat_message s text) (λ _, (tables_ok ss W U)).
Proof.
  unfold _handle_chat_message.
  destruct (startswith MSG_PREFIX text); [|apply keeps_ret].
  apply keeps_bind; [apply keeps_getpeername|]. intros fallback.
  apply keeps_get. intros st0.
  apply (triple_conseq _ (tables_ok ss W U) _ _ (λ _, (tables_ok ss W U))); [by intros st [? _]| |done].
  apply keeps_bind; [apply keeps_log|]. intros _. apply keeps_broadcast.
Qed.

Lemma keeps_registration s text :
  triple (λ st, (tables_ok ss W U) st ∧ is_Some (message_queues st !! s))
    (_handle_name_registration s text) (λ _, (tables_ok ss W U)).
Proof.
  unfold _handle_name_registration.
  destruct (startswith NAME_PREFIX text); [|by intros st [? _]].
  apply (triple_bind _ (λ _ st, (tables_ok ss W U) st ∧ is_Some (message_queues st !! s))).
  { destruct (strip (drop (length NAME_PREFIX) text)) as [|c u].
    - intros st [Hst Hq]. pose proof (getpeername_state s st) as Heq.
      destruct (getpeername s st) as [[a|e] st']; cbn in *; by subst.
    - by intros st Hst. }
  intros username.
  apply (triple_bind _ (λ _, (tables_ok ss W U))).
  { intros st [Hst Hq]. by apply tables_ok_named. }
  intros _. apply keeps_bind; [apply keeps_log|]. intros _. apply keeps_broadcast.
Qed.

Lemma keeps_process s text :
  triple (λ st, (tables_ok ss W U) st ∧ is_Some (message_queues st !! s))
    (_process_client_message s text) (λ _, (tables_ok ss W U)).
Proof.
  unfold _process_client_message. apply triple_get. intros st0.
  destruct (client_names st0 !! s).
  - apply (triple_conseq _ (tables_ok ss W U) _ _ (λ _, (tables_ok ss W U))); [by intros st [[? _] _]| |done].
    apply keeps_chat.
  - apply (triple_conseq _ (λ st, tables_ok ss W U st
                                  ∧ is_Some (message_queues st !! s))
             _ _ (λ _, tables_ok ss W U)); [|apply keeps_registration|done].
    by intros st [? _].
Qed.

Lemma keeps_client_data s received :
  s ≠ ss → s ∈ W → triple (tables_ok ss W U) (_handle_client_data s received) (λ _, (tables_ok ss W U)).
Proof.
  intros Hne HsW. unfold _handle_client_data. apply keeps_try.
  2:{ intros e. apply keeps_bind; [apply keeps_log|]. intros _.
      apply keeps_disconnection; auto. }
  apply (triple_bind _ (λ _ st, (tables_ok ss W U) st ∧ s ∉ closed_sockets st)).
  { unfold recv. intros st Hst. rewrite run_bind. cbn.
    case_decide; [done|]. by destruct received. }
  intros [|x data].
  - apply (triple_conseq _ (tables_ok ss W U) _ _ (λ _, tables_ok ss W U));
      [by intros st [? _]| |done].
    apply keeps_disconnection; auto.
  - apply (triple_conseq _ (λ st, tables_ok ss W U st
                                  ∧ is_Some (message_queues st !! s))
             _ _ (λ _, tables_ok ss W U)); [|apply keeps_process|done].
    intros st [Hst Hc]. split; [done|].
    apply (tracked_has_queue ss W U); [done..|].
    destruct Hst as (_ & _ & HW & _). rewrite Forall_forall in HW.
    by destruct (HW s HsW).
Qed.

End keeping.

(** *** The three passes of a turn *)

Lemma keeps_readable ss readable accepted received :
  NoDup readable →
  triple (tables_ok ss readable (newcomer accepted))
    (_handle_readable_sockets readable accepted received)
    (λ _, tables_ok ss [] []).
Proof.
  intros Hnd. unfold _handle_readable_sockets.
  pose (I := λ (l : list sock) (st : ChatServer),
          NoDup l ∧ l ⊆ readable
          ∧ tables_ok ss readable
              (if decide (ss ∈ l) then newcomer accepted else []) st).
  apply (triple_conseq _ (I readable) _ _
           (λ r st, match r with
                    | Return _ => I [] st
                    | Raise _ => tables_ok ss [] [] st
                    end)).
  - intros st Hst. split; [done|]. split; [done|].
    case_decide; [done|]. by eapply tables_ok_unborn.
  - apply triple_for_each. unfold I. intros x l st (Hxl & Hsub & Hst).
    apply NoDup_cons in Hxl as [Hx Hl].
    assert (l ⊆ readable) as Hsub'.
    { intros t Ht. apply Hsub. by right. }
    assert (x ∈ readable) as Hxr.
    { apply Hsub. by left. }
    rewrite run_bind. cbn.
    assert (server_socket st = ss) as Hss by apply Hst.
    destruct (decide (x = server_socket st)) as [Hxs|Hxs].
    + rewrite Hss in Hxs. subst x.
      rewrite decide_True in Hst by (by left).
      rewrite (decide_False (P := ss ∈ l)) by done.
      destruct accepted as [[c addr]|e].
      * rewrite accept_new_client_spec. cbn.
        split; [done|]. split; [done|]. by apply tables_ok_new_client.
      * rewrite accept_new_client_fails. cbn.
        split; [done|]. split; [done|]. by apply tables_ok_logged.
    + rewrite Hss in Hxs.
      assert (tables_ok ss readable
                (if decide (ss ∈ l) then newcomer accepted else []) st) as Hst'.
      { destruct (decide (ss ∈ l)) as [Hin|Hin].
        - rewrite decide_True in Hst; [done|by right].
        - rewrite decide_False in Hst; [done|].
          by intros [?|?]%elem_of_cons. }
      pose proof (keeps_client_data ss readable _ x (received x) Hxs Hxr st Hst')
        as Hrun.
      destruct (_handle_client_data x (received x) st) as [[[]|e] st1];
        cbn in Hrun |- *.
      * done.
      * by eapply tables_ok_unborn, tables_ok_waiting.
  - intros [[]|e] st; [|done].
    intros (_ & _ & Hst). by eapply tables_ok_unborn, tables_ok_waiting.
Qed.

Lemma tables_ok_foldl_flushed ss W U sent ws st :
  tables_ok ss W U st → tables_ok ss W U (foldl (flushed sent) st ws).
Proof.
  revert st. induction ws as [|c ws IH]; intros st Hst; [done|].
  cbn [foldl]. by apply IH, tables_ok_flushed.
Qed.

Lemma keeps_writable ss W U ws sent :
  triple (tables_ok ss W U) (_handle_writable_sockets ws sent)
    (λ _, tables_ok ss W U).
Proof.
  intros st Hst. rewrite handle_writable_spec. by apply tables_ok_foldl_flushed.
Qed.

Lemma keeps_exceptional ss marked :
  ss ∉ marked →
  triple (tables_ok ss [] []) (_handle_exceptional_sockets marked)
    (λ _, tables_ok ss [] []).
Proof.
  intros Hss. unfold _handle_exceptional_sockets.
  apply keeps_for_each. intros s Hs.
  apply keeps_bind.
  { apply keeps_disconnection; [by intros ->|]. right. by intros ?%elem_of_nil. }
  intros _. apply keeps_get. intros st0.
  apply (triple_conseq _ (tables_ok ss [] []) _ _ (λ _, tables_ok ss [] []));
    [by intros st [? _]| |done].
  case_decide; [|apply keeps_ret].
  apply keeps_modify. intros st. apply tables_ok_unmarked.
Qed.

Lemma keeps_passes ss readable writable marked accepted received sent :
  NoDup readable → ss ∉ marked →
  triple (tables_ok ss readable (newcomer accepted))
    (_handle_readable_sockets readable accepted received ;;
     _handle_writable_sockets writable sent ;;
     _handle_exceptional_sockets marked)
    (λ _, tables_ok ss [] []).
Proof.
  intros Hnd Hss.
  apply (triple_bind _ (λ _, tables_ok ss [] [])).
  { intros st Hst. pose proof (keeps_readable ss _ accepted received Hnd st Hst).
    by destruct (_handle_readable_sockets readable accepted received st)
      as [[[]|e] st']. }
  intros _. apply keeps_bind; [apply keeps_writable|].
  intros _. by apply keeps_exceptional.
Qed.

Lemma run_server_turn_selected readable writable marked accepted received sent st :
  _run_server_turn (Return (readable, writable, marked)) accepted received sent st
  = match (_handle_readable_sockets readable accepted received ;;
           _handle_writable_sockets writable sent ;;
           _handle_exceptional_sockets marked) st with
    | (Return a, st') => (Return a, st')
    | (Raise e, st') => (Return tt, logged (lit "Server error: " ++ exn_str e) st')
    end.
Proof. done. Qed.

Lemma run_server_turn_failed e accepted received sent st :
  _run_server_turn (Raise e) accepted received sent st
  = (Return tt, logged (lit "Server error: " ++ exn_str e) st).
Proof. done. Qed.

(** *** What can be encoded *)

Lemma encodable_app t1 t2 :
  forallb encodable_char (t1 ++ t2) = true
  ↔ forallb encodable_char t1 = true ∧ forallb encodable_char t2 = true.
Proof. by rewrite forallb_app, andb_true_iff. Qed.

Lemma encodable_lstrip t :
  forallb encodable_char t = true → forallb encodable_char (lstrip t) = true.
Proof.
  destruct (lstrip_split t) as (w & _ & Ht). rewrite Ht at 1.
  by intros [_ ?]%encodable_app.
Qed.

Lemma encodable_rstrip t :
  forallb encodable_char t = true → forallb encodable_char (rstrip t) = true.
Proof.
  destruct (rstrip_split t) as (w & _ & Ht). rewrite Ht at 1.
  by intros [? _]%encodable_app.
Qed.

Lemma encodable_strip t :
  forallb encodable_char t = true → forallb encodable_char (strip t) = true.
Proof. intros Ht. by apply encodable_rstrip, encodable_lstrip. Qed.

Lemma encodable_drop n t :
  forallb encodable_char t = true → forallb encodable_char (drop n t) = true.
Proof.
  rewrite <- (take_drop n t) at 1. by intros [_ ?]%encodable_app.
Qed.

Lemma encodable_encode t :
  forallb encodable_char t = true → ∃ b, encode t = Some b.
Proof. intros Ht. eexists. by apply encode_Some. Qed.

Lemma encodable_notice (p q : string) t :
  forallb encodable_char (lit p) = true →
  forallb encodable_char (lit q) = true →
  forallb encodable_char t = true →
  forallb encodable_char (lit p ++ t ++ lit q) = true.
Proof. intros Hp Hq Ht. rewrite !encodable_app. by repeat split. Qed.

(** *** Properties of the server proved for every state *)

(** X9.  One turn of the server loop keeps the connection tables
    consistent, and always returns: whatever the clients send and however
    the calls on the sockets end, provided [select] reports sockets of the
    lists it was given and [accept] gives a new socket. *)
Theorem turn_keeps_the_tables_consistent st selected accepted received sent :
  consistent st → select_contract st selected accepted →
  ∃ st', _run_server_turn selected accepted received sent st = (Return tt, st')
         ∧ consistent st' ∧ server_socket st' = server_socket st.
Proof.
  intros Hc [Hsel Hacc].
  destruct selected as [[[readable writable] marked]|e].
  - destruct Hsel as (Hnd & Hr & Hx).
    assert (tables_ok (server_socket st) readable (newcomer accepted) st) as Hst.
    { split; [done|]. split; [done|]. split.
      - apply Forall_forall. intros t Ht. left. by apply Hr.
      - destruct accepted as [[c addr]|e]; [|constructor].
        constructor; [done|constructor]. }
    assert (server_socket st ∉ marked) as Hss.
    { intros Hin%Hx. apply consistent_spec in Hc.
      by destruct Hc as (_ & _ & _ & _ & H5 & _). }
    pose proof (keeps_passes _ readable writable marked accepted received sent
                  Hnd Hss st Hst) as Hrun.
    rewrite run_server_turn_selected.
    destruct ((_handle_readable_sockets readable accepted received ;;
               _handle_writable_sockets writable sent ;;
               _handle_exceptional_sockets marked) st) as [[[]|e] st1];
      cbn in Hrun.
    + exists st1. by destruct Hrun as (? & ? & _).
    + eexists. split; [done|].
      apply (tables_ok_logged _ _ _ (lit "Server error: " ++ exn_str e)) in Hrun.
      by destruct Hrun as (? & ? & _).
  - rewrite run_server_turn_failed. eexists. split; [done|].
    assert (tables_ok (server_socket st) [] [] st) as Hst.
    { split; [done|]. split; [done|]. split; constructor. }
    apply (tables_ok_logged _ _ _ (lit "Server error: " ++ exn_str e)) in Hst.
    by destruct Hst as (? & ? & _).
Qed.

Lemma turn_keeps_the_tables_consistent_witness :
  ∃ st',
    _run_server_turn (Return ([0; 1], [2], [])) (Return (3, lit "('127.0.0.1', 50003)"))
      (λ _, Return (ascii_bytes "MSG:hi")) (λ _ _, None) alice_and_bob
    = (Return tt, st')
    ∧ consistent st' ∧ server_socket st' = server_socket alice_and_bob.
Proof.
  apply turn_keeps_the_tables_consistent.
  - unfold consistent. apply (bool_decide_unpack _). vm_compute. exact I.
  - unfold select_contract. apply (bool_decide_unpack _). vm_compute. exact I.
Defined.

(** *** Disconnection *)

Lemma getpeername_same s st st' :
  closed_sockets st' = closed_sockets st → peernames st' = peernames st →
  (getpeername s st').1 = (getpeername s st).1.
Proof.
  intros Hc Hp. unfold getpeername. rewrite !run_bind. cbn. rewrite Hc, Hp.
  case_decide; [done|]. by destruct (peernames st !! s).
Qed.

Lemma forgotten_twice s line st :
  forgotten s (logged line (forgotten s st)) = logged line (forgotten s st).
Proof.
  destruct st. unfold forgotten, logged. server_state.
  by rewrite delete_delete_eq.
Qed.

(** X10.  The first disconnection of a connected client: the socket is
    taken out of both socket lists and closed, its queue and its name are
    deleted, one line is logged, and if the client had a name every
    remaining queue gets the leave notice, which is logged too.  Nothing is
    sent, and the list of sockets marked for cleanup is left as it is. *)
Theorem disconnection_drops_the_client_and_tells_the_others st s addr :
  s ∉ closed_sockets st → peernames st !! s = Some addr →
  (∀ c u, client_names st !! s = Some (c :: u) →
          is_Some (encode (SYS_PREFIX ++ (c :: u) ++ lit " left"))) →
  ∃ st',
    _handle_client_disconnection s st = (Return tt, st')
    ∧ input_sockets st' = list_remove_first s (input_sockets st)
    ∧ output_sockets st' = list_remove_first s (output_sockets st)
    ∧ closed_sockets st' = {[s]} ∪ closed_sockets st
    ∧ client_names st' = delete s (client_names st)
    ∧ exceptional_sockets st' = exceptional_sockets st
    ∧ wire st' = wire st
    ∧ match client_names st !! s with
      | Some (c :: u) =>
          ∃ b, encode (SYS_PREFIX ++ (c :: u) ++ lit " left") = Some b
               ∧ message_queues st'
                 = (λ q, q ++ [b]) <$> delete s (message_queues st)
               ∧ gui_log st'
                 = gui_log st ++ [lit "Client disconnected: " ++ addr;
                                  SYS_PREFIX ++ (c :: u) ++ lit " left"]
      | _ =>
          message_queues st' = delete s (message_queues st)
          ∧ gui_log st' = gui_log st ++ [lit "Client disconnected: " ++ addr]
      end.
Proof.
  intros Hc Hp Henc. rewrite (disconnection_spec s st addr) by done. cbv zeta.
  destruct (client_names st !! s) as [[|c u]|] eqn:Hn.
  - eexists. split; [done|]. by repeat split.
  - destruct (Henc c u eq_refl) as [b Hb]. rewrite Hb.
    eexists. split; [done|]. repeat (split; [done|]).
    exists b. split; [done|]. split; [done|].
    cbn. by rewrite <- app_assoc.
  - eexists. split; [done|]. by repeat split.
Qed.

Lemma disconnection_drops_the_client_and_tells_the_others_witness :
  ∃ st',
    _handle_client_disconnection 1 alice_and_bob = (Return tt, st')
    ∧ input_sockets st' = [0; 2]
    ∧ client_names st' !! 1 = None
    ∧ message_queues st' !! 2 = Some [ascii_bytes "SYS:alice left"].
Proof.
  destruct (disconnection_drops_the_client_and_tells_the_others
              alice_and_bob 1 (lit "('127.0.0.1', 50001)"))
    as (st' & Hrun & Hi & _ & _ & Hn & _ & _ & Hq).
  - vm_compute. intros H. discriminate H.
  - vm_compute. reflexivity.
  - intros c u Hcu. vm_compute in Hcu. injection Hcu as <- <-.
    vm_compute. by eexists.
  - exists st'. split; [exact Hrun|]. split; [by rewrite Hi|].
    split; [by rewrite Hn; vm_compute|].
    change (client_names alice_and_bob !! 1) with (Some (lit "alice")) in Hq.
    destruct Hq as (b & Hb & Hq & _). rewrite Hq.
    vm_compute in Hb. injection Hb as <-. vm_compute. reflexivity.
Defined.

(** X11.  When the peer address of a socket cannot be read (the socket is
    closed, or the system has no peer for it) the disconnection handler
    raises after forgetting the name and before any cleanup: the socket
    stays in the lists with its queue.  The handler of received data does
    not contain the failure either: it logs it and raises it again. *)
Theorem disconnection_without_peer_address_only_forgets_the_name st s :
  peer_unavailable s st →
  ∃ e,
    getpeername s st = (Raise e, st)
    ∧ _handle_client_disconnection s st = (Raise e, forgotten s st)
    ∧ ∀ received,
        s ∈ closed_sockets st ∨ received = Return [] →
        _handle_client_data s received st
        = (Raise e,
           logged (lit "Error handling client data: " ++ exn_str e)
             (forgotten s st)).
Proof.
  intros Hu. destruct (disconnection_unavailable s st Hu) as (e & Hd & Hp).
  exists e. split; [done|]. split; [done|].
  intros received Hr.
  assert (∀ st1 : ChatServer,
            closed_sockets st1 = closed_sockets st →
            peernames st1 = peernames st →
            _handle_client_disconnection s st1 = (Raise e, forgotten s st1))
    as Hagain.
  { intros st1 Hc1 Hp1.
    destruct (disconnection_unavailable s st1) as (e1 & Hd1 & Hp1').
    { unfold peer_unavailable. by rewrite Hc1, Hp1. }
    pose proof (getpeername_same s st st1 Hc1 Hp1) as Hsame.
    rewrite Hp, Hp1' in Hsame. cbn in Hsame. by injection Hsame as ->. }
  unfold _handle_client_data. rewrite run_try, run_bind.
  unfold recv at 1. rewrite run_bind. cbn.
  destruct (decide (s ∈ closed_sockets st)) as [Hc|Hc].
  - cbn. rewrite run_bind. cbn.
    assert (e = EBADF) as ->.
    { rewrite (getpeername_closed st s Hc) in Hp. by injection Hp as <-. }
    by rewrite Hagain.
  - destruct Hr as [?|Hr]; [done|]. subst received. cbn. rewrite Hd.
    rewrite run_bind. cbn. rewrite Hagain by done.
    f_equal. apply forgotten_twice.
Qed.

Lemma disconnection_without_peer_address_only_forgets_the_name_witness :
  ∃ e,
    getpeername 5 alice_and_bob = (Raise e, alice_and_bob)
    ∧ _handle_client_disconnection 5 alice_and_bob
      = (Raise e, forgotten 5 alice_and_bob).
Proof.
  destruct (disconnection_without_peer_address_only_forgets_the_name
              alice_and_bob 5) as (e & He & Hd & _).
  - right. vm_compute. reflexivity.
  - by exists e.
Defined.

(** *** The writable pass *)

Lemma flushed_queue sent st c x :
  message_queues (flushed sent st c) !! x
  = if decide (x = c) then tail <$> message_queues st !! x
    else message_queues st !! x.
Proof.
  unfold flushed.
  destruct (message_queues st !! c) as [[|m rest]|] eqn:Hq.
  1,3: case_decide; [subst; by rewrite Hq|done].
  assert (message_queues
            (if send_fails sent st c
             then set_exceptional_sockets (exceptional_sockets st ++ [c])
                    (set_wire (wire st ++ [(c, m)])
                       (set_message_queues (<[c:=rest]> (message_queues st)) st))
             else set_wire (wire st ++ [(c, m)])
                    (set_message_queues (<[c:=rest]> (message_queues st)) st))
          = <[c := rest]> (message_queues st)) as ->.
  { by destruct (send_fails sent st c). }
  case_decide.
  - subst. by rewrite lookup_insert_eq, Hq.
  - by rewrite lookup_insert_ne.
Qed.

Lemma flushed_wire sent st c :
  wire (flushed sent st c)
  = wire st ++ match next_message st c with
               | Some m => [(c, m)]
               | None => []
               end.
Proof.
  unfold flushed, next_message.
  destruct (message_queues st !! c) as [[|m rest]|] eqn:Hq; cbn;
    rewrite ?app_nil_r; try done.
  by destruct (send_fails sent st c).
Qed.

Lemma flushed_marked sent st c :
  exceptional_sockets (flushed sent st c)
  = exceptional_sockets st ++ (if send_fails sent st c then [c] else []).
Proof.
  unfold flushed, send_fails, next_message.
  destruct (message_queues st !! c) as [[|m rest]|] eqn:Hq; cbn;
    rewrite ?app_nil_r; try done.
  destruct (bool_decide (c ∈ closed_sockets st) || bool_decide (is_Some (sent c m)));
    cbn; by rewrite ?app_nil_r.
Qed.

Lemma flushed_rest sent st c :
  server_socket (flushed sent st c) = server_socket st
  ∧ input_sockets (flushed sent st c) = input_sockets st
  ∧ output_sockets (flushed sent st c) = output_sockets st
  ∧ client_names (flushed sent st c) = client_names st
  ∧ closed_sockets (flushed sent st c) = closed_sockets st
  ∧ gui_log (flushed sent st c) = gui_log st
  ∧ peernames (flushed sent st c) = peernames st.
Proof.
  unfold flushed.
  destruct (message_queues st !! c) as [[|m rest]|]; try done.
  by destruct (send_fails sent st c).
Qed.

Lemma next_message_flushed sent st c x :
  x ≠ c → next_message (flushed sent st c) x = next_message st x.
Proof.
  intros Hx. unfold next_message. by rewrite flushed_queue, decide_False.
Qed.

Lemma send_fails_flushed sent st c x :
  x ≠ c → send_fails sent (flushed sent st c) x = send_fails sent st x.
Proof.
  intros Hx. unfold send_fails. rewrite next_message_flushed by done.
  destruct (flushed_rest sent st c) as (_ & _ & _ & _ & -> & _). done.
Qed.

Lemma omap_ext_in {A B} (f g : A → option B) (l : list A) :
  (∀ x, x ∈ l → f x = g x) → omap f l = omap g l.
Proof.
  induction l as [|x l IH]; intros Hfg; [done|]. cbn.
  rewrite (Hfg x) by by left. rewrite IH; [done|].
  intros y Hy. apply Hfg. by right.
Qed.

Lemma foldl_flushed_spec ws sent st :
  NoDup ws →
  let st' := foldl (flushed sent) st ws in
  (∀ c, message_queues st' !! c
        = if decide (c ∈ ws) then tail <$> message_queues st !! c
          else message_queues st !! c)
  ∧ wire st' = wire st ++ omap (λ c, pair c <$> next_message st c) ws
  ∧ exceptional_sockets st'
    = exceptional_sockets st ++ List.filter (send_fails sent st) ws
  ∧ input_sockets st' = input_sockets st
  ∧ output_sockets st' = output_sockets st
  ∧ client_names st' = client_names st
  ∧ closed_sockets st' = closed_sockets st
  ∧ gui_log st' = gui_log st.
Proof.
  intros Hnd. revert st. induction Hnd as [|c ws Hc Hnd IH]; intros st.
  { cbn. rewrite !app_nil_r. by repeat split. }
  cbv zeta in IH |- *. cbn [foldl].
  destruct (IH (flushed sent st c)) as (Hq & Hw & Hm & Hi & Ho & Hn & Hcl & Hl).
  destruct (flushed_rest sent st c) as (_ & Hi1 & Ho1 & Hn1 & Hcl1 & Hl1 & _).
  split; [|split; [|split]].
  - intros x. rewrite Hq, flushed_queue.
    destruct (decide (x = c)) as [->|Hxc].
    + rewrite decide_False by done. rewrite decide_True; [done|by left].
    + destruct (decide (x ∈ ws)) as [Hx|Hx].
      * rewrite decide_True; [done|by right].
      * rewrite decide_False; [done|]. by intros [?|?]%elem_of_cons.
  - rewrite Hw, flushed_wire, <- app_assoc. f_equal. cbn [omap].
    rewrite (omap_ext_in _ (λ c0, pair c0 <$> next_message st c0)).
    + cbn. by destruct (next_message st c).
    + intros x Hx. rewrite next_message_flushed; [done|]. by intros ->.
  - rewrite Hm, flushed_marked, <- app_assoc. f_equal. cbn [List.filter].
    rewrite (filter_ext_in _ (send_fails sent st)).
    + cbn. by destruct (send_fails sent st c).
    + intros x Hx%list_elem_of_In. apply send_fails_flushed. by intros ->.
  - by rewrite Hi, Ho, Hn, Hcl, Hl.
Qed.

(** X12.  One pass over the writable sockets, each listed once, always
    returns.  Each socket with a non-empty queue has the head of its queue
    removed and handed to [send] exactly once, in the order of the list;
    the sockets whose [send] raised are appended to the sockets marked for
    cleanup, and their message is not put back.  Nothing else changes. *)
Theorem writable_pass_serves_each_socket_once ws sent st :
  NoDup ws →
  ∃ st',
    _handle_writable_sockets ws sent st = (Return tt, st')
    ∧ (∀ c, message_queues st' !! c
            = if decide (c ∈ ws) then tail <$> message_queues st !! c
              else message_queues st !! c)
    ∧ wire st' = wire st ++ omap (λ c, pair c <$> next_message st c) ws
    ∧ exceptional_sockets st'
      = exceptional_sockets st ++ List.filter (send_fails sent st) ws
    ∧ input_sockets st' = input_sockets st
    ∧ output_sockets st' = output_sockets st
    ∧ client_names st' = client_names st
    ∧ closed_sockets st' = closed_sockets st
    ∧ gui_log st' = gui_log st.
Proof.
  intros Hnd. eexists. split; [apply handle_writable_spec|].
  by apply foldl_flushed_spec.
Qed.

Lemma writable_pass_serves_each_socket_once_witness :
  ∃ st',
    _handle_writable_sockets [2; 1]
      (λ c _, if decide (c = 1) then Some EPIPE else None) alice_and_guest
    = (Return tt, st')
    ∧ wire st' = wire alice_and_guest
                 ++ [(2, ascii_bytes "SYS:alice joined");
                     (1, ascii_bytes "SYS:alice joined")]
    ∧ exceptional_sockets st' = [1]
    ∧ message_queues st' !! 1 = Some [].
Proof.
  destruct (writable_pass_serves_each_socket_once [2; 1]
              (λ c _, if decide (c = 1) then Some EPIPE else None) alice_and_guest)
    as (st' & Hrun & Hq & Hw & Hm & _).
  - apply (bool_decide_unpack _). vm_compute. exact I.
  - exists st'. split; [exact Hrun|]. split; [by rewrite Hw|].
    split; [by rewrite Hm|]. rewrite Hq. vm_compute. reflexivity.
Defined.

Lemma foldl_flushed_wire ws sent st :
  consistent st →
  ∃ new,
    wire (foldl (flushed sent) st ws) = wire st ++ new
    ∧ Forall (λ p, p.1 ∈ output_sockets st ∧ p.1 ∉ closed_sockets st) new.
Proof.
  revert st. induction ws as [|c ws IH]; intros st Hst.
  { exists []. by rewrite app_nil_r. }
  cbn [foldl].
  assert (tables_ok (server_socket st) [] [] st) as Hok.
  { split; [done|]. split; [done|]. split; constructor. }
  apply (tables_ok_flushed _ _ _ sent c) in Hok as (_ & Hst1 & _).
  destruct (IH _ Hst1) as (new & Hw & Hnew).
  destruct (flushed_rest sent st c) as (_ & _ & Ho1 & _ & Hcl1 & _).
  rewrite Ho1, Hcl1 in Hnew. rewrite Hw, flushed_wire, <- app_assoc.
  eexists. split; [done|]. apply Forall_app. split; [|done].
  unfold next_message.
  destruct (message_queues st !! c) as [[|m rest]|] eqn:Hq; cbn; [done| |done].
  constructor; [|done]. cbn. apply consistent_spec in Hst.
  destruct Hst as (_ & _ & _ & _ & _ & _ & H7 & H8 & _ & H10).
  assert (c ∈ output_sockets st) as Hc by (apply H8; by rewrite Hq).
  split; [done|]. by apply H10, H7.
Qed.

(** X13.  With consistent tables, the writable pass hands messages only to
    sockets that are written to and open: no [send] is made on a closed
    socket. *)
Theorem writable_pass_sends_on_open_sockets_only ws sent st :
  consistent st →
  ∃ st' new,
    _handle_writable_sockets ws sent st = (Return tt, st')
    ∧ wire st' = wire st ++ new
    ∧ Forall (λ p, p.1 ∈ output_sockets st ∧ p.1 ∉ closed_sockets st) new.
Proof.
  intros Hst. destruct (foldl_flushed_wire ws sent st Hst) as (new & Hw & Hnew).
  eexists _, new. split; [apply handle_writable_spec|]. by split.
Qed.

Lemma writable_pass_sends_on_open_sockets_only_witness :
  ∃ st' new,
    _handle_writable_sockets [1; 2; 9] (λ _ _, None) alice_and_guest
    = (Return tt, st')
    ∧ wire st' = wire alice_and_guest ++ new
    ∧ Forall (λ p, p.1 ∈ output_sockets alice_and_guest
                   ∧ p.1 ∉ closed_sockets alice_and_guest) new.
Proof.
  apply writable_pass_sends_on_open_sockets_only.
  unfold consistent. apply (bool_decide_unpack _). vm_compute. exact I.
Defined.

(** *** Registration *)

Lemma process_unnamed st s text :
  client_names st !! s = None →
  _process_client_message s text st = _handle_name_registration s text st.
Proof.
  intros Hn. unfold _process_client_message. rewrite run_bind. cbn.
  by rewrite Hn.
Qed.

Lemma received_text_encodable data :
  forallb encodable_char (strip (decode_ignore data)) = true.
Proof. apply encodable_strip, decode_encodable. Qed.

Lemma name_announce_spec st s data :
  client_names st !! s = None → s ∉ closed_sockets st → data ≠ [] →
  startswith NAME_PREFIX (strip (decode_ignore data)) = true →
  strip (drop (length NAME_PREFIX) (strip (decode_ignore data))) ≠ [] →
  let username := strip (drop (length NAME_PREFIX) (strip (decode_ignore data))) in
  ∃ b,
    encode (SYS_PREFIX ++ username ++ lit " joined") = Some b
    ∧ _handle_client_data s (Return data) st
      = (Return tt,
         enqueue_all b (logged (SYS_PREFIX ++ username ++ lit " joined")
                          (named s username st))).
Proof.
  intros Hn Hc Hd Hs Hu username.
  destruct (encodable_encode (SYS_PREFIX ++ username ++ lit " joined")) as [b Hb].
  { apply (encodable_notice "SYS:" " joined"); [done..|].
    apply encodable_strip, encodable_drop, received_text_encodable. }
  exists b. split; [done|].
  rewrite handle_client_data_dispatch, run_try, process_unnamed by done.
  rewrite (registration_spec s st _ username) by
    (try done; subst username;
     by destruct (strip (drop (length NAME_PREFIX) (strip (decode_ignore data))))).
  cbv zeta. by rewrite Hb.
Qed.

(** X14.  A chunk from a client without a name whose text, decoded and
    stripped, begins with [NAME:] and goes on with more than blanks
    registers the rest, stripped, as the name, logs the join notice and
    puts it on every queue, the newcomer's included.  The handler returns:
    a decoded name can always be encoded again. *)
Theorem announced_name_is_registered_stripped st s data :
  client_names st !! s = None → s ∉ closed_sockets st → data ≠ [] →
  startswith NAME_PREFIX (strip (decode_ignore data)) = true →
  strip (drop (length NAME_PREFIX) (strip (decode_ignore data))) ≠ [] →
  let username := strip (drop (length NAME_PREFIX) (strip (decode_ignore data))) in
  ∃ st' b,
    _handle_client_data s (Return data) st = (Return tt, st')
    ∧ encode (SYS_PREFIX ++ username ++ lit " joined") = Some b
    ∧ client_names st' = <[s := username]> (client_names st)
    ∧ message_queues st' = (λ q, q ++ [b]) <$> message_queues st
    ∧ gui_log st' = gui_log st ++ [SYS_PREFIX ++ username ++ lit " joined"]
    ∧ input_sockets st' = input_sockets st
    ∧ wire st' = wire st.
Proof.
  intros Hn Hc Hd Hs Hu username.
  destruct (name_announce_spec st s data) as (b & Hb & Hrun); [done..|].
  eexists _, b. split; [exact Hrun|]. by repeat split.
Qed.

Lemma announced_name_is_registered_stripped_witness :
  ∃ st' b,
    _handle_client_data 2 (Return (ascii_bytes " NAME: bob  ")) alice_and_guest
    = (Return tt, st')
    ∧ encode (lit "SYS:bob joined") = Some b
    ∧ client_names st' !! 2 = Some (lit "bob")
    ∧ message_queues st' !! 1 = Some [ascii_bytes "SYS:alice joined"; b].
Proof.
  destruct (announced_name_is_registered_stripped alice_and_guest 2
              (ascii_bytes " NAME: bob  "))
    as (st' & b & Hrun & Hb & Hn & Hq & _).
  - vm_compute. reflexivity.
  - vm_compute. intros H. discriminate H.
  - vm_compute. intros H. discriminate H.
  - vm_compute. reflexivity.
  - vm_compute. intros H. discriminate H.
  - exists st', b. split; [exact Hrun|]. split; [exact Hb|].
    split; [rewrite Hn; vm_compute; reflexivity|].
    rewrite Hq. vm_compute in Hb. injection Hb as <-. vm_compute. reflexivity.
Defined.

(** X15.  A name announce with nothing but blanks after [NAME:] registers
    the peer address of the socket as the name.  When the peer address
    cannot be read, no name is registered, the failure is logged, and it is
    raised again out of the handler of received data: the client stays
    connected. *)
Theorem blank_name_registers_the_peer_address st s data :
  client_names st !! s = None → s ∉ closed_sockets st → data ≠ [] →
  startswith NAME_PREFIX (strip (decode_ignore data)) = true →
  strip (drop (length NAME_PREFIX) (strip (decode_ignore data))) = [] →
  (∀ addr b,
     peernames st !! s = Some addr →
     encode (SYS_PREFIX ++ addr ++ lit " joined") = Some b →
     _handle_client_data s (Return data) st
     = (Return tt,
        enqueue_all b (logged (SYS_PREFIX ++ addr ++ lit " joined")
                         (named s addr st))))
  ∧ (peernames st !! s = None →
     _handle_client_data s (Return data) st
     = (Raise ENOTCONN,
        logged (lit "Error handling client data: " ++ exn_str ENOTCONN) st)).
Proof.
  intros Hn Hc Hd Hs Hu. split.
  - intros addr b Hp Hb.
    rewrite handle_client_data_dispatch, run_try, process_unnamed by done.
    rewrite (registration_spec s st _ addr).
    + cbv zeta. by rewrite Hb.
    + done.
    + rewrite Hu. by apply getpeername_open.
  - intros Hp.
    assert (∀ st1 : ChatServer,
              closed_sockets st1 = closed_sockets st →
              peernames st1 = peernames st →
              getpeername s st1 = (Raise ENOTCONN, st1)) as Hpeer.
    { intros st1 Hc1 Hp1. unfold getpeername. rewrite run_bind. cbn.
      rewrite Hc1, Hp1, decide_False by done. by rewrite Hp. }
    rewrite handle_client_data_dispatch, run_try, process_unnamed by done.
    rewrite (registration_without_peer s st _ ENOTCONN) by auto.
    rewrite run_bind. cbn.
    rewrite (disconnection_without_peer s _ ENOTCONN); [done|done|].
    by apply Hpeer.
Qed.

Lemma blank_name_registers_the_peer_address_witness :
  _handle_client_data 2 (Return (ascii_bytes "NAME:  ")) alice_and_guest
  = (Return tt,
     enqueue_all (ascii_bytes "SYS:('127.0.0.1', 50002) joined")
       (logged (lit "SYS:('127.0.0.1', 50002) joined")
          (named 2 (lit "('127.0.0.1', 50002)") alice_and_guest))).
Proof.
  apply (blank_name_registers_the_peer_address alice_and_guest 2
           (ascii_bytes "NAME:  ")).
  - vm_compute. reflexivity.
  - vm_compute. intros H. discriminate H.
  - vm_compute. intros H. discriminate H.
  - vm_compute. reflexivity.
  - vm_compute. reflexivity.
  - vm_compute. reflexivity.
  - vm_compute. reflexivity.
Defined.

(** *** A read that fails *)

(** X16.  A [recv] that raises ends the connection only while the peer
    address of the socket can still be read.  Then the client (whose name,
    if it has one, can be encoded) is dropped exactly as when [recv] gives
    no bytes, the others are told in the same way, and the only difference
    is one more line in the log, written before the lines of the
    disconnection.  When the peer address cannot
    be read either, as after a reset of the connection, the line of the
    failed read is logged, the name of the client is forgotten, and the
    error of [getpeername()] is raised out of [_handle_client_data]: the
    socket stays in the lists, open, with its queue, nobody is told that
    the client left, and the turn of the server loop ends there with the
    line "Server error: [Errno 107] Transport endpoint is not connected",
    the sockets after it in the answer of [select] not being served. *)
Theorem failed_read_outcomes st s e :
  s ∉ closed_sockets st →
  (∀ addr,
     peernames st !! s = Some addr →
     (∀ c u, client_names st !! s = Some (c :: u) →
             is_Some (encode (SYS_PREFIX ++ (c :: u) ++ lit " left"))) →
     ∃ st0 lines,
       _handle_client_data s (Return []) st = (Return tt, st0)
       ∧ gui_log st0 = gui_log st ++ lines
       ∧ _handle_client_data s (Raise e) st
         = (Return tt,
            set_gui_log
              (gui_log st ++ [lit "Error handling client data: " ++ exn_str e]
               ++ lines) st0))
  ∧ (peernames st !! s = None →
     ∃ st',
       _handle_client_data s (Raise e) st = (Raise ENOTCONN, st')
       ∧ st' = forgotten s (logged (lit "Error handling client data: " ++ exn_str e) st)
       ∧ input_sockets st' = input_sockets st
       ∧ output_sockets st' = output_sockets st
       ∧ message_queues st' = message_queues st
       ∧ closed_sockets st' = closed_sockets st
       ∧ client_names st' = delete s (client_names st)
       ∧ ∀ others writable marked accepted received sent,
           s ≠ server_socket st → received s = Raise e →
           _run_server_turn (Return (s :: others, writable, marked))
             accepted received sent st
           = (Return tt, logged (lit "Server error: " ++ exn_str ENOTCONN) st')).
Proof.
  intros Hc.
  assert (_handle_client_data s (Raise e) st
          = _handle_client_disconnection s
              (logged (lit "Error handling client data: " ++ exn_str e) st))
    as Hfailed.
  { unfold _handle_client_data. rewrite run_try, run_bind.
    unfold recv at 1. rewrite run_bind. cbn. by rewrite decide_False by done. }
  split.
  - intros addr Hp Henc.
    assert (_handle_client_data s (Return []) st = _handle_client_disconnection s st
            ∨ ∃ e1 st1, _handle_client_disconnection s st = (Raise e1, st1)) as Hempty.
    { unfold _handle_client_data. rewrite run_try, run_bind.
      unfold recv at 1. rewrite run_bind. cbn. rewrite decide_False by done. cbn.
      destruct (_handle_client_disconnection s st) as [[[]|e1] st1]; [by left|].
      right. by eexists _, _. }
    rewrite Hfailed.
    rewrite (disconnection_spec s (logged _ st) addr) by done.
    rewrite (disconnection_spec s st addr) in Hempty by done.
    change (client_names (logged (lit "Error handling client data: " ++ exn_str e) st))
      with (client_names st).
    cbv zeta in Hempty |- *.
    destruct (client_names st !! s) as [[|c u]|] eqn:Hn.
    + destruct Hempty as [->|(? & ? & [=])].
      eexists _, [_]. split; [done|]. split; [done|].
      destruct st. unfold logged. server_state. by rewrite <- !app_assoc.
    + destruct (Henc c u eq_refl) as [b Hb]. rewrite Hb in Hempty |- *.
      destruct Hempty as [->|(? & ? & [=])].
      eexists _, [_; _]. split; [done|]. split.
      { cbn. by rewrite <- app_assoc. }
      destruct st. unfold logged. server_state. by rewrite <- !app_assoc.
    + destruct Hempty as [->|(? & ? & [=])].
      eexists _, [_]. split; [done|]. split; [done|].
      destruct st. unfold logged. server_state. by rewrite <- !app_assoc.
  - intros Hp.
    assert (_handle_client_data s (Raise e) st
            = (Raise ENOTCONN,
               forgotten s (logged (lit "Error handling client data: " ++ exn_str e) st)))
      as Hrun.
    { rewrite Hfailed.
      destruct (disconnection_unavailable s
                  (logged (lit "Error handling client data: " ++ exn_str e) st))
        as (e1 & -> & Hpeer); [by right|].
      revert Hpeer. unfold getpeername. rewrite run_bind. cbn.
      rewrite decide_False by done. rewrite Hp. by intros [= <-]. }
    eexists. split; [exact Hrun|]. split; [done|].
    do 5 (split; [done|]).
    intros others writable marked accepted received sent Hs Hr.
    rewrite run_server_turn_selected. rewrite run_bind.
    unfold _handle_readable_sockets. cbn [for_each]. rewrite run_bind, run_bind.
    cbn. rewrite decide_False by done. by rewrite Hr, Hrun.
Qed.

(** The theorem on two runs: a read that fails on the intact connection of
    alice, who is dropped like a client that left; and a read that fails
    after her connection has been reset, which leaves her socket in the
    lists. *)
Lemma failed_read_outcomes_witness :
  (∃ st0 lines,
     _handle_client_data 1 (Return []) alice_and_bob = (Return tt, st0)
     ∧ gui_log st0 = gui_log alice_and_bob ++ lines
     ∧ _handle_client_data 1 (Raise Histories.EAGAIN) alice_and_bob
       = (Return tt,
          set_gui_log
            (gui_log alice_and_bob
             ++ [lit "Error handling client data: " ++ exn_str Histories.EAGAIN]
             ++ lines) st0))
  ∧ (∃ st',
       _handle_client_data 1 (Raise Histories.ECONNRESET) Histories.alice_reset
       = (Raise ENOTCONN, st')
       ∧ input_sockets st' = [0; 1; 2]
       ∧ (1 ∉ closed_sockets st')
       ∧ message_queues st' = message_queues Histories.alice_reset
       ∧ client_names st' !! 1 = None
       ∧ gui_log st'
         = gui_log Histories.alice_reset
           ++ [lit "Error handling client data: [Errno 104] Connection reset by peer"]).
Proof.
  split.
  - destruct (failed_read_outcomes alice_and_bob 1 Histories.EAGAIN) as [Hintact _].
    + vm_compute. intros H. discriminate H.
    + apply (Hintact (lit "('127.0.0.1', 50001)")).
      * vm_compute. reflexivity.
      * intros c u Hcu. vm_compute in Hcu. injection Hcu as <- <-.
        vm_compute. by eexists.
  - destruct (failed_read_outcomes Histories.alice_reset 1 Histories.ECONNRESET)
      as [_ Hreset].
    + vm_compute. intros H. discriminate H.
    + destruct Hreset as (st' & Hrun & -> & _).
      * vm_compute. reflexivity.
      * eexists. split; [exact Hrun|].
        split; [vm_compute; reflexivity|].
        split; [vm_compute; intros H; discriminate H|].
        split; [vm_compute; reflexivity|].
        split; vm_compute; reflexivity.
Defined.

(** *** A closed socket left in a list given to [select] *)

Lemma stalled_select ready st :
  stalled st →
  (select ready st).1
  = Raise (ValueError (lit "file descriptor cannot be a negative integer (-1)")).
Proof.
  intros Hst. unfold select. rewrite run_bind. cbn.
  by rewrite decide_True.
Qed.

Lemma set_gui_log_same st : set_gui_log (gui_log st) st = st.
Proof. by destruct st. Qed.

Lemma logged_many line lines st :
  set_gui_log (gui_log (logged line st) ++ lines) (logged line st)
  = set_gui_log (gui_log st ++ line :: lines) st.
Proof. destruct st. unfold logged. server_state. by rewrite <- app_assoc. Qed.

Lemma stalled_turns turns st :
  stalled st →
  _run_server_turns turns st
  = (Return tt,
     set_gui_log
       (gui_log st
        ++ replicate (length turns)
             (lit "Server error: file descriptor cannot be a negative integer (-1)"))
       st).
Proof.
  revert st. induction turns as [|t turns IH]; intros st Hst.
  { cbn. rewrite app_nil_r. by rewrite set_gui_log_same. }
  cbn [_run_server_turns length replicate]. rewrite run_bind. cbn [get].
  cbv beta iota. rewrite run_bind.
  rewrite stalled_select, run_server_turn_failed by done.
  rewrite IH by done. by rewrite logged_many.
Qed.

(** X17.  Once a closed socket is in one of the three lists given to
    [select], the server does nothing any more: every turn of its loop ends
    at [select], which refuses the closed socket, and only adds a line to
    the log.  No connection is accepted, nothing is read and nothing is
    sent, for as many turns as the loop makes. *)
Theorem closed_socket_in_a_list_stalls_the_server turns st :
  stalled st →
  ∃ st',
    _run_server_turns turns st = (Return tt, st')
    ∧ st' = set_gui_log
              (gui_log st
               ++ replicate (length turns)
                    (lit "Server error: file descriptor cannot be a negative integer (-1)"))
              st
    ∧ wire st' = wire st ∧ message_queues st' = message_queues st
    ∧ input_sockets st' = input_sockets st ∧ stalled st'.
Proof.
  intros Hst. eexists. split; [by apply stalled_turns|]. by repeat split.
Qed.

Lemma closed_socket_in_a_list_stalls_the_server_witness :
  let st := after (_handle_writable_sockets [1] (λ _ _, Some EPIPE) ;;
                   _handle_client_data 1 (Return [])) alice_and_guest in
  let t := {| ready := Return ([0; 2], [2], []);
              accept_answer := Return (3, lit "('127.0.0.1', 50003)");
              recv_answer := λ _, Return (ascii_bytes "NAME:bob");
              send_answer := λ _ _, None |} in
  ∃ st',
    _run_server_turns [t; t] st = (Return tt, st')
    ∧ wire st' = wire st ∧ message_queues st' = message_queues st
    ∧ input_sockets st' = input_sockets st.
Proof.
  intros st t.
  destruct (closed_socket_in_a_list_stalls_the_server [t; t] st)
    as (st' & Hrun & _ & Hw & Hq & Hi & _).
  - unfold stalled. apply (bool_decide_unpack _). vm_compute. exact I.
  - by exists st'.
Defined.

Lemma empty_read_closes s st addr :
  s ∉ closed_sockets st → peernames st !! s = Some addr →
  let st' := (_handle_client_data s (Return []) st).2 in
  s ∈ closed_sockets st' ∧ exceptional_sockets st' = exceptional_sockets st.
Proof.
  intros Hc Hp. cbv zeta.
  assert (∀ X : gset sock, s ∈ {[s]} ∪ X) as Hin.
  { intros X. apply elem_of_union. left. by apply elem_of_singleton. }
  destruct (_handle_client_data s (Return []) st) as [r st'] eqn:Hrun.
  cbn [snd]. revert Hrun.
  unfold _handle_client_data. rewrite run_try, run_bind.
  unfold recv at 1. rewrite run_bind. cbn. rewrite decide_False by done. cbn.
  rewrite (disconnection_spec s st addr) by done. cbv zeta.
  destruct (client_names st !! s) as [[|c u]|].
  1,3: intros ?; simplify_eq; split; [apply Hin|done].
  match goal with
  | |- context [encode ?t] => destruct (encode t)
  end.
  { intros ?; simplify_eq; split; [apply Hin|done]. }
  rewrite run_bind. cbn.
  match goal with
  | |- context [_handle_client_disconnection s ?X] =>
      destruct (disconnection_unavailable s X) as (e1 & -> & _);
        [left; apply Hin|]
  end.
  intros ?; simplify_eq; split; [apply Hin|done].
Qed.

(** X18.  A [send] that fails marks the socket for cleanup, and the socket
    leaves that list only when [select] reports it.  If the client
    disconnects first, the socket is closed while it is still marked: from
    then on a closed socket is in a list given to [select], and the server
    is stalled. *)
Theorem failed_send_then_disconnection_stalls_the_server st s m rest e sent addr :
  message_queues st !! s = Some (m :: rest) → sent s m = Some e →
  s ∉ closed_sockets st → peernames st !! s = Some addr →
  let st' := after (_handle_writable_sockets [s] sent ;;
                    _handle_client_data s (Return [])) st in
  s ∈ exceptional_sockets st' ∧ s ∈ closed_sockets st' ∧ stalled st'.
Proof.
  intros Hq Hs Hc Hp st'. subst st'. unfold after.
  rewrite run_bind, handle_writable_spec. cbn [foldl].
  destruct (flushed_rest sent st s) as (_ & _ & _ & _ & Hcl & _ & Hpn).
  destruct (empty_read_closes s (flushed sent st s) addr) as [Hclosed Hmarked].
  { by rewrite Hcl. }
  { by rewrite Hpn. }
  cbv zeta in Hclosed, Hmarked.
  assert (s ∈ exceptional_sockets
                (_handle_client_data s (Return []) (flushed sent st s)).2) as Hin.
  { rewrite Hmarked, flushed_marked. apply elem_of_app. right.
    unfold send_fails, next_message. rewrite Hq. cbn. rewrite Hs.
    rewrite (bool_decide_eq_true_2 (is_Some (Some e))) by done.
    rewrite orb_true_r. by left. }
  split; [done|]. split; [done|].
  apply Exists_exists. exists s. split; [|done].
  apply elem_of_app. right. apply elem_of_app. by right.
Qed.

Lemma failed_send_then_disconnection_stalls_the_server_witness :
  let st' := after (_handle_writable_sockets [1] (λ _ _, Some EPIPE) ;;
                    _handle_client_data 1 (Return [])) alice_and_guest in
  1 ∈ exceptional_sockets st' ∧ 1 ∈ closed_sockets st' ∧ stalled st'.
Proof.
  apply (failed_send_then_disconnection_stalls_the_server alice_and_guest 1
           (ascii_bytes "SYS:alice joined") [] EPIPE (λ _ _, Some EPIPE)
           (lit "('127.0.0.1', 50001)")).
  - vm_compute. reflexivity.
  - reflexivity.
  - vm_compute. intros H. discriminate H.
  - vm_compute. reflexivity.
Defined.

End ServerMore.

(** ** The client and the server together *)

Module EndToEnd.
Import Text Py Display.
Import TextFacts TextMore Utf8Facts ServerFacts ClientFacts ClientMore.
Import DisplayFacts ServerWords ServerMore.

(** *** What the client puts on the wire *)

Lemma handshake_bytes u bu :
  encode u = Some bu →
  encode (Client.NAME_PREFIX ++ u) = Some (ascii_bytes "NAME:" ++ bu).
Proof. intros Hu. by apply (encode_app (lit "NAME:")). Qed.

Lemma message_bytes t bt :
  encode t = Some bt →
  encode (Client.MSG_PREFIX ++ t) = Some (ascii_bytes "MSG:" ++ bt).
Proof. intros Ht. by apply (encode_app (lit "MSG:")). Qed.

Lemma send_username_handshake_sent st s b :
  Client.client_socket st = Some s →
  s ∉ Client.closed_sockets st →
  encode (Client.NAME_PREFIX ++ Client.username st) = Some b →
  Client._send_username_handshake None st
  = (Return tt, Client.set_wire (Client.wire st ++ [(s, b)]) st).
Proof.
  intros Hs Hc He.
  unfold Client._send_username_handshake, Client.send, Client.print. py_run.
  rewrite He. py_run. rewrite Hs. py_run. by rewrite decide_False.
Qed.

(** *** What the server reads from it *)

Lemma name_chunk_decoded u bu :
  encode u = Some bu →
  strip (decode_ignore (ascii_bytes "NAME:" ++ bu)) = Server.NAME_PREFIX ++ rstrip u.
Proof.
  intros Hu.
  rewrite (text_after_prefix "NAME:" 78%N [65; 77; 69; 58]%N) by done.
  by rewrite (decode_encode_all u).
Qed.

Lemma msg_chunk_decoded t bt :
  encode t = Some bt →
  strip (decode_ignore (ascii_bytes "MSG:" ++ bt)) = Server.MSG_PREFIX ++ rstrip t.
Proof.
  intros Ht.
  rewrite (text_after_prefix "MSG:" 77%N [83; 71; 58]%N) by done.
  by rewrite (decode_encode_all t).
Qed.

Lemma rstrip_strip s : rstrip (strip s) = strip s.
Proof. unfold strip. apply rstrip_idemp. Qed.

Lemma strip_length s : length (strip s) ≤ length s.
Proof.
  destruct (lstrip_split s) as (w1 & _ & H1).
  destruct (rstrip_split (lstrip s)) as (w2 & _ & H2).
  unfold strip. rewrite H1 at 2. rewrite H2 at 2.
  rewrite !length_app. lia.
Qed.

Lemma process_named st s old text :
  Server.client_names st !! s = Some old →
  Server._process_client_message s text st = Server._handle_chat_message s text st.
Proof.
  intros Hn. unfold Server._process_client_message. rewrite run_bind. cbn.
  by rewrite Hn.
Qed.

(** A message typed by a client named [u], sent, and relayed. *)
Lemma chat_relay cst cs sst s addr u :
  strip (Client.input_text cst) ≠ [] →
  forallb encodable_char (Client.input_text cst) = true →
  Client.client_socket cst = Some cs → cs ∉ Client.closed_sockets cst →
  Server.client_names sst !! s = Some u → s ∉ Server.closed_sockets sst →
  Server.peernames sst !! s = Some addr →
  forallb encodable_char u = true →
  let t := strip (Client.input_text cst) in
  ∃ b r cst1 sst1,
    Client.send_message None cst = (Return tt, cst1)
    ∧ Client.wire cst1 = Client.wire cst ++ [(cs, b)]
    ∧ Server._handle_client_data s (Return b) sst = (Return tt, sst1)
    ∧ Server.message_queues sst1 = (λ q, q ++ [r]) <$> Server.message_queues sst
    ∧ Server.client_names sst1 = Server.client_names sst
    ∧ decode_ignore r = Client.FROM_PREFIX ++ u ++ lit ":" ++ t
    ∧ encode (Client.MSG_PREFIX ++ t) = Some b
    ∧ encode (Server.FROM_PREFIX ++ u ++ lit ":" ++ t) = Some r.
Proof.
  intros Ht Henc Hcs Hcc Hn Hsc Hp Hu t.
  assert (forallb encodable_char t = true) as Hte by by apply encodable_strip.
  destruct (encodable_encode t Hte) as [bt Hbt].
  destruct (encodable_encode (Server.FROM_PREFIX ++ u ++ lit ":" ++ t)) as [r Hr].
  { rewrite !encodable_app. by repeat split. }
  exists (ascii_bytes "MSG:" ++ bt), r. eexists _, _.
  split.
  { apply (send_message_connected None cst cs); [done..|].
    by apply message_bytes. }
  split; [done|].
  assert (strip (decode_ignore (ascii_bytes "MSG:" ++ bt))
          = Server.MSG_PREFIX ++ t) as Htext.
  { rewrite (msg_chunk_decoded t) by done. subst t. by rewrite rstrip_strip. }
  assert (strip (drop (length Server.MSG_PREFIX) (Server.MSG_PREFIX ++ t)) = t)
    as Hcontent.
  { rewrite drop_app_length. subst t. apply strip_idemp. }
  split.
  { rewrite handle_client_data_dispatch, run_try; [|done|done].
    rewrite Htext, (process_named sst s u) by done.
    rewrite (handle_chat_message_spec sst s _ addr r).
    - done.
    - apply startswith_app.
    - done.
    - done.
    - by rewrite Hn, Hcontent. }
  split; [done|]. split; [done|].
  split; [by apply decode_encode_all|].
  split; [by apply message_bytes|done].
Qed.

(** *** Round trips *)

(** X19.  The handshake arrives: the name chosen at start-up, sent by
    [_send_username_handshake] and read by the server as one chunk from a
    connection without a name, is registered by the server exactly as the
    client has it. *)
Theorem handshake_registers_the_chosen_name dialog now cst cs sst s :
  let u := _prompt_for_username dialog now in
  Client.username cst = u →
  Client.client_socket cst = Some cs → cs ∉ Client.closed_sockets cst →
  forallb encodable_char u = true →
  Server.client_names sst !! s = None → s ∉ Server.closed_sockets sst →
  ∃ b cst' sst',
    Client._send_username_handshake None cst = (Return tt, cst')
    ∧ Client.wire cst' = Client.wire cst ++ [(cs, b)]
    ∧ Server._handle_client_data s (Return b) sst = (Return tt, sst')
    ∧ Server.client_names sst' !! s = Some u.
Proof.
  intros u Hname Hcs Hcc Hu Hn Hsc.
  destruct (chosen_name_stripped dialog now) as [Hne Hstrip]. fold u in Hne, Hstrip.
  destruct (encodable_encode u Hu) as [bu Hbu].
  assert (strip (decode_ignore (ascii_bytes "NAME:" ++ bu))
          = Server.NAME_PREFIX ++ rstrip u) as Htext by by apply name_chunk_decoded.
  assert (strip (drop (length Server.NAME_PREFIX)
                   (strip (decode_ignore (ascii_bytes "NAME:" ++ bu)))) = u)
    as Hreg.
  { by rewrite Htext, drop_app_length, strip_rstrip. }
  destruct (name_announce_spec sst s (ascii_bytes "NAME:" ++ bu))
    as (bj & _ & Hrun).
  - done.
  - done.
  - done.
  - rewrite Htext. apply startswith_app.
  - by rewrite Hreg.
  - rewrite Hreg in Hrun.
    exists (ascii_bytes "NAME:" ++ bu). eexists _, _.
    split.
    { apply (send_username_handshake_sent cst cs); [done..|].
      rewrite Hname. by apply handshake_bytes. }
    split; [done|]. split; [exact Hrun|].
    apply lookup_insert_eq.
Qed.

Lemma handshake_registers_the_chosen_name_witness :
  ∃ b cst' sst',
    Client._send_username_handshake None Scenario.connected_client
    = (Return tt, cst')
    ∧ Client.wire cst' = Client.wire Scenario.connected_client ++ [(7, b)]
    ∧ Server._handle_client_data 2 (Return b) Scenario.alice_and_guest
      = (Return tt, sst')
    ∧ Server.client_names sst' !! 2 = Some (lit "alice").
Proof.
  apply (handshake_registers_the_chosen_name (Some (lit " alice ")) 0
           Scenario.connected_client 7 Scenario.alice_and_guest 2).
  - vm_compute. reflexivity.
  - vm_compute. reflexivity.
  - vm_compute. intros H. discriminate H.
  - vm_compute. reflexivity.
  - vm_compute. reflexivity.
  - vm_compute. intros H. discriminate H.
Defined.

(** X20.  A chat message that travels in one chunk each way makes the
    round trip.  The condition is on the two reads: [recv] gives at most
    [RECEIVE_BUFFER_SIZE] = 1024 bytes, so the bytes of [MSG:<text>] must
    number at most 1024 and reach the server alone and whole in one read,
    and likewise the bytes of the relay at the client.  Then what the user
    typed, stripped, is sent with the prefix [MSG:], relayed by the server
    to every queue as [FROM:<name>:<text>], and shown by each client that
    receives the relay with the text as typed: as the client's own message
    where the registered name is the client's user name, as the message of
    that sender elsewhere.  This holds for a name without a colon and
    without blanks around it.  Of a longer message the reads give the
    first 1024 bytes only; nothing is said about it here. *)
Theorem chat_message_round_trip cst cs sst s addr u :
  strip (Client.input_text cst) ≠ [] →
  forallb encodable_char (Client.input_text cst) = true →
  Client.client_socket cst = Some cs → cs ∉ Client.closed_sockets cst →
  Server.client_names sst !! s = Some u → s ∉ Server.closed_sockets sst →
  Server.peernames sst !! s = Some addr →
  forallb encodable_char u = true → strip u = u → (58%N ∉ u) →
  let t := strip (Client.input_text cst) in
  (∀ b, encode (Client.MSG_PREFIX ++ t) = Some b →
        length b ≤ Server.RECEIVE_BUFFER_SIZE) →
  (∀ r, encode (Server.FROM_PREFIX ++ u ++ lit ":" ++ t) = Some r →
        length r ≤ Client.RECEIVE_BUFFER_SIZE) →
  ∃ b r cst1 sst1,
    Client.send_message None cst = (Return tt, cst1)
    ∧ Client.wire cst1 = Client.wire cst ++ [(cs, b)]
    ∧ take Server.RECEIVE_BUFFER_SIZE b = b
    ∧ Server._handle_client_data s
        (Return (take Server.RECEIVE_BUFFER_SIZE b)) sst = (Return tt, sst1)
    ∧ Server.message_queues sst1 = (λ q, q ++ [r]) <$> Server.message_queues sst
    ∧ take Client.RECEIVE_BUFFER_SIZE r = r
    ∧ ∀ cst2,
        Client._handle_incoming_message
          (decode_ignore (take Client.RECEIVE_BUFFER_SIZE r)) cst2
        = (Return tt,
           Client.set_scheduled
             (Client.scheduled cst2
              ++ [if decide (u = Client.username cst2)
                  then Client._append_own_message t
                  else Client._append_other_message u t]) cst2).
Proof.
  intros Ht Henc Hcs Hcc Hn Hsc Hp Hu Hstrip Hcolon t Hlb Hlr.
  destruct (chat_relay cst cs sst s addr u)
    as (b & r & cst1 & sst1 & Hsend & Hwire & Hrun & Hq & _ & Hr & Hb & Hrelay);
    [done..|].
  assert (take Server.RECEIVE_BUFFER_SIZE b = b) as Hwhole.
  { apply take_ge. by apply Hlb. }
  assert (take Client.RECEIVE_BUFFER_SIZE r = r) as Hwhole'.
  { apply take_ge. by apply Hlr. }
  exists b, r, cst1, sst1. rewrite Hwhole, Hwhole'. repeat (split; [done|]).
  intros cst2. rewrite Hr, incoming_relay by done.
  rewrite Hstrip. subst t. by rewrite strip_idemp.
Qed.

Lemma chat_message_round_trip_witness :
  ∃ b r cst1 sst1,
    Client.send_message None
      (Client.set_input_text (lit " hello there ") Scenario.connected_client)
    = (Return tt, cst1)
    ∧ Client.wire cst1 = Client.wire Scenario.connected_client ++ [(7, b)]
    ∧ Server._handle_client_data 1
        (Return (take Server.RECEIVE_BUFFER_SIZE b)) Scenario.alice_and_bob
      = (Return tt, sst1)
    ∧ Server.message_queues sst1
      = (λ q, q ++ [r]) <$> Server.message_queues Scenario.alice_and_bob
    ∧ Client._handle_incoming_message
        (decode_ignore (take Client.RECEIVE_BUFFER_SIZE r))
        Scenario.connected_client
      = (Return tt,
         Client.set_scheduled
           (Client.scheduled Scenario.connected_client
            ++ [Client._append_own_message (lit "hello there")])
           Scenario.connected_client).
Proof.
  destruct (chat_message_round_trip
              (Client.set_input_text (lit " hello there ") Scenario.connected_client)
              7 Scenario.alice_and_bob 1 (lit "('127.0.0.1', 50001)") (lit "alice"))
    as (b & r & cst1 & sst1 & Hsend & Hwire & _ & Hrun & Hq & _ & Hshow).
  - vm_compute. intros H. discriminate H.
  - vm_compute. reflexivity.
  - vm_compute. reflexivity.
  - vm_compute. intros H. discriminate H.
  - vm_compute. reflexivity.
  - vm_compute. intros H. discriminate H.
  - vm_compute. reflexivity.
  - vm_compute. reflexivity.
  - vm_compute. reflexivity.
  - apply (bool_decide_unpack _). vm_compute. exact I.
  - intros b Hb. vm_compute in Hb. injection Hb as <-.
    apply Nat.leb_le. vm_compute. reflexivity.
  - intros r Hr. vm_compute in Hr. injection Hr as <-.
    apply Nat.leb_le. vm_compute. reflexivity.
  - exists b, r, cst1, sst1. repeat (split; [done|]).
    by rewrite Hshow.
Defined.

(** X21.  A colon in the user name breaks the round trip, also for a
    message that travels in one chunk each way (the bytes of [MSG:<text>]
    and those of the relay number at most [RECEIVE_BUFFER_SIZE] = 1024 and
    are read alone and whole): the client cuts the relay at its first
    colon, so a message of the user [a:rest] is shown as a message of [a]
    with [rest:] in front of the text, on the sender's own window as
    everywhere else, and as an own message on the window of a user whose
    name is [a]. *)
Theorem colon_in_the_name_splits_the_relay cst cs sst s addr a rest :
  strip (Client.input_text cst) ≠ [] →
  forallb encodable_char (Client.input_text cst) = true →
  Client.client_socket cst = Some cs → cs ∉ Client.closed_sockets cst →
  Server.client_names sst !! s = Some (a ++ lit ":" ++ rest) →
  s ∉ Server.closed_sockets sst →
  Server.peernames sst !! s = Some addr →
  forallb encodable_char (a ++ lit ":" ++ rest) = true → (58%N ∉ a) →
  let t := strip (Client.input_text cst) in
  (∀ b, encode (Client.MSG_PREFIX ++ t) = Some b →
        length b ≤ Server.RECEIVE_BUFFER_SIZE) →
  (∀ r, encode (Server.FROM_PREFIX ++ (a ++ lit ":" ++ rest) ++ lit ":" ++ t)
        = Some r →
        length r ≤ Client.RECEIVE_BUFFER_SIZE) →
  ∃ b r cst1 sst1,
    Client.send_message None cst = (Return tt, cst1)
    ∧ Client.wire cst1 = Client.wire cst ++ [(cs, b)]
    ∧ take Server.RECEIVE_BUFFER_SIZE b = b
    ∧ Server._handle_client_data s
        (Return (take Server.RECEIVE_BUFFER_SIZE b)) sst = (Return tt, sst1)
    ∧ Server.message_queues sst1 = (λ q, q ++ [r]) <$> Server.message_queues sst
    ∧ take Client.RECEIVE_BUFFER_SIZE r = r
    ∧ strip a ≠ a ++ lit ":" ++ rest
    ∧ ∀ cst2,
        Client._handle_incoming_message
          (decode_ignore (take Client.RECEIVE_BUFFER_SIZE r)) cst2
        = (Return tt,
           Client.set_scheduled
             (Client.scheduled cst2
              ++ [if decide (strip a = Client.username cst2)
                  then Client._append_own_message (strip (rest ++ lit ":" ++ t))
                  else Client._append_other_message (strip a)
                         (strip (rest ++ lit ":" ++ t))]) cst2).
Proof.
  intros Ht Henc Hcs Hcc Hn Hsc Hp Hu Hcolon t Hlb Hlr.
  destruct (chat_relay cst cs sst s addr (a ++ lit ":" ++ rest))
    as (b & r & cst1 & sst1 & Hsend & Hwire & Hrun & Hq & _ & Hr & Hb & Hrelay);
    [done..|].
  assert (take Server.RECEIVE_BUFFER_SIZE b = b) as Hwhole.
  { apply take_ge. by apply Hlb. }
  assert (take Client.RECEIVE_BUFFER_SIZE r = r) as Hwhole'.
  { apply take_ge. by apply Hlr. }
  exists b, r, cst1, sst1. rewrite Hwhole, Hwhole'. repeat (split; [done|]).
  split.
  { intros Heq. pose proof (strip_length a) as Hlen.
    rewrite Heq, !length_app in Hlen.
    change (length (lit ":")) with 1 in Hlen. lia. }
  intros cst2. rewrite Hr.
  rewrite <- (app_assoc a), <- (app_assoc (lit ":")).
  by rewrite incoming_relay.
Qed.

Lemma colon_in_the_name_splits_the_relay_witness :
  let sst := Scenario.after
               (Server._handle_client_data 2 (Return (ascii_bytes "NAME:bob:42")))
               Scenario.alice_and_guest in
  ∃ b r cst1 sst1,
    Client.send_message None
      (Client.set_input_text (lit "hi") Scenario.connected_client)
    = (Return tt, cst1)
    ∧ Server._handle_client_data 2
        (Return (take Server.RECEIVE_BUFFER_SIZE b)) sst = (Return tt, sst1)
    ∧ Client._handle_incoming_message
        (decode_ignore (take Client.RECEIVE_BUFFER_SIZE r))
        Scenario.connected_client
      = (Return tt,
         Client.set_scheduled
           (Client.scheduled Scenario.connected_client
            ++ [Client._append_other_message (lit "bob") (lit "42:hi")])
           Scenario.connected_client).
Proof.
  intros sst.
  destruct (colon_in_the_name_splits_the_relay
              (Client.set_input_text (lit "hi") Scenario.connected_client)
              7 sst 2 (lit "('127.0.0.1', 50002)") (lit "bob") (lit "42"))
    as (b & r & cst1 & sst1 & Hsend & Hwire & _ & Hrun & Hq & _ & _ & Hshow).
  - vm_compute. intros H. discriminate H.
  - vm_compute. reflexivity.
  - vm_compute. reflexivity.
  - vm_compute. intros H. discriminate H.
  - vm_compute. reflexivity.
  - vm_compute. intros H. discriminate H.
  - vm_compute. reflexivity.
  - vm_compute. reflexivity.
  - apply (bool_decide_unpack _). vm_compute. exact I.
  - intros b Hb. vm_compute in Hb. injection Hb as <-.
    apply Nat.leb_le. vm_compute. reflexivity.
  - intros r Hr. vm_compute in Hr. injection Hr as <-.
    apply Nat.leb_le. vm_compute. reflexivity.
  - exists b, r, cst1, sst1. split; [done|]. split; [done|].
    by rewrite Hshow.
Defined.

(** X22.  The protocol has no message boundaries.  When the handshake and
    the first chat message of a client reach the server in one chunk, the
    server takes the chat message for a part of the name: it registers the
    name with [MSG:] and the text glued on, announces that name, and relays
    no message. *)
Theorem handshake_and_message_in_one_chunk_make_one_name cst cs sst s :
  let u := Client.username cst in
  let t := strip (Client.input_text cst) in
  t ≠ [] → forallb encodable_char (Client.input_text cst) = true →
  forallb encodable_char u = true →
  Client.client_socket cst = Some cs → cs ∉ Client.closed_sockets cst →
  Server.client_names sst !! s = None → s ∉ Server.closed_sockets sst →
  ∃ b1 b2 cst2 sst1 bj,
    (Client._send_username_handshake None ;; Client.send_message None) cst
    = (Return tt, cst2)
    ∧ Client.wire cst2 = Client.wire cst ++ [(cs, b1); (cs, b2)]
    ∧ Server._handle_client_data s (Return (b1 ++ b2)) sst = (Return tt, sst1)
    ∧ Server.client_names sst1 !! s
      = Some (strip (u ++ Client.MSG_PREFIX ++ t))
    ∧ encode (Server.SYS_PREFIX ++ strip (u ++ Client.MSG_PREFIX ++ t)
              ++ lit " joined") = Some bj
    ∧ Server.message_queues sst1
      = (λ q, q ++ [bj]) <$> Server.message_queues sst.
Proof.
  intros u t Ht Henc Hu Hcs Hcc Hn Hsc.
  assert (forallb encodable_char t = true) as Hte by by apply encodable_strip.
  destruct (encodable_encode u Hu) as [bu Hbu].
  destruct (encodable_encode t Hte) as [bt Hbt].
  pose proof (message_bytes t bt Hbt) as Hb2.
  assert (encode (u ++ Client.MSG_PREFIX ++ t)
          = Some (bu ++ ascii_bytes "MSG:" ++ bt)) as Hglued.
  { by apply encode_app. }
  assert (strip (decode_ignore (ascii_bytes "NAME:" ++ bu ++ ascii_bytes "MSG:" ++ bt))
          = Server.NAME_PREFIX ++ rstrip (u ++ Client.MSG_PREFIX ++ t)) as Htext.
  { by apply name_chunk_decoded. }
  assert (strip (drop (length Server.NAME_PREFIX)
                   (strip (decode_ignore
                             (ascii_bytes "NAME:" ++ bu ++ ascii_bytes "MSG:" ++ bt))))
          = strip (u ++ Client.MSG_PREFIX ++ t)) as Hreg.
  { by rewrite Htext, drop_app_length, strip_rstrip. }
  assert (strip (u ++ Client.MSG_PREFIX ++ t) ≠ []) as Hne.
  { intros Hnil.
    destruct (lstrip_split (u ++ Client.MSG_PREFIX ++ t)) as (w1 & Hw1 & H1).
    destruct (rstrip_split (lstrip (u ++ Client.MSG_PREFIX ++ t)))
      as (w2 & Hw2 & H2).
    change (rstrip (lstrip (u ++ Client.MSG_PREFIX ++ t)))
      with (strip (u ++ Client.MSG_PREFIX ++ t)) in H2.
    rewrite Hnil in H2. cbn [app] in H2. rewrite H2 in H1.
    assert (blank (u ++ Client.MSG_PREFIX ++ t)) as Hall.
    { rewrite H1. by apply blank_app. }
    unfold blank in Hall. rewrite !forallb_app in Hall.
    apply andb_true_iff in Hall as [_ Hall].
    apply andb_true_iff in Hall as [Hall _].
    vm_compute in Hall. discriminate Hall. }
  destruct (name_announce_spec sst s
              (ascii_bytes "NAME:" ++ bu ++ ascii_bytes "MSG:" ++ bt))
    as (bj & Hbj & Hrun).
  - done.
  - done.
  - done.
  - rewrite Htext. apply startswith_app.
  - by rewrite Hreg.
  - rewrite Hreg in Hrun, Hbj.
    exists (ascii_bytes "NAME:" ++ bu), (ascii_bytes "MSG:" ++ bt).
    eexists _, _, bj.
    split.
    { rewrite run_bind.
      rewrite (send_username_handshake_sent cst cs (ascii_bytes "NAME:" ++ bu));
        [|done|done|by apply handshake_bytes].
      by apply (send_message_connected None _ cs). }
    split; [cbn; by rewrite <- app_assoc|].
    split; [rewrite <- app_assoc; exact Hrun|].
    split; [apply lookup_insert_eq|]. split; [exact Hbj|done].
Qed.

Lemma handshake_and_message_in_one_chunk_make_one_name_witness :
  ∃ b1 b2 cst2 sst1 bj,
    (Client._send_username_handshake None ;; Client.send_message None)
      (Client.set_input_text (lit "hi") Scenario.connected_client)
    = (Return tt, cst2)
    ∧ Client.wire cst2
      = Client.wire Scenario.connected_client ++ [(7, b1); (7, b2)]
    ∧ Server._handle_client_data 2 (Return (b1 ++ b2)) Scenario.alice_and_guest
      = (Return tt, sst1)
    ∧ Server.client_names sst1 !! 2 = Some (lit "aliceMSG:hi")
    ∧ encode (lit "SYS:aliceMSG:hi joined") = Some bj
    ∧ Server.message_queues sst1
      = (λ q, q ++ [bj]) <$> Server.message_queues Scenario.alice_and_guest.
Proof.
  apply (handshake_and_message_in_one_chunk_make_one_name
           (Client.set_input_text (lit "hi") Scenario.connected_client)
           7 Scenario.alice_and_guest 2).
  - vm_compute. intros H. discriminate H.
  - vm_compute. reflexivity.
  - vm_compute. reflexivity.
  - vm_compute. reflexivity.
  - vm_compute. intros H. discriminate H.
  - vm_compute. reflexivity.
  - vm_compute. intros H. discriminate H.
Defined.

End EndToEnd.
